(** * Connect Four minimax player: a shallow embedding of [connect4player.py]

    The development follows the Python class [ComputerPlayer]:
    - the rack is a column-major grid of integers, [rack[col][row]], with
      row 0 at the bottom; 0 is an empty cell, 1 and 2 are the players;
    - [_make_move], [_unmake_move] and [_rack_full] work on the numpy
      working array in place; here they pass the array explicitly;
    - [_quartet_score] and [_board_state_score] are the static evaluator;
    - [_minimax] and [pick_move] are the search driver.

    Python integers are unbounded and are modelled by [Z]; sizes and
    indices, which the code only ever uses as non-negative loop bounds,
    are [nat].  The true division [score / ply] of Python 3 returns a
    binary64 float.  [minimax_binary64] is [_minimax] with that quotient,
    the exact quotient rounded to the nearest binary64 value; [minimax]
    and [pick_move] are the search on the exact quotient [score # ply] of
    [Q].  Rounding keeps the order of two values but may make them equal,
    and on a valid rack, while the aggregate scores stay below 2^53, the
    value of [minimax_binary64] is the rounding of the value of [minimax].

    numpy raises [IndexError] on an index outside the array.  Every index
    the code computes lies inside the array as soon as the array has the
    dimensions recorded in [shape] and both are at least 1; the lookups
    below are total (an absent cell reads 0, a write outside the array
    changes nothing) and the theorems state the shape of the rack as a
    hypothesis. *)

From Stdlib Require Import ZArith QArith Qminmax Qround Qabs Qpower.
From Stdlib Require Import Lia Lqa List Bool.
From stdpp Require Import base option list gmap.

Local Open Scope Z_scope.

(** ** Board model *)

Abbreviation rack := (list (list Z)).

(** [shape] is the tuple [(num_cols, num_rows)] the methods pass around. *)
Abbreviation shape := (nat * nat)%type.

(** [rack[col][row]] *)
Definition cell (r : rack) (col row : nat) : Z :=
  nth row (nth col r []) 0.

(** [rack[col][row] = v] *)
Definition set_cell (r : rack) (col row : nat) (v : Z) : rack :=
  alter (fun column => <[row := v]> column) col r.

(** ** Move simulator *)

(** The [while i < shape[1]] loop of [_make_move]; [n] counts the
    iterations that remain.  Falling off the loop returns Python's [None],
    which the callers test as false. *)
Fixpoint make_move_scan (r : rack) (col : nat) (player : Z) (i n : nat)
  : bool * rack :=
  match n with
  | O => (false, r)
  | S n' =>
      if cell r col i =? 0 then (true, set_cell r col i player)
      else make_move_scan r col player (S i) n'
  end.

Definition make_move (r : rack) (col : nat) (sh : shape) (player : Z)
  : bool * rack :=
  if negb (cell r col (snd sh - 1) =? 0) then (false, r)
  else make_move_scan r col player 0 (snd sh).

(** The [while i >= 0] loop of [_unmake_move], started at [shape[1]-1]:
    the argument [n] is [i + 1]. *)
Fixpoint unmake_move_scan (r : rack) (col : nat) (n : nat) : bool * rack :=
  match n with
  | O => (false, r)
  | S i =>
      if negb (cell r col i =? 0) then (true, set_cell r col i 0)
      else unmake_move_scan r col i
  end.

Definition unmake_move (r : rack) (col : nat) (sh : shape) : bool * rack :=
  unmake_move_scan r col (snd sh).

(** [for i in range(shape[0])] with an early [return False]. *)
Definition rack_full (r : rack) (sh : shape) : bool :=
  forallb (fun i => negb (cell r i (snd sh - 1) =? 0)) (seq 0 (fst sh)).

(** ** Control flow of the scoring loops

    [_board_state_score] runs nested [for] loops that add to [score] and
    leave the whole function as soon as a quartet is a win. *)

Inductive flow : Type :=
| Return (result : Z * bool)
| Continue (score : Z).

Definition flow_bind (f : flow) (k : Z -> flow) : flow :=
  match f with
  | Return t => Return t
  | Continue s => k s
  end.

Notation "f >>> k" := (flow_bind f k) (at level 61, left associativity).

(** [for i in range(start, start + n): body] *)
Fixpoint for_range (start n : nat) (body : nat -> Z -> flow) (score : Z)
  : flow :=
  match n with
  | O => Continue score
  | S n' => body start score >>> for_range (S start) n' body
  end.

(** [if tmp[1]: return tmp] followed by [score += tmp[0]] *)
Definition tally (tmp : Z * bool) (score : Z) : flow :=
  if snd tmp then Return tmp else Continue (score + fst tmp).

Definition Qltb (x y : Q) : bool :=
  match (x ?= y)%Q with Lt => true | _ => false end.

Section Player.

(** The two fields set by [__init__]. *)
Variable ID : Z.
Variable MAX_PLIES : Z.

(** ** Static evaluator *)

Definition quartet_score (disc1 disc2 disc3 disc4 : Z) : Z * bool :=
  if (disc1 =? disc2) && (disc2 =? disc3) && (disc3 =? disc4) then
    if disc1 =? 0 then (0, false)
    else if disc1 =? ID then (1000000000, true)
    else (-1000000000, true)
  else if ((disc1 =? 1) || (disc2 =? 1) || (disc3 =? 1) || (disc4 =? 1))
          && ((disc1 =? 2) || (disc2 =? 2) || (disc3 =? 2) || (disc4 =? 2))
  then (0, false)
  else
    let pid :=
      if (disc1 =? 1) || (disc2 =? 1) || (disc3 =? 1) || (disc4 =? 1)
      then 1 else 2 in
    let zeros := 0 in
    let zeros := if disc1 =? 0 then zeros + 1 else zeros in
    let zeros := if disc2 =? 0 then zeros + 1 else zeros in
    let zeros := if disc3 =? 0 then zeros + 1 else zeros in
    let zeros := if disc4 =? 0 then zeros + 1 else zeros in
    if zeros =? 3 then
      if pid =? ID then (1, false) else (-1, false)
    else if zeros =? 2 then
      if pid =? ID then (10, false) else (-10, false)
    else
      if pid =? ID then (100, false) else (-100, false).

(** The four blocks of loops of [_board_state_score], in source order. *)
Definition vertical_quartets (r : rack) (sh : shape) (score : Z) : flow :=
  if (3 <? snd sh)%nat then
    for_range 0 (fst sh) (fun i =>
      for_range 0 (snd sh - 3) (fun j =>
        tally (quartet_score (cell r i j) (cell r i (j+1))
                             (cell r i (j+2)) (cell r i (j+3))))) score
  else Continue score.

Definition horizontal_quartets (r : rack) (sh : shape) (score : Z) : flow :=
  if (3 <? fst sh)%nat then
    for_range 0 (fst sh - 3) (fun i =>
      for_range 0 (snd sh) (fun j =>
        tally (quartet_score (cell r i j) (cell r (i+1) j)
                             (cell r (i+2) j) (cell r (i+3) j)))) score
  else Continue score.

Definition rising_quartets (r : rack) (sh : shape) (score : Z) : flow :=
  for_range 0 (fst sh - 3) (fun i =>
    for_range 0 (snd sh - 3) (fun j =>
      tally (quartet_score (cell r i j) (cell r (i+1) (j+1))
                           (cell r (i+2) (j+2)) (cell r (i+3) (j+3))))) score.

Definition falling_quartets (r : rack) (sh : shape) (score : Z) : flow :=
  for_range 3 (fst sh - 3) (fun i =>
    for_range 0 (snd sh - 3) (fun j =>
      tally (quartet_score (cell r i j) (cell r (i-1) (j+1))
                           (cell r (i-2) (j+2)) (cell r (i-3) (j+3))))) score.

Definition diagonal_quartets (r : rack) (sh : shape) (score : Z) : flow :=
  if (3 <? fst sh)%nat && (3 <? snd sh)%nat then
    rising_quartets r sh score >>> falling_quartets r sh
  else Continue score.

Definition board_state_score (r : rack) (sh : shape) : Z * bool :=
  match
    vertical_quartets r sh 0 >>> horizontal_quartets r sh
                             >>> diagonal_quartets r sh
  with
  | Return t => t
  | Continue score => (score, false)
  end.

(** ** Search driver *)

(** The [while i < shape[0]] loop of [_minimax].  [rec] is the recursive
    call [self._minimax(rack, shape, ply+1)]; it returns the score and the
    array as the call left it, or [None] when the recursion budget of the
    model is used up. *)
Fixpoint minimax_columns (rec : rack -> option (Q * rack)) (sh : shape)
    (player : Z) (i n : nat) (r : rack) (high_score low_score : Q)
  : option (Q * Q * rack) :=
  match n with
  | O => Some (high_score, low_score, r)
  | S n' =>
      let (made, r1) := make_move r i sh player in
      if made then
        match rec r1 with
        | None => None
        | Some (score, r2) =>
            let high_score' :=
              if Qltb high_score score then score else high_score in
            let low_score' :=
              if Qltb score low_score then score else low_score in
            let r3 := snd (unmake_move r2 i sh) in
            minimax_columns rec sh player (S i) n' r3 high_score' low_score'
        end
      else minimax_columns rec sh player (S i) n' r1 high_score low_score
  end.

(** The player who moves at [ply]. *)
Definition mover (ply : positive) : Z :=
  if Z.pos ply mod 2 =? 1 then (if ID =? 1 then 2 else 1) else ID.

(** [_minimax].  [ply] is positive, as the docstring requires.  The
    recursion of the source is on the board, not on a structure: [fuel]
    bounds its depth, and [None] is returned only when it runs out.  The
    quotient [score[0] / ply] is the exact one here; [minimax_binary64]
    rounds it as the interpreter does. *)
Fixpoint minimax (fuel : nat) (r : rack) (sh : shape) (ply : positive)
  : option (Q * rack) :=
  match fuel with
  | O => None
  | S fuel' =>
      let score := board_state_score r sh in
      if snd score then Some (fst score # ply, r)%Q
      else if rack_full r sh then Some (0%Q, r)
      else if Z.pos ply =? MAX_PLIES then
        let score := board_state_score r sh in
        if snd score then Some (fst score # ply, r)%Q
        else Some (inject_Z (fst score), r)
      else
        let player := mover ply in
        match
          minimax_columns (fun r' => minimax fuel' r' sh (ply + 1)%positive)
            sh player 0 (fst sh) r
            (inject_Z (-10000000000)) (inject_Z 10000000000)
        with
        | None => None
        | Some (high_score, low_score, r') =>
            if negb (ID =? player) then Some (low_score, r')
            else Some (high_score, r')
        end
  end.

(** The [while i < shape[0]] loop of [pick_move]. *)
Fixpoint pick_move_columns (fuel : nat) (sh : shape) (i n : nat) (r : rack)
    (best_move : nat) (high_score : Q) : option (nat * rack) :=
  match n with
  | O => Some (best_move, r)
  | S n' =>
      let (made, r1) := make_move r i sh ID in
      if made then
        match minimax fuel r1 sh 1%positive with
        | None => None
        | Some (score, r2) =>
            let r3 := snd (unmake_move r2 i sh) in
            if Qltb high_score score
            then pick_move_columns fuel sh (S i) n' r3 i score
            else pick_move_columns fuel sh (S i) n' r3 best_move high_score
        end
      else pick_move_columns fuel sh (S i) n' r1 best_move high_score
  end.

(** [np.full(shape, rack, dtype=int, order='F')]: a new array of the
    given shape holding the values of [rack]. *)
Definition np_full (sh : shape) (r : rack) : rack :=
  map (fun i => map (fun j => cell r i j) (seq 0 (snd sh))) (seq 0 (fst sh)).

(** The body of [pick_move] on the working array.  The result is [None]
    when the model's recursion budget is too small, otherwise the value
    returned by the method ([None] of Python is the inner [None]) and the
    working array as the call leaves it. *)
Definition pick_move_on (fuel : nat) (numpy_rack : rack) (sh : shape)
  : option (option nat * rack) :=
  if rack_full numpy_rack sh then Some (None, numpy_rack)
  else
    match
      pick_move_columns fuel sh 0 (fst sh) numpy_rack 0%nat
        (inject_Z (-10000000000))
    with
    | None => None
    | Some (best_move, r') => Some (Some best_move, r')
    end.

(** ** The caller's rack and the working array

    [pick_move] is handed a reference to the caller's list of lists and
    allocates the numpy array itself.  The store maps object identities
    to grids. *)

Definition fresh_loc (st : gmap positive rack) : positive :=
  fresh (dom st).

Definition pick_move (fuel : nat) (st : gmap positive rack) (rack_ref : positive)
  : option (option nat * gmap positive rack) :=
  let caller_rack := default [] (st !! rack_ref) in
  let sh := (length caller_rack, length (nth 0 caller_rack [])) in
  let numpy_ref := fresh_loc st in
  let st1 := <[numpy_ref := np_full sh caller_rack]> st in
  match pick_move_on fuel (default [] (st1 !! numpy_ref)) sh with
  | None => None
  | Some (result, numpy_rack') =>
      Some (result, <[numpy_ref := numpy_rack']> st1)
  end.

End Player.

(** ** Well-formed racks *)

(** The array has the dimensions recorded in [shape]. *)
Definition rect (sh : shape) (r : rack) : Prop :=
  length r = fst sh /\ Forall (fun column => length column = snd sh) r.

(** A column obeys gravity when no disc lies above an empty cell. *)
Fixpoint settled (column : list Z) : bool :=
  match column with
  | [] => true
  | d :: above =>
      if d =? 0 then forallb (fun d' => d' =? 0) above else settled above
  end.

(** Every column of the rack obeys gravity. *)
Definition gravity (r : rack) : bool := forallb settled r.

(** The same for one column, cell by cell: above an empty cell every cell
    is empty. *)
Definition gravity_at (r : rack) (col : nat) : Prop :=
  forall i j, (i < j)%nat -> cell r col i = 0 -> cell r col j = 0.

(** The boards of the data model: of the recorded shape and obeying
    gravity. *)
Definition valid (sh : shape) (r : rack) : Prop :=
  rect sh r /\ gravity r = true.

(** Number of discs of [player] among the cells. *)
Definition discs_of (player : Z) (cells : list Z) : nat :=
  list_sum (map (fun d => if d =? player then 1%nat else 0%nat) cells).

(** Number of empty cells of the rack. *)
Definition empties (r : rack) : nat :=
  list_sum (map (discs_of 0) r).

(** ** The quartets of a board, by direction

    The enumeration of the specification: the vertical, horizontal, rising
    and falling lines of four cells, each direction left out when the board
    cannot span four cells that way. *)

Abbreviation coord := (nat * nat)%type.

Record quartet : Type := Quartet { q1 : coord; q2 : coord; q3 : coord; q4 : coord }.

Definition vertical_at (i j : nat) : quartet :=
  Quartet (i, j) (i, j + 1)%nat (i, j + 2)%nat (i, j + 3)%nat.

Definition horizontal_at (i j : nat) : quartet :=
  Quartet (i, j) (i + 1, j)%nat (i + 2, j)%nat (i + 3, j)%nat.

Definition rising_at (i j : nat) : quartet :=
  Quartet (i, j) (i + 1, j + 1)%nat (i + 2, j + 2)%nat (i + 3, j + 3)%nat.

Definition falling_at (i j : nat) : quartet :=
  Quartet (i, j) (i - 1, j + 1)%nat (i - 2, j + 2)%nat (i - 3, j + 3)%nat.

(** All quartets [line i j], columns in the outer order, rows inside. *)
Definition grid (cols rows : list nat) (line : nat -> nat -> quartet)
  : list quartet :=
  flat_map (fun i => map (line i) rows) cols.

Definition vertical_lines (sh : shape) : list quartet :=
  if (3 <? snd sh)%nat
  then grid (seq 0 (fst sh)) (seq 0 (snd sh - 3)) vertical_at else [].

Definition horizontal_lines (sh : shape) : list quartet :=
  if (3 <? fst sh)%nat
  then grid (seq 0 (fst sh - 3)) (seq 0 (snd sh)) horizontal_at else [].

Definition diagonal_lines (sh : shape) : list quartet :=
  if (3 <? fst sh)%nat && (3 <? snd sh)%nat
  then grid (seq 0 (fst sh - 3)) (seq 0 (snd sh - 3)) rising_at
       ++ grid (seq 3 (fst sh - 3)) (seq 0 (snd sh - 3)) falling_at
  else [].

Definition quartets (sh : shape) : list quartet :=
  vertical_lines sh ++ horizontal_lines sh ++ diagonal_lines sh.

(** The cell [c] is one of the four cells of [q]. *)
Definition on_quartet (c : coord) (q : quartet) : Prop :=
  c = q1 q \/ c = q2 q \/ c = q3 q \/ c = q4 q.

(** The score of one quartet of the rack. *)
Definition quartet_at (ID : Z) (r : rack) (q : quartet) : Z * bool :=
  quartet_score ID (cell r (q1 q).1 (q1 q).2) (cell r (q2 q).1 (q2 q).2)
                   (cell r (q3 q).1 (q3 q).2) (cell r (q4 q).1 (q4 q).2).

(** The sum of the scores of a list of quartet results. *)
Definition total (results : list (Z * bool)) : Z :=
  fold_right Z.add 0 (map fst results).

(** What the specification asks of the evaluator on a list of quartet
    results: the first win if there is one, else the sum. *)
Definition evaluate (results : list (Z * bool)) : Z * bool :=
  match find snd results with
  | Some t => t
  | None => (total results, false)
  end.

(** Sequential tallying of a list of results, as the loops do it. *)
Fixpoint run (results : list (Z * bool)) (score : Z) : flow :=
  match results with
  | [] => Continue score
  | t :: rest => tally t score >>> run rest
  end.

(** Largest magnitude of the aggregate score on a board without a win. *)
Definition score_bound (sh : shape) : Z :=
  100 * Z.of_nat (length (quartets sh)).

(** ** Scores of the search *)

(** The update [if score > high_score: high_score = score]. *)
Definition raise (high_score score : Q) : Q :=
  if Qltb high_score score then score else high_score.

(** The update [if score < low_score: low_score = score]. *)
Definition lower (low_score score : Q) : Q :=
  if Qltb score low_score then score else low_score.

(** The score of the child reached through column [i], when the column
    takes a disc. *)
Definition child (rec : rack -> option (Q * rack)) (sh : shape) (player : Z)
    (r : rack) (i : nat) : option Q :=
  let (made, r1) := make_move r i sh player in
  if made then option_map fst (rec r1) else None.

(** The scores of the children through the columns [cols], in order. *)
Definition children (rec : rack -> option (Q * rack)) (sh : shape)
    (player : Z) (r : rack) (cols : list nat) : list Q :=
  omap (child rec sh player r) cols.

(** The recursive call made by the node at [ply]. *)
Definition deeper (ID MAX_PLIES : Z) (sh : shape) (fuel : nat)
    (ply : positive) (r : rack)
  : option (Q * rack) :=
  minimax ID MAX_PLIES fuel r sh (ply + 1).

(** The scores of magnitude at most [M]. *)
Definition in_range (M : Z) (v : Q) : Prop :=
  (inject_Z (- M) <= v <= inject_Z M)%Q.

(** The update of [pick_move]: a strictly greater score takes over. *)
Definition choose (best : nat * Q) (candidate : nat * Q) : nat * Q :=
  if Qltb (snd best) (snd candidate) then candidate else best.

(** The columns of [cols] that have a score, each with its score. *)
Definition scored (score : nat -> option Q) (cols : list nat)
  : list (nat * Q) :=
  omap (fun i => option_map (pair i) (score i)) cols.

(** The score [pick_move] obtains for column [j]: the value of the
    search on the rack after the engine's disc is dropped there. *)
Definition root_score (ID MAX_PLIES : Z) (sh : shape) (fuel : nat) (r : rack)
    (j : nat) : option Q :=
  child (fun r1 => minimax ID MAX_PLIES fuel r1 sh 1) sh ID r j.

(** Dropping the engine's disc into column [j] completes a line of four of
    the engine's discs. *)
Definition immediate_win (ID : Z) (sh : shape) (r : rack) (j : nat) : bool :=
  let (made, r1) := make_move r j sh ID in
  made && snd (board_state_score ID r1 sh)
       && (fst (board_state_score ID r1 sh) =? 1000000000).

(** ** The search without the second win check *)

Section RawCutoff.

Variable ID : Z.
Variable MAX_PLIES : Z.

(** The search whose branch at the ply budget returns the aggregate score
    without looking at the win flag again. *)
Fixpoint minimax_raw_cutoff (fuel : nat) (r : rack) (sh : shape)
    (ply : positive) : option (Q * rack) :=
  match fuel with
  | O => None
  | S fuel' =>
      let score := board_state_score ID r sh in
      if snd score then Some (fst score # ply, r)%Q
      else if rack_full r sh then Some (0%Q, r)
      else if Z.pos ply =? MAX_PLIES then
        Some (inject_Z (fst (board_state_score ID r sh)), r)
      else
        let player := mover ID ply in
        match
          minimax_columns
            (fun r' => minimax_raw_cutoff fuel' r' sh (ply + 1)%positive)
            sh player 0 (fst sh) r
            (inject_Z (-10000000000)) (inject_Z 10000000000)
        with
        | None => None
        | Some (high_score, low_score, r') =>
            if negb (ID =? player) then Some (low_score, r')
            else Some (high_score, r')
        end
  end.

End RawCutoff.

(** ** Binary64 quotients

    [score[0] / ply] divides two Python integers: the result is the float
    nearest to the exact quotient, halves going to the even neighbour.  A
    binary64 value is an integer multiple of a power of two, with 53
    binary digits in the normal range and with the fixed unit 2^-1074
    below it.  Quotients of magnitude 2^1024 and above, on which Python
    raises [OverflowError], do not arise: the only dividends of the
    search are the two win scores. *)

(** The nearest integer, halves to the even one. *)
Definition round_half_even (x : Q) : Z :=
  let q := Qfloor x in
  match Qcompare (x - inject_Z q) (1 # 2) with
  | Lt => q
  | Gt => q + 1
  | Eq => if Z.even q then q else q + 1
  end.

(** The integer [k] with [2^k <= |x| < 2^(k+1)], for [x] other than 0:
    the difference of the two bit lengths, or one less. *)
Definition magnitude (x : Q) : Z :=
  let l := Z.log2 (Z.abs (Qnum x)) - Z.log2 (Z.pos (Qden x)) in
  if Qle_bool (2 ^ l) (Qabs x) then l else l - 1.

(** The exponent of the unit in the last place at [x]. *)
Definition exponent (x : Q) : Z := Z.max (magnitude x - 52) (-1074).

(** [x] rounded to binary64. *)
Definition binary64 (x : Q) : Q :=
  (inject_Z (round_half_even (x / 2 ^ exponent x)) * 2 ^ exponent x)%Q.

(** [a / b] of Python 3 on integers, for a positive divisor. *)
Definition true_divide (a : Z) (b : positive) : Q := binary64 (a # b).

(** [_minimax] with the quotients as the interpreter computes them.  The
    integers it returns and compares with are exact in Python. *)
Fixpoint minimax_binary64 (ID MAX_PLIES : Z) (fuel : nat) (r : rack)
    (sh : shape) (ply : positive) : option (Q * rack) :=
  match fuel with
  | O => None
  | S fuel' =>
      let score := board_state_score ID r sh in
      if snd score then Some (true_divide (fst score) ply, r)
      else if rack_full r sh then Some (0%Q, r)
      else if Z.pos ply =? MAX_PLIES then
        let score := board_state_score ID r sh in
        if snd score then Some (true_divide (fst score) ply, r)
        else Some (inject_Z (fst score), r)
      else
        let player := mover ID ply in
        match
          minimax_columns
            (fun r' => minimax_binary64 ID MAX_PLIES fuel' r' sh
                         (ply + 1)%positive)
            sh player 0 (fst sh) r
            (inject_Z (-10000000000)) (inject_Z 10000000000)
        with
        | None => None
        | Some (high_score, low_score, r') =>
            if negb (ID =? player) then Some (low_score, r')
            else Some (high_score, r')
        end
  end.

(** ** Some positions *)

(** Four columns of two rows, one disc of each player. *)
Definition small_rack : rack := [[1; 0]; [2; 0]; [0; 0]; [0; 0]].

(** A store whose only object is [small_rack], at address 1. *)
Definition small_store : gmap positive rack := {[ 1%positive := small_rack ]}.

(** The engine (discs 1) holds the bottom cells of columns 0 to 2; no move
    in these columns wins. *)
Definition three_rack : rack :=
  [[1; 0; 0; 0; 0; 0]; [1; 0; 0; 0; 0; 0]; [1; 2; 0; 0; 0; 0];
   [0; 0; 0; 0; 0; 0]; [0; 0; 0; 0; 0; 0]; [2; 0; 0; 0; 0; 0];
   [2; 0; 0; 0; 0; 0]].

(** The engine (discs 1) holds the bottom cells of columns 0 to 2 and also
    three cells of column 0; column 3 is empty. *)
Definition two_wins_rack : rack :=
  [[1; 1; 1; 0; 0; 0]; [1; 2; 2; 0; 0; 0]; [1; 2; 2; 0; 0; 0];
   [0; 0; 0; 0; 0; 0]; [0; 0; 0; 0; 0; 0]; [0; 0; 0; 0; 0; 0];
   [2; 0; 0; 0; 0; 0]].

(** The opponent (discs 2) already has four in column 6. *)
Definition decided_rack : rack :=
  [[1; 0; 0; 0; 0; 0]; [1; 0; 0; 0; 0; 0]; [1; 0; 0; 0; 0; 0];
   [0; 0; 0; 0; 0; 0]; [0; 0; 0; 0; 0; 0]; [1; 0; 0; 0; 0; 0];
   [2; 2; 2; 2; 0; 0]].

(** Discs of player 1 in the bottom cells of columns 0, 1 and 2, and an
    empty bottom cell in column 3. *)
Definition bottom_left_three (r : rack) : Prop :=
  cell r 0 0 = 1 /\ cell r 1 0 = 1 /\ cell r 2 0 = 1 /\ cell r 3 0 = 0.

(** ** Notions for the further properties *)

(** The four cells of [q] hold the same disc. *)
Definition four_in_line (r : rack) (q : quartet) : Prop :=
  cell r (q1 q).1 (q1 q).2 <> 0
  /\ cell r (q1 q).1 (q1 q).2 = cell r (q2 q).1 (q2 q).2
  /\ cell r (q2 q).1 (q2 q).2 = cell r (q3 q).1 (q3 q).2
  /\ cell r (q3 q).1 (q3 q).2 = cell r (q4 q).1 (q4 q).2.

(** The cell [c] lies on a board of shape [sh]. *)
Definition on_board (sh : shape) (c : coord) : Prop :=
  (c.1 < fst sh)%nat /\ (c.2 < snd sh)%nat.

(** Every cell of the rack is empty or holds a disc of player 1 or 2. *)
Definition discs_only (r : rack) : bool :=
  forallb (forallb (fun d => (d =? 0) || (d =? 1) || (d =? 2))) r.

(** The board without discs. *)
Definition empty_rack (sh : shape) : rack :=
  replicate (fst sh) (replicate (snd sh) 0).

(** A pair of score and win flag seen from the other player. *)
Definition mirrored (t : Z * bool) : Z * bool := (- fst t, snd t).

(** The values of a search that ran to the end of the game from [ply] on:
    a draw, or a win or a loss found at some ply [q] from [ply] on. *)
Definition decided_value (ply : positive) (v : Q) : Prop :=
  v = 0%Q
  \/ exists q, (ply <= q)%positive
               /\ (v = (1000000000 # q)%Q \/ v = (-1000000000 # q)%Q).

(** The player the engine plays against, as [_minimax] computes it. *)
Definition opponent (ID : Z) : Z := if ID =? 1 then 2 else 1.

(** ** Tactics *)

(** Validity of a concrete rack, by evaluation. *)
Ltac valid_by_evaluation :=
  split; [split; [reflexivity|] | reflexivity];
  repeat (apply List.Forall_cons; [reflexivity|]); apply List.Forall_nil.

(** Case analysis on every test of the goal. *)
Ltac split_ifs :=
  repeat (match goal with
          | |- context [if ?c then _ else _] => destruct c eqn:?
          end; simpl in *).

(** * Properties *)

(** ** Cells of a well-formed rack *)

Section CellLemmas.

Implicit Types (r : rack) (col row : nat) (v : Z).

Lemma cell_lookup r col row :
  cell r col row = default 0 (r !! col ≫= fun column => column !! row).
Proof.
  unfold cell. rewrite !nth_lookup.
  by destruct (r !! col) as [column|].
Qed.

Lemma rect_column sh r col column :
  rect sh r -> r !! col = Some column -> length column = snd sh.
Proof. intros [_ Hcols] Hcol. exact (Forall_lookup_1 _ _ _ _ Hcols Hcol). Qed.

Lemma rect_lookup sh r col :
  rect sh r -> (col < fst sh)%nat -> exists column, r !! col = Some column.
Proof. intros [Hlen _] Hc. apply lookup_lt_is_Some_2. lia. Qed.

Lemma cell_set_cell_eq r col row v sh :
  rect sh r -> (col < fst sh)%nat -> (row < snd sh)%nat ->
  cell (set_cell r col row v) col row = v.
Proof.
  intros Hrect Hc Hr. rewrite cell_lookup. unfold set_cell.
  rewrite list_lookup_alter_eq.
  destruct (rect_lookup sh r col Hrect Hc) as [column Hcol].
  rewrite Hcol. simpl.
  rewrite list_lookup_insert_eq; [done|].
  by rewrite (rect_column sh r col column).
Qed.

Lemma cell_set_cell_ne r col row v col' row' :
  (col, row) <> (col', row') ->
  cell (set_cell r col row v) col' row' = cell r col' row'.
Proof.
  intros Hne. rewrite !cell_lookup. unfold set_cell.
  destruct (decide (col = col')) as [->|Hc].
  - rewrite list_lookup_alter_eq.
    destruct (r !! col') as [column|]; simpl; [|done].
    rewrite list_lookup_insert_ne; [done|congruence].
  - by rewrite list_lookup_alter_ne.
Qed.

Lemma set_cell_set_cell r col row v w :
  set_cell (set_cell r col row v) col row w = set_cell r col row w.
Proof.
  unfold set_cell. rewrite list_alter_alter_eq.
  apply list_alter_ext; [|done].
  intros column _. simpl. apply list_insert_insert_eq.
Qed.

Lemma set_cell_same r col row sh :
  rect sh r -> (col < fst sh)%nat -> (row < snd sh)%nat ->
  set_cell r col row (cell r col row) = r.
Proof.
  intros Hrect Hc Hr. unfold set_cell.
  destruct (rect_lookup sh r col Hrect Hc) as [column Hcol].
  rewrite cell_lookup, Hcol. simpl.
  pose proof (rect_column sh r col column Hrect Hcol) as Hlc.
  destruct (lookup_lt_is_Some_2 column row) as [d Hd]; [lia|].
  rewrite Hd. simpl.
  apply list_eq. intros k.
  destruct (decide (k = col)) as [->|Hk].
  - rewrite list_lookup_alter_eq, Hcol. simpl. f_equal.
    by apply list_insert_id.
  - by rewrite list_lookup_alter_ne.
Qed.

Lemma rect_set_cell sh r col row v :
  rect sh r -> rect sh (set_cell r col row v).
Proof.
  intros [Hlen Hcols]. split.
  - unfold set_cell. by rewrite length_alter.
  - unfold set_cell. apply Forall_alter; [done|].
    intros column _. by rewrite length_insert.
Qed.

End CellLemmas.

(** ** Gravity *)

Section Gravity.

Implicit Types (r : rack) (col row : nat) (column : list Z).

Lemma all_zero_nth column :
  forallb (fun d => d =? 0) column = true <-> forall k, nth k column 0 = 0.
Proof.
  induction column as [|d above IH]; simpl.
  - split; [intros _ [|k]; reflexivity | reflexivity].
  - rewrite andb_true_iff, IH, Z.eqb_eq. split.
    + intros [Hd Habove] [|k]; auto.
    + intros H. split; [exact (H O) | intros k; exact (H (S k))].
Qed.

Lemma settled_nth column :
  settled column = true <->
  forall i j, (i < j)%nat -> nth i column 0 = 0 -> nth j column 0 = 0.
Proof.
  induction column as [|d above IH]; simpl.
  - split; [intros _ i [|j] _ _; reflexivity | reflexivity].
  - destruct (Z.eqb_spec d 0) as [->|Hd].
    + rewrite all_zero_nth. split.
      * intros H i [|j] Hij Hi; [lia | apply H].
      * intros H k. apply (H O (S k)); [lia | reflexivity].
    + rewrite IH. split.
      * intros H [|i] [|j] Hij Hi; try lia; try contradiction.
        apply (H i j); [lia | exact Hi].
      * intros H i j Hij Hi. apply (H (S i) (S j)); [lia | exact Hi].
Qed.

Lemma gravity_spec r : gravity r = true <-> forall col, gravity_at r col.
Proof.
  unfold gravity, gravity_at, cell. rewrite forallb_forall. split.
  - intros H col. apply settled_nth.
    destruct (nth_in_or_default col r []) as [Hin | ->]; [auto | reflexivity].
  - intros H column Hin. apply settled_nth.
    destruct (In_nth r column [] Hin) as (col & _ & <-). apply H.
Qed.

(** In a column whose cell [top] is empty there is a lowest empty cell. *)
Lemma lowest_empty r col top :
  cell r col top = 0 ->
  exists k, (k <= top)%nat /\ cell r col k = 0 /\
            forall j, (j < k)%nat -> cell r col j <> 0.
Proof.
  intros Htop.
  assert (Hscan : forall n,
    (exists k, (k < n)%nat /\ cell r col k = 0 /\
               forall j, (j < k)%nat -> cell r col j <> 0)
    \/ forall j, (j < n)%nat -> cell r col j <> 0).
  { induction n as [|n [Hfound | Hnone]].
    - right. intros j Hj. lia.
    - left. destruct Hfound as (k & Hk & Hz & Hlow).
      exists k. repeat split; auto.
    - destruct (Z.eq_dec (cell r col n) 0) as [Hz | Hnz].
      + left. exists n. repeat split; auto.
      + right. intros j Hj.
        destruct (Nat.eq_dec j n) as [-> | Hne]; [exact Hnz | apply Hnone; lia]. }
  destruct (Hscan (S top)) as [(k & Hk & Hz & Hlow) | Hnone].
  - exists k. repeat split; [lia | exact Hz | exact Hlow].
  - exfalso. apply (Hnone top); [lia | exact Htop].
Qed.

End Gravity.

(** ** The move simulator on well-formed racks *)

Section Moves.

Implicit Types (r : rack) (col row : nat) (sh : shape) (player : Z).

Lemma make_move_scan_finds r col player k n i :
  (i <= k < i + n)%nat -> cell r col k = 0 ->
  (forall j, (i <= j < k)%nat -> cell r col j <> 0) ->
  make_move_scan r col player i n = (true, set_cell r col k player).
Proof.
  revert i. induction n as [|n IH]; intros i Hk Hz Hlow; simpl; [lia|].
  destruct (Z.eqb_spec (cell r col i) 0) as [Hi | Hi].
  - destruct (Nat.eq_dec i k) as [-> | Hne]; [reflexivity|].
    exfalso. apply (Hlow i); [lia | exact Hi].
  - apply IH; [| exact Hz | intros j Hj; apply Hlow; lia].
    destruct (Nat.eq_dec i k) as [-> | Hne]; [contradiction | lia].
Qed.

Lemma unmake_move_scan_finds r col k n :
  (k < n)%nat -> cell r col k <> 0 ->
  (forall j, (k < j < n)%nat -> cell r col j = 0) ->
  unmake_move_scan r col n = (true, set_cell r col k 0).
Proof.
  induction n as [|n IH]; intros Hk Hnz Habove; simpl; [lia|].
  destruct (Z.eqb_spec (cell r col n) 0) as [Hn | Hn]; simpl.
  - apply IH; [| exact Hnz | intros j Hj; apply Habove; lia].
    destruct (Nat.eq_dec n k) as [-> | Hne]; [contradiction | lia].
  - destruct (Nat.eq_dec n k) as [-> | Hne]; [reflexivity|].
    exfalso. apply Hn, Habove. lia.
Qed.

(** A column with a free top cell takes the disc in its lowest empty
    cell. *)
Lemma make_move_open r col sh player :
  (0 < snd sh)%nat -> cell r col (snd sh - 1) = 0 ->
  exists k, (k < snd sh)%nat /\ cell r col k = 0 /\
            (forall j, (j < k)%nat -> cell r col j <> 0) /\
            make_move r col sh player = (true, set_cell r col k player).
Proof.
  intros HR Htop.
  destruct (lowest_empty r col _ Htop) as (k & Hk & Hz & Hlow).
  exists k. repeat split; [lia | exact Hz | exact Hlow |].
  unfold make_move. rewrite Htop. simpl.
  apply make_move_scan_finds; [lia | exact Hz | intros j Hj; apply Hlow; lia].
Qed.

(** A column whose top cell is taken refuses the move and is left as it
    is. *)
Lemma make_move_closed r col sh player :
  cell r col (snd sh - 1) <> 0 -> make_move r col sh player = (false, r).
Proof.
  intros Htop. unfold make_move.
  by destruct (Z.eqb_spec (cell r col (snd sh - 1)) 0).
Qed.

Lemma unmake_move_placed r col sh player k :
  rect sh r -> gravity_at r col -> (col < fst sh)%nat -> (k < snd sh)%nat ->
  player <> 0 -> cell r col k = 0 ->
  unmake_move (set_cell r col k player) col sh = (true, r).
Proof.
  intros Hrect Hg Hc Hk Hp Hz. unfold unmake_move.
  rewrite (unmake_move_scan_finds _ col k).
  - rewrite set_cell_set_cell. rewrite <- Hz at 1.
    by rewrite (set_cell_same r col k sh).
  - exact Hk.
  - by rewrite (cell_set_cell_eq r col k player sh).
  - intros j Hj. rewrite cell_set_cell_ne; [|intros [=]; lia].
    apply (Hg k j); [lia | exact Hz].
Qed.

Lemma gravity_at_placed r col sh player k col' :
  rect sh r -> (col < fst sh)%nat -> (k < snd sh)%nat -> player <> 0 ->
  (forall j, (j < k)%nat -> cell r col j <> 0) ->
  gravity_at r col' -> gravity_at (set_cell r col k player) col'.
Proof.
  intros Hrect Hc Hk Hp Hlow Hg i j Hij.
  destruct (decide (col = col')) as [<- | Hcol].
  - destruct (Nat.eq_dec i k) as [-> | Hik].
    + rewrite (cell_set_cell_eq r col k player sh); auto. contradiction.
    + rewrite cell_set_cell_ne; [|intros [=]; lia]. intros Hi.
      assert (k < i)%nat.
      { destruct (Nat.lt_ge_cases i k) as [Hlt | Hge]; [|lia].
        exfalso. by apply (Hlow i). }
      rewrite cell_set_cell_ne; [|intros [=]; lia].
      by apply (Hg i j).
  - rewrite !cell_set_cell_ne; [| intros [=]; lia | intros [=]; lia].
    by apply Hg.
Qed.

End Moves.

(** C1.  On a rack of the recorded shape whose column [col] obeys gravity
    and has a free top cell, [_make_move] for a player (a non-zero disc)
    succeeds, and [_unmake_move] on the same column right after it succeeds
    and gives back exactly the rack from before the move. *)
Theorem make_then_unmake_restores (r : rack) (sh : shape) (col : nat) (player : Z) :
  rect sh r -> settled (nth col r []) = true ->
  (col < fst sh)%nat -> (0 < snd sh)%nat ->
  cell r col (snd sh - 1) = 0 -> player <> 0 ->
  exists r1, make_move r col sh player = (true, r1) /\
             unmake_move r1 col sh = (true, r).
Proof.
  intros Hrect Hsettled Hc HR Htop Hp.
  destruct (make_move_open r col sh player HR Htop) as (k & Hk & Hz & Hlow & Hmake).
  exists (set_cell r col k player). split; [exact Hmake|].
  apply unmake_move_placed; auto.
  intros i j. apply (proj1 (settled_nth _) Hsettled).
Qed.

Lemma make_then_unmake_restores_witness :
  exists r1,
    make_move [[1; 2; 0]; [0; 0; 0]] 0 (2, 3)%nat 1 = (true, r1) /\
    unmake_move r1 0 (2, 3)%nat = (true, [[1; 2; 0]; [0; 0; 0]]).
Proof.
  apply (make_then_unmake_restores [[1; 2; 0]; [0; 0; 0]] (2, 3)%nat 0 1).
  - split; [reflexivity | repeat constructor].
  - reflexivity.
  - simpl; lia.
  - simpl; lia.
  - reflexivity.
  - discriminate.
Defined.

(** Gravity matters for the round trip: under a floating disc the move
    fills the cell below it and the revert removes the floating disc. *)
Example floating_disc_not_restored :
  snd (unmake_move (snd (make_move [[0; 1; 0]] 0 (1, 3)%nat 2)) 0 (1, 3)%nat)
  = [[2; 0; 0]].
Proof. reflexivity. Qed.

(** ** The evaluator tallies the enumerated quartets *)

Section Evaluator.

Variable ID : Z.

Lemma run_app l1 l2 score : run (l1 ++ l2) score = run l1 score >>> run l2.
Proof.
  revert score. induction l1 as [|t l1 IH]; intros score; simpl; [done|].
  unfold tally. destruct (snd t); simpl; [done | apply IH].
Qed.

Lemma run_find l score :
  run l score =
  match find snd l with
  | Some t => Return t
  | None => Continue (score + total l)
  end.
Proof.
  revert score. induction l as [|t l IH]; intros score; simpl.
  - unfold total. simpl. f_equal. lia.
  - unfold tally. destruct (snd t); simpl; [done|].
    rewrite IH. destruct (find snd l); [done|].
    f_equal. unfold total. simpl. lia.
Qed.

Lemma for_range_tally (f : nat -> Z * bool) start n score :
  for_range start n (fun j => tally (f j)) score
  = run (map f (seq start n)) score.
Proof.
  revert start score. induction n as [|n IH]; intros start score; simpl; [done|].
  destruct (tally (f start) score); simpl; [done | apply IH].
Qed.

Lemma for_range_run (body : nat -> Z -> flow) (g : nat -> list (Z * bool))
    start n score :
  (forall i s, body i s = run (g i) s) ->
  for_range start n body score = run (flat_map g (seq start n)) score.
Proof.
  intros Hbody. revert start score.
  induction n as [|n IH]; intros start score; simpl; [done|].
  rewrite run_app, Hbody.
  destruct (run (g start) score); simpl; [done | apply IH].
Qed.

Lemma map_grid (f : quartet -> Z * bool) cols rows line :
  map f (grid cols rows line)
  = flat_map (fun i => map (fun j => f (line i j)) rows) cols.
Proof.
  unfold grid. induction cols as [|i cols IH]; simpl; [done|].
  by rewrite map_app, map_map, IH.
Qed.

Lemma for_range_grid r line c0 nc r0 nr score :
  for_range c0 nc (fun i =>
    for_range r0 nr (fun j => tally (quartet_at ID r (line i j)))) score
  = run (map (quartet_at ID r) (grid (seq c0 nc) (seq r0 nr) line)) score.
Proof.
  rewrite map_grid. apply for_range_run.
  intros i s. apply for_range_tally.
Qed.

Lemma vertical_quartets_run r sh score :
  vertical_quartets ID r sh score
  = run (map (quartet_at ID r) (vertical_lines sh)) score.
Proof.
  unfold vertical_quartets, vertical_lines.
  destruct (3 <? snd sh)%nat; [|done].
  apply (for_range_grid r vertical_at).
Qed.

Lemma horizontal_quartets_run r sh score :
  horizontal_quartets ID r sh score
  = run (map (quartet_at ID r) (horizontal_lines sh)) score.
Proof.
  unfold horizontal_quartets, horizontal_lines.
  destruct (3 <? fst sh)%nat; [|done].
  apply (for_range_grid r horizontal_at).
Qed.

Lemma diagonal_quartets_run r sh score :
  diagonal_quartets ID r sh score
  = run (map (quartet_at ID r) (diagonal_lines sh)) score.
Proof.
  unfold diagonal_quartets, diagonal_lines.
  destruct ((3 <? fst sh)%nat && (3 <? snd sh)%nat); [|done].
  rewrite map_app, run_app.
  unfold rising_quartets, falling_quartets.
  rewrite (for_range_grid r rising_at).
  destruct (run _ score) as [t|s]; simpl; [done|].
  apply (for_range_grid r falling_at).
Qed.

(** [_board_state_score] tallies the quartets of [quartets] in order. *)
Lemma board_state_score_run r sh :
  vertical_quartets ID r sh 0 >>> horizontal_quartets ID r sh
                              >>> diagonal_quartets ID r sh
  = run (map (quartet_at ID r) (quartets sh)) 0.
Proof.
  unfold quartets. rewrite map_app, run_app, vertical_quartets_run.
  destruct (run _ 0) as [t|s]; simpl; [done|].
  rewrite map_app, run_app, horizontal_quartets_run.
  destruct (run _ s) as [t|s']; simpl; [done|].
  apply diagonal_quartets_run.
Qed.

Lemma board_state_score_evaluate r sh :
  board_state_score ID r sh = evaluate (map (quartet_at ID r) (quartets sh)).
Proof.
  unfold board_state_score, evaluate.
  rewrite board_state_score_run, run_find.
  destruct (find snd _); [done|]. f_equal.
Qed.

End Evaluator.

(** ** Properties of the quartet score *)

Section QuartetScore.

Variable ID : Z.

Lemma any_disc_spec x d1 d2 d3 d4 :
  (d1 =? x) || (d2 =? x) || (d3 =? x) || (d4 =? x) = true
  <-> In x [d1; d2; d3; d4].
Proof.
  rewrite !orb_true_iff, !Z.eqb_eq. simpl. intuition.
Qed.

Lemma all_same_spec d1 d2 d3 d4 :
  (d1 =? d2) && (d2 =? d3) && (d3 =? d4) = true
  <-> d1 = d2 /\ d2 = d3 /\ d3 = d4.
Proof. rewrite !andb_true_iff, !Z.eqb_eq. intuition. Qed.

(** A winning quartet scores plus or minus 1e9, any other at most 100 in
    magnitude. *)
Lemma quartet_score_range d1 d2 d3 d4 :
  let t := quartet_score ID d1 d2 d3 d4 in
  if snd t then fst t = 1000000000 \/ fst t = -1000000000
  else -100 <= fst t <= 100.
Proof.
  unfold quartet_score. simpl.
  destruct ((d1 =? d2) && (d2 =? d3) && (d3 =? d4)).
  - split_ifs; auto; lia.
  - destruct (_ && _); simpl; [lia|].
    destruct (d1 =? 0), (d2 =? 0), (d3 =? 0), (d4 =? 0); simpl;
      split_ifs; lia.
Qed.

(** A quartet wins exactly when its four cells hold the same disc. *)
Lemma quartet_score_win d1 d2 d3 d4 :
  snd (quartet_score ID d1 d2 d3 d4) = true
  <-> d1 <> 0 /\ d1 = d2 /\ d2 = d3 /\ d3 = d4.
Proof.
  unfold quartet_score.
  destruct ((d1 =? d2) && (d2 =? d3) && (d3 =? d4)) eqn:Hsame.
  - apply all_same_spec in Hsame.
    destruct (Z.eqb_spec d1 0); simpl.
    + split; [discriminate | tauto].
    + destruct (d1 =? ID); simpl; tauto.
  - assert (~ (d1 = d2 /\ d2 = d3 /\ d3 = d4)) as Hne.
    { rewrite <- all_same_spec, Hsame. discriminate. }
    destruct (_ && _); simpl; [split; [discriminate | tauto]|].
    destruct (d1 =? 0), (d2 =? 0), (d3 =? 0), (d4 =? 0); simpl;
      split_ifs; (split; [discriminate | tauto]).
Qed.

Lemma quartet_score_win_value d1 d2 d3 d4 :
  snd (quartet_score ID d1 d2 d3 d4) = true ->
  quartet_score ID d1 d2 d3 d4
  = (if d1 =? ID then 1000000000 else -1000000000, true).
Proof.
  intros Hwin. pose proof Hwin as Hw.
  apply quartet_score_win in Hw as (Hnz & <- & <- & <-).
  unfold quartet_score. rewrite !Z.eqb_refl. simpl.
  destruct (Z.eqb_spec d1 0); [contradiction|].
  by destruct (d1 =? ID).
Qed.

End QuartetScore.

(** C6.  The case analysis of [_quartet_score]: four equal discs are a win
    for their owner
    (plus 1e9 for the engine, minus 1e9 otherwise); four empty cells score
    (0, false); a quartet with discs of both players scores (0, false); a
    quartet with k discs of one player, 1 <= k <= 3, and empty cells
    otherwise scores 1, 10 or 100, positive for the engine's discs and
    negative otherwise, and is no win. *)
Theorem quartet_score_cases (ID : Z) :
  (forall d, d <> 0 ->
     quartet_score ID d d d d
     = (if d =? ID then 1000000000 else -1000000000, true))
  /\ quartet_score ID 0 0 0 0 = (0, false)
  /\ (forall d1 d2 d3 d4,
        In 1 [d1; d2; d3; d4] -> In 2 [d1; d2; d3; d4] ->
        quartet_score ID d1 d2 d3 d4 = (0, false))
  /\ (forall p d1 d2 d3 d4 k,
        p = 1 \/ p = 2 ->
        Forall (fun d => d = 0 \/ d = p) [d1; d2; d3; d4] ->
        discs_of p [d1; d2; d3; d4] = k -> (1 <= k <= 3)%nat ->
        quartet_score ID d1 d2 d3 d4
        = ((if p =? ID then 1 else -1) * 10 ^ (Z.of_nat k - 1), false)).
Proof.
  repeat split.
  - intros d Hd. unfold quartet_score. rewrite !Z.eqb_refl.
    cbn [andb]. destruct (Z.eqb_spec d 0) as [-> | _]; [done|].
    by destruct (d =? ID).
  - intros d1 d2 d3 d4 H1 H2. unfold quartet_score.
    destruct ((d1 =? d2) && (d2 =? d3) && (d3 =? d4)) eqn:Hsame.
    + apply all_same_spec in Hsame as (<- & <- & <-).
      simpl in H1, H2. exfalso. lia.
    + apply any_disc_spec in H1, H2. by rewrite H1, H2.
  - intros p d1 d2 d3 d4 k Hp Hcells Hk Hrange.
    repeat match goal with
           | H : Forall _ (_ :: _) |- _ => apply Forall_cons_1 in H as [? H]
           end.
    subst k.
    destruct Hp as [-> | ->];
      repeat match goal with
             | H : _ = 0 \/ _ = _ |- _ => destruct H as [-> | ->]
             end;
      cbn in Hrange; try lia;
      destruct ID as [| [[q|q|] | [q|q|] |] | q]; reflexivity.
Qed.

Lemma quartet_score_cases_witness :
  quartet_score 1 2 2 2 2 = (-1000000000, true)
  /\ quartet_score 1 0 1 2 0 = (0, false)
  /\ quartet_score 1 0 1 1 0 = (10, false).
Proof.
  destruct (quartet_score_cases 1) as (Hwin & _ & Hboth & Hone).
  split; [| split].
  - apply (Hwin 2). discriminate.
  - apply (Hboth 0 1 2 0); simpl; auto.
  - apply (Hone 1 0 1 1 0 2%nat).
    + left. reflexivity.
    + repeat (apply List.Forall_cons; [auto|]). apply List.Forall_nil.
    + reflexivity.
    + lia.
Defined.

(** ** Properties of the board score *)

Section BoardScore.

Variable ID : Z.

Lemma in_grid q cols rows line :
  In q (grid cols rows line)
  <-> exists i j, In i cols /\ In j rows /\ q = line i j.
Proof.
  unfold grid. rewrite in_flat_map. split.
  - intros (i & Hi & Hq). apply in_map_iff in Hq as (j & <- & Hj). eauto.
  - intros (i & j & Hi & Hj & ->). exists i. split; [done|].
    apply in_map_iff. eauto.
Qed.

Lemma in_vertical_lines q sh :
  In q (vertical_lines sh) <->
  exists i j, q = vertical_at i j /\ (i < fst sh)%nat /\ (j + 3 < snd sh)%nat.
Proof.
  unfold vertical_lines. destruct (Nat.ltb_spec 3 (snd sh)) as [HR | HR].
  - rewrite in_grid. split.
    + intros (i & j & Hi & Hj & ->). apply in_seq in Hi, Hj.
      exists i, j. repeat split; lia.
    + intros (i & j & -> & Hi & Hj).
      exists i, j. repeat split; apply in_seq; lia.
  - split; [contradiction | intros (i & j & _ & _ & Hj); lia].
Qed.

Lemma in_horizontal_lines q sh :
  In q (horizontal_lines sh) <->
  exists i j, q = horizontal_at i j /\ (i + 3 < fst sh)%nat /\ (j < snd sh)%nat.
Proof.
  unfold horizontal_lines. destruct (Nat.ltb_spec 3 (fst sh)) as [HC | HC].
  - rewrite in_grid. split.
    + intros (i & j & Hi & Hj & ->). apply in_seq in Hi, Hj.
      exists i, j. repeat split; lia.
    + intros (i & j & -> & Hi & Hj).
      exists i, j. repeat split; apply in_seq; lia.
  - split; [contradiction | intros (i & j & _ & Hi & _); lia].
Qed.

Lemma in_diagonal_lines q sh :
  In q (diagonal_lines sh) <->
  (exists i j, q = rising_at i j
               /\ (i + 3 < fst sh)%nat /\ (j + 3 < snd sh)%nat)
  \/ (exists i j, q = falling_at i j
                  /\ (3 <= i < fst sh)%nat /\ (j + 3 < snd sh)%nat).
Proof.
  unfold diagonal_lines.
  destruct (Nat.ltb_spec 3 (fst sh)) as [HC | HC],
           (Nat.ltb_spec 3 (snd sh)) as [HR | HR]; simpl.
  - rewrite in_app_iff, !in_grid. split.
    + intros [(i & j & Hi & Hj & ->) | (i & j & Hi & Hj & ->)];
        apply in_seq in Hi, Hj; [left | right];
        exists i, j; repeat split; lia.
    + intros [(i & j & -> & Hi & Hj) | (i & j & -> & Hi & Hj)];
        [left | right]; exists i, j; repeat split; apply in_seq; lia.
  - split; [contradiction|].
    intros [(i & j & _ & _ & Hj) | (i & j & _ & _ & Hj)]; lia.
  - split; [contradiction|].
    intros [(i & j & _ & Hi & _) | (i & j & _ & Hi & _)]; lia.
  - split; [contradiction|].
    intros [(i & j & _ & Hi & _) | (i & j & _ & Hi & _)]; lia.
Qed.

(** The enumerated quartets are the lines of four cells that lie on the
    board. *)
Lemma in_quartets q sh :
  In q (quartets sh) <->
  (exists i j, q = vertical_at i j /\ (i < fst sh)%nat /\ (j + 3 < snd sh)%nat)
  \/ (exists i j, q = horizontal_at i j
                  /\ (i + 3 < fst sh)%nat /\ (j < snd sh)%nat)
  \/ (exists i j, q = rising_at i j
                  /\ (i + 3 < fst sh)%nat /\ (j + 3 < snd sh)%nat)
  \/ (exists i j, q = falling_at i j
                  /\ (3 <= i < fst sh)%nat /\ (j + 3 < snd sh)%nat).
Proof.
  unfold quartets.
  rewrite !in_app_iff, in_vertical_lines, in_horizontal_lines,
    in_diagonal_lines.
  tauto.
Qed.

Lemma total_bound (results : list (Z * bool)) :
  Forall (fun t => -100 <= fst t <= 100) results ->
  - (100 * Z.of_nat (length results)) <= total results
    <= 100 * Z.of_nat (length results).
Proof.
  unfold total. induction 1 as [|t l Ht Hl IH]; simpl length; simpl; lia.
Qed.

Lemma evaluate_win results :
  snd (evaluate results) = true ->
  exists t, In t results /\ snd t = true /\ evaluate results = t.
Proof.
  unfold evaluate. destruct (find snd results) as [t|] eqn:Hfind; [|discriminate].
  intros _. apply find_some in Hfind as [Hin Ht]. eauto.
Qed.

Lemma evaluate_no_win results :
  snd (evaluate results) = false <-> Forall (fun t => snd t = false) results.
Proof.
  unfold evaluate. destruct (find snd results) as [t|] eqn:Hfind; simpl.
  - apply find_some in Hfind as [Hin Ht]. split; [congruence|].
    intros Hall. rewrite List.Forall_forall in Hall. apply Hall in Hin. congruence.
  - split; [|done]. intros _. apply List.Forall_forall. intros t Hin.
    apply (find_none _ _ Hfind) in Hin. by destruct (snd t).
Qed.

Lemma evaluate_first pre t post :
  Forall (fun t' => snd t' = false) pre -> snd t = true ->
  evaluate (pre ++ t :: post) = t.
Proof.
  intros Hpre Ht. unfold evaluate.
  assert (find snd (pre ++ t :: post) = Some t) as ->; [|done].
  induction Hpre as [|t' pre Ht' _ IH]; simpl.
  - by rewrite Ht.
  - by rewrite Ht'.
Qed.

Lemma quartet_at_range r q :
  if snd (quartet_at ID r q)
  then fst (quartet_at ID r q) = 1000000000
       \/ fst (quartet_at ID r q) = -1000000000
  else -100 <= fst (quartet_at ID r q) <= 100.
Proof. apply quartet_score_range. Qed.

(** A win found on the board scores plus or minus 1e9. *)
Lemma board_state_score_win r sh :
  snd (board_state_score ID r sh) = true ->
  fst (board_state_score ID r sh) = 1000000000
  \/ fst (board_state_score ID r sh) = -1000000000.
Proof.
  rewrite board_state_score_evaluate. intros Hwin.
  apply evaluate_win in Hwin as (t & Hin & Ht & ->).
  apply in_map_iff in Hin as (q & <- & _).
  pose proof (quartet_at_range r q) as Hrange.
  by rewrite Ht in Hrange.
Qed.

Lemma evaluate_total results :
  Forall (fun t => snd t = false) results ->
  evaluate results = (total results, false).
Proof.
  intros Hall. unfold evaluate.
  destruct (find snd results) as [t|] eqn:Hfind; [|done].
  apply find_some in Hfind as [Hin Ht].
  rewrite List.Forall_forall in Hall. apply Hall in Hin. congruence.
Qed.

(** Without a win the aggregate is at most 100 per quartet. *)
Lemma board_state_score_bound r sh :
  snd (board_state_score ID r sh) = false ->
  - (100 * Z.of_nat (length (quartets sh)))
    <= fst (board_state_score ID r sh)
    <= 100 * Z.of_nat (length (quartets sh)).
Proof.
  rewrite board_state_score_evaluate. intros Hno.
  apply evaluate_no_win in Hno.
  rewrite (evaluate_total _ Hno). simpl.
  rewrite <- (length_map (quartet_at ID r)).
  apply total_bound.
  apply List.Forall_forall. intros t Hin.
  rewrite List.Forall_forall in Hno. specialize (Hno t Hin).
  apply in_map_iff in Hin as (q & <- & _).
  pose proof (quartet_at_range r q) as Hrange.
  by rewrite Hno in Hrange.
Qed.

End BoardScore.

(** C7.  [_board_state_score] goes through the vertical, horizontal, rising
    and falling lines of four cells that fit on the board (a direction the
    board cannot span has none).  When a quartet wins and none before it in
    the enumeration does, the result is that quartet's pair; when no quartet
    wins, the result is the sum of all the quartet scores and no win. *)
Theorem board_state_score_first_win_or_sum (ID : Z) (r : rack) (sh : shape) :
  (forall q, In q (quartets sh) <->
     (exists i j, q = vertical_at i j
                  /\ (i < fst sh)%nat /\ (j + 3 < snd sh)%nat)
     \/ (exists i j, q = horizontal_at i j
                     /\ (i + 3 < fst sh)%nat /\ (j < snd sh)%nat)
     \/ (exists i j, q = rising_at i j
                     /\ (i + 3 < fst sh)%nat /\ (j + 3 < snd sh)%nat)
     \/ (exists i j, q = falling_at i j
                     /\ (3 <= i < fst sh)%nat /\ (j + 3 < snd sh)%nat))
  /\ (forall pre q post,
        quartets sh = pre ++ q :: post ->
        Forall (fun q' => snd (quartet_at ID r q') = false) pre ->
        snd (quartet_at ID r q) = true ->
        board_state_score ID r sh = quartet_at ID r q)
  /\ (Forall (fun q => snd (quartet_at ID r q) = false) (quartets sh) ->
      board_state_score ID r sh
      = (total (map (quartet_at ID r) (quartets sh)), false)).
Proof.
  split; [| split].
  - intros q. apply in_quartets.
  - intros pre q post Hsplit Hpre Hwin.
    rewrite board_state_score_evaluate, Hsplit, map_app. simpl.
    apply evaluate_first; [|exact Hwin].
    apply List.Forall_forall. intros t Hin.
    apply in_map_iff in Hin as (q' & <- & Hq').
    rewrite List.Forall_forall in Hpre. by apply Hpre.
  - intros Hall. rewrite board_state_score_evaluate.
    apply evaluate_total.
    apply List.Forall_forall. intros t Hin.
    apply in_map_iff in Hin as (q & <- & Hq).
    rewrite List.Forall_forall in Hall. by apply Hall.
Qed.

Lemma board_state_score_first_win_or_sum_witness :
  board_state_score 1 [[2; 0]; [2; 0]; [2; 0]; [2; 0]; [1; 0]] (5, 2)%nat
  = (-1000000000, true)
  /\ board_state_score 1 [[2; 0]; [1; 0]; [1; 0]; [0; 0]; [1; 0]] (5, 2)%nat
     = (100, false).
Proof.
  split.
  - destruct (board_state_score_first_win_or_sum 1
      [[2; 0]; [2; 0]; [2; 0]; [2; 0]; [1; 0]] (5, 2)%nat) as (_ & Hwin & _).
    apply (Hwin [] (horizontal_at 0 0)
             [horizontal_at 0 1; horizontal_at 1 0; horizontal_at 1 1]).
    + reflexivity.
    + apply List.Forall_nil.
    + reflexivity.
  - destruct (board_state_score_first_win_or_sum 1
      [[2; 0]; [1; 0]; [1; 0]; [0; 0]; [1; 0]] (5, 2)%nat) as (_ & _ & Hsum).
    apply Hsum.
    repeat (apply List.Forall_cons; [reflexivity|]). apply List.Forall_nil.
Defined.

(** ** Empty cells and moves *)

Section Measure.

Implicit Types (r : rack) (column : list Z) (sh : shape).

Lemma discs_of_cons p d column :
  discs_of p (d :: column)
  = ((if (d =? p)%Z then 1 else 0) + discs_of p column)%nat.
Proof. reflexivity. Qed.

Lemma discs_of_fill column k player :
  column !! k = Some 0 -> player <> 0 ->
  S (discs_of 0 (<[k := player]> column)) = discs_of 0 column.
Proof.
  revert k. induction column as [|d column IH]; intros k Hk Hp; [done|].
  destruct k as [|k]; simpl in *.
  - injection Hk as ->. rewrite !discs_of_cons.
    destruct (Z.eqb_spec player 0); [contradiction | reflexivity].
  - rewrite !discs_of_cons, <- (IH k Hk Hp). lia.
Qed.

Lemma empties_cons column r :
  empties (column :: r) = (discs_of 0 column + empties r)%nat.
Proof. reflexivity. Qed.

Lemma empties_fill r col k player :
  (r !! col ≫= fun column => column !! k) = Some 0 -> player <> 0 ->
  S (empties (set_cell r col k player)) = empties r.
Proof.
  unfold set_cell. revert col.
  induction r as [|column r IH]; intros col Hk Hp; [done|].
  destruct col as [|col]; simpl in Hk.
  - change (alter _ 0%nat (column :: r)) with (<[k := player]> column :: r).
    rewrite !empties_cons, <- (discs_of_fill column k player Hk Hp). lia.
  - change (alter ?f (S col) (column :: r)) with (column :: alter f col r).
    rewrite !empties_cons, <- (IH col Hk Hp). lia.
Qed.

Lemma cell_lookup_Some sh r col k :
  rect sh r -> (col < fst sh)%nat -> (k < snd sh)%nat ->
  (r !! col ≫= fun column => column !! k) = Some (cell r col k).
Proof.
  intros Hrect Hc Hk. rewrite cell_lookup.
  destruct (rect_lookup sh r col Hrect Hc) as [column Hcol].
  rewrite Hcol. simpl.
  destruct (lookup_lt_is_Some_2 column k) as [d Hd]; [|by rewrite Hd].
  rewrite (rect_column sh r col column Hrect Hcol). lia.
Qed.

(** A successful move on a valid rack: the new rack is valid, has one
    empty cell less, and reverting the move gives the old rack back. *)
Lemma make_move_valid sh r col player r1 :
  valid sh r -> (col < fst sh)%nat -> (0 < snd sh)%nat -> player <> 0 ->
  make_move r col sh player = (true, r1) ->
  valid sh r1 /\ S (empties r1) = empties r
  /\ unmake_move r1 col sh = (true, r)
  /\ cell r col (snd sh - 1) = 0
  /\ exists k, (k < snd sh)%nat /\ cell r col k = 0
               /\ (forall j, (j < k)%nat -> cell r col j <> 0)
               /\ r1 = set_cell r col k player.
Proof.
  intros [Hrect Hgrav] Hc HR Hp Hmake.
  destruct (Z.eq_dec (cell r col (snd sh - 1)) 0) as [Htop | Htop];
    [| rewrite make_move_closed in Hmake by exact Htop; discriminate].
  destruct (make_move_open r col sh player HR Htop)
    as (k & Hk & Hz & Hlow & Hmake').
  rewrite Hmake' in Hmake. injection Hmake as <-.
  pose proof (proj1 (gravity_spec r) Hgrav) as Hg.
  split; [split|]; [| | split; [| split; [| split]]].
  - by apply rect_set_cell.
  - apply gravity_spec. intros col'.
    by apply (gravity_at_placed r col sh player k col').
  - apply empties_fill; [|exact Hp].
    rewrite (cell_lookup_Some sh); auto. by rewrite Hz.
  - by apply unmake_move_placed.
  - exact Htop.
  - exists k. auto.
Qed.

Lemma rack_full_false r sh :
  rack_full r sh = false <->
  exists col, (col < fst sh)%nat /\ cell r col (snd sh - 1) = 0.
Proof.
  unfold rack_full. rewrite <- not_true_iff_false, forallb_forall. split.
  - intros Hnot.
    destruct (existsb (fun i => cell r i (snd sh - 1) =? 0) (seq 0 (fst sh)))
      eqn:Hex.
    + apply existsb_exists in Hex as (col & Hin & Hz).
      apply in_seq in Hin. apply Z.eqb_eq in Hz. exists col. split; [lia | done].
    + exfalso. apply Hnot. intros col Hin.
      rewrite <- not_true_iff_false, existsb_exists in Hex.
      destruct (Z.eqb_spec (cell r col (snd sh - 1)) 0) as [Hz|]; [|done].
      exfalso. apply Hex. exists col. split; [done | by apply Z.eqb_eq].
  - intros (col & Hc & Hz) Hall.
    specialize (Hall col). rewrite Hz in Hall. simpl in Hall.
    assert (In col (seq 0 (fst sh))) as Hin by (apply in_seq; lia).
    apply Hall in Hin. discriminate.
Qed.

Lemma rack_full_true r sh :
  rack_full r sh = true <->
  forall col, (col < fst sh)%nat -> cell r col (snd sh - 1) <> 0.
Proof.
  unfold rack_full. rewrite forallb_forall. split.
  - intros Hall col Hc.
    assert (In col (seq 0 (fst sh))) as Hin by (apply in_seq; lia).
    apply Hall in Hin. by destruct (Z.eqb_spec (cell r col (snd sh - 1)) 0).
  - intros Hall col Hin. apply in_seq in Hin.
    destruct (Z.eqb_spec (cell r col (snd sh - 1)) 0) as [Hz|]; [|done].
    exfalso. apply (Hall col); [lia | done].
Qed.

End Measure.

(** ** Running maximum and minimum of the scores *)

Section Extrema.

Local Open Scope Q_scope.

Lemma Qltb_lt x y : Qltb x y = true <-> x < y.
Proof.
  unfold Qltb. rewrite Qlt_alt. destruct (x ?= y); split; congruence.
Qed.

Lemma Qltb_ge x y : Qltb x y = false <-> y <= x.
Proof.
  rewrite <- not_true_iff_false, Qltb_lt. split.
  - apply Qnot_lt_le.
  - intros Hle Hlt. exact (Qlt_not_le _ _ Hlt Hle).
Qed.

Lemma raise_cases h s :
  (h < s /\ raise h s = s) \/ (s <= h /\ raise h s = h).
Proof.
  unfold raise. destruct (Qltb h s) eqn:Hlt.
  - left. by apply Qltb_lt in Hlt.
  - right. by apply Qltb_ge in Hlt.
Qed.

Lemma lower_cases l s :
  (s < l /\ lower l s = s) \/ (l <= s /\ lower l s = l).
Proof.
  unfold lower. destruct (Qltb s l) eqn:Hlt.
  - left. by apply Qltb_lt in Hlt.
  - right. by apply Qltb_ge in Hlt.
Qed.

Lemma fold_raise_init scores h : h <= fold_left raise scores h.
Proof.
  revert h. induction scores as [|s scores IH]; intros h; simpl.
  - apply Qle_refl.
  - eapply Qle_trans; [|apply IH].
    destruct (raise_cases h s) as [[Hlt ->] | [Hle ->]];
      [by apply Qlt_le_weak | apply Qle_refl].
Qed.

Lemma fold_raise_upper scores h s :
  In s scores -> s <= fold_left raise scores h.
Proof.
  revert h. induction scores as [|s' scores IH]; intros h Hin; [done|].
  simpl. destruct Hin as [-> | Hin]; [|by apply IH].
  eapply Qle_trans; [|apply fold_raise_init].
  destruct (raise_cases h s) as [[Hlt ->] | [Hle ->]];
    [apply Qle_refl | done].
Qed.

Lemma fold_raise_in scores h :
  fold_left raise scores h = h \/ In (fold_left raise scores h) scores.
Proof.
  revert h. induction scores as [|s scores IH]; intros h; simpl; [by left|].
  destruct (IH (raise h s)) as [-> | Hin]; [|by right; right].
  destruct (raise_cases h s) as [[_ ->] | [_ ->]]; [right; by left | by left].
Qed.

Lemma fold_lower_init scores l : fold_left lower scores l <= l.
Proof.
  revert l. induction scores as [|s scores IH]; intros l; simpl.
  - apply Qle_refl.
  - eapply Qle_trans; [apply IH|].
    destruct (lower_cases l s) as [[Hlt ->] | [Hle ->]];
      [by apply Qlt_le_weak | apply Qle_refl].
Qed.

Lemma fold_lower_lower scores l s :
  In s scores -> fold_left lower scores l <= s.
Proof.
  revert l. induction scores as [|s' scores IH]; intros l Hin; [done|].
  simpl. destruct Hin as [-> | Hin]; [|by apply IH].
  eapply Qle_trans; [apply fold_lower_init|].
  destruct (lower_cases l s) as [[Hlt ->] | [Hle ->]];
    [apply Qle_refl | done].
Qed.

Lemma fold_lower_in scores l :
  fold_left lower scores l = l \/ In (fold_left lower scores l) scores.
Proof.
  revert l. induction scores as [|s scores IH]; intros l; simpl; [by left|].
  destruct (IH (lower l s)) as [-> | Hin]; [|by right; right].
  destruct (lower_cases l s) as [[_ ->] | [_ ->]]; [right; by left | by left].
Qed.

(** With a score above the initial value the maximum is one of the
    scores. *)
Lemma fold_raise_attained scores h s :
  In s scores -> h < s -> In (fold_left raise scores h) scores.
Proof.
  intros Hin Hlt.
  destruct (fold_raise_in scores h) as [Heq | Hin']; [|done].
  exfalso. pose proof (fold_raise_upper scores h s Hin) as Hle.
  rewrite Heq in Hle. exact (Qlt_not_le _ _ Hlt Hle).
Qed.

Lemma fold_lower_attained scores l s :
  In s scores -> s < l -> In (fold_left lower scores l) scores.
Proof.
  intros Hin Hlt.
  destruct (fold_lower_in scores l) as [Heq | Hin']; [|done].
  exfalso. pose proof (fold_lower_lower scores l s Hin) as Hle.
  rewrite Heq in Hle. exact (Qlt_not_le _ _ Hlt Hle).
Qed.

End Extrema.

(** ** The children of a search node *)

Section Children.

Variable rec : rack -> option (Q * rack).
Variable sh : shape.
Variable player : Z.

Hypothesis rows : (0 < snd sh)%nat.
Hypothesis disc : player <> 0.

Lemma children_cons r i cols :
  children rec sh player r (i :: cols)
  = match child rec sh player r i with
    | Some v => v :: children rec sh player r cols
    | None => children rec sh player r cols
    end.
Proof. reflexivity. Qed.

(** A refused move leaves the rack alone. *)
Lemma make_move_refused r i r1 :
  make_move r i sh player = (false, r1) ->
  r1 = r /\ cell r i (snd sh - 1) <> 0.
Proof.
  intros Hmake.
  destruct (Z.eq_dec (cell r i (snd sh - 1)) 0) as [Htop | Htop].
  - destruct (make_move_open r i sh player rows Htop) as (k & _ & _ & _ & Hm).
    congruence.
  - rewrite make_move_closed in Hmake by done. split; congruence.
Qed.

Lemma minimax_columns_children r :
  valid sh r ->
  (forall i r1, (i < fst sh)%nat -> make_move r i sh player = (true, r1) ->
                exists v, rec r1 = Some (v, r1)) ->
  forall n i high low, (i + n <= fst sh)%nat ->
    minimax_columns rec sh player i n r high low
    = Some (fold_left raise (children rec sh player r (seq i n)) high,
            fold_left lower (children rec sh player r (seq i n)) low, r).
Proof.
  intros Hvalid Hrec. induction n as [|n IH]; intros i high low Hn; [done|].
  change (seq i (S n)) with (i :: seq (S i) n). rewrite children_cons.
  cbn [minimax_columns]. unfold child.
  destruct (make_move r i sh player) as [[|] r1] eqn:Hmake.
  - destruct (Hrec i r1 ltac:(lia) Hmake) as [v Hv]. rewrite Hv.
    destruct (make_move_valid sh r i player r1 Hvalid ltac:(lia) rows disc Hmake)
      as (_ & _ & -> & _).
    cbn [option_map fst snd fold_left].
    rewrite <- (IH (S i) (raise high v) (lower low v)) by lia. reflexivity.
  - apply make_move_refused in Hmake as [-> _].
    rewrite <- (IH (S i) high low) by lia. reflexivity.
Qed.

Lemma in_children r cols v :
  In v (children rec sh player r cols) <->
  exists i, In i cols /\ child rec sh player r i = Some v.
Proof.
  unfold children. rewrite <- list_elem_of_In, list_elem_of_omap.
  by setoid_rewrite list_elem_of_In.
Qed.

End Children.

(** ** The search on valid racks *)

Section Search.

Variable ID : Z.
Variable MAX_PLIES : Z.
Variable sh : shape.

Hypothesis rows : (0 < snd sh)%nat.
Hypothesis engine : ID <> 0.

Lemma mover_disc ply : mover ID ply <> 0.
Proof.
  unfold mover. destruct (_ =? 1); [|done]. by destruct (ID =? 1).
Qed.

(** The node at an odd ply takes the minimum, at an even ply the
    maximum. *)
Lemma mover_role ply :
  negb (ID =? mover ID ply) = (Z.pos ply mod 2 =? 1).
Proof.
  unfold mover. destruct (_ =? 1).
  - destruct (Z.eqb_spec ID 1) as [-> | Hne]; [done|].
    by destruct (Z.eqb_spec ID 1).
  - by rewrite Z.eqb_refl.
Qed.

Lemma minimax_step fuel r ply :
  minimax ID MAX_PLIES (S fuel) r sh ply =
  let score := board_state_score ID r sh in
  if snd score then Some (fst score # ply, r)%Q
  else if rack_full r sh then Some (0%Q, r)
  else if Z.pos ply =? MAX_PLIES then
    let score := board_state_score ID r sh in
    if snd score then Some (fst score # ply, r)%Q
    else Some (inject_Z (fst score), r)
  else
    match
      minimax_columns (deeper ID MAX_PLIES sh fuel ply) sh (mover ID ply) 0 (fst sh) r
        (inject_Z (-10000000000)) (inject_Z 10000000000)
    with
    | None => None
    | Some (high_score, low_score, r') =>
        if negb (ID =? mover ID ply) then Some (low_score, r')
        else Some (high_score, r')
    end.
Proof. reflexivity. Qed.

Lemma child_Some rec player r i v :
  child rec sh player r i = Some v <->
  exists r1 r', make_move r i sh player = (true, r1) /\ rec r1 = Some (v, r').
Proof.
  unfold child. destruct (make_move r i sh player) as [[|] r1]; simpl.
  - destruct (rec r1) as [[v' r']|] eqn:Hrec; simpl; split.
    + intros [= ->]. eauto.
    + intros (r1' & r'' & Hm & Hr). congruence.
    + discriminate.
    + intros (r1' & r'' & Hm & Hr). congruence.
  - split; [discriminate | intros (r1' & r'' & Hm & _); congruence].
Qed.

(** On a valid rack the search returns as soon as the budget exceeds the
    number of empty cells, and it leaves the rack as it found it. *)
Lemma minimax_total fuel :
  forall r ply, valid sh r -> (empties r < fuel)%nat ->
    exists v, minimax ID MAX_PLIES fuel r sh ply = Some (v, r).
Proof.
  induction fuel as [|fuel IH]; intros r ply Hvalid Hfuel; [lia|].
  rewrite minimax_step. cbv zeta.
  destruct (snd (board_state_score ID r sh)); [eauto|].
  destruct (rack_full r sh); [eauto|].
  destruct (Z.pos ply =? MAX_PLIES); [eauto|].
  rewrite (minimax_columns_children _ sh _ rows (mover_disc ply) r Hvalid);
    [| | lia].
  - destruct (negb (ID =? mover ID ply)); eauto.
  - intros i r1 Hi Hmake.
    destruct (make_move_valid sh r i _ r1 Hvalid Hi rows (mover_disc ply) Hmake)
      as (Hvalid1 & Hless & _).
    apply IH; [done | lia].
Qed.

Section Range.

Variable M : Z.
Variable p0 : positive.
Hypothesis heuristic_small : score_bound sh <= M.
Hypothesis win_small : 1000000000 <= M * Z.pos p0.
Hypothesis below_sentinel : M < 10000000000.

Local Open Scope Q_scope.

Lemma sentinel_low v : in_range M v -> inject_Z (-10000000000) < v.
Proof using below_sentinel.
  intros [Hlo _]. eapply Qlt_le_trans; [|exact Hlo].
  rewrite <- Zlt_Qlt. clear -below_sentinel. lia.
Qed.

Lemma sentinel_high v : in_range M v -> v < inject_Z 10000000000.
Proof using below_sentinel.
  intros [_ Hhi]. eapply Qle_lt_trans; [exact Hhi|].
  rewrite <- Zlt_Qlt. clear -below_sentinel. lia.
Qed.

(** On a valid rack the search returns, leaves the rack as it found it,
    and its value stays within [M] from ply [p0] on. *)
Lemma minimax_sound fuel :
  forall r ply, valid sh r -> (empties r < fuel)%nat ->
    (p0 <= ply)%positive ->
    exists v, minimax ID MAX_PLIES fuel r sh ply = Some (v, r)
              /\ in_range M v.
Proof.
  induction fuel as [|fuel IH]; intros r ply Hvalid Hfuel Hply; [lia|].
  rewrite minimax_step. cbv zeta.
  destruct (snd (board_state_score ID r sh)) eqn:Hwin.
  { eexists. split; [reflexivity|].
    unfold in_range, Qle. simpl.
    destruct (board_state_score_win ID r sh Hwin) as [-> | ->]; nia. }
  destruct (rack_full r sh) eqn:Hfull.
  { eexists. split; [reflexivity|].
    unfold in_range, Qle. simpl. nia. }
  destruct (Z.pos ply =? MAX_PLIES).
  { eexists. split; [reflexivity|].
    pose proof (board_state_score_bound ID r sh Hwin) as Hb.
    unfold score_bound in heuristic_small.
    unfold in_range. rewrite <- !Zle_Qle. lia. }
  assert (Hrec : forall i r1, (i < fst sh)%nat ->
            make_move r i sh (mover ID ply) = (true, r1) ->
            exists v, deeper ID MAX_PLIES sh fuel ply r1 = Some (v, r1) /\ in_range M v).
  { intros i r1 Hi Hmake.
    destruct (make_move_valid sh r i _ r1 Hvalid Hi rows (mover_disc ply) Hmake)
      as (Hvalid1 & Hless & _).
    apply IH; [done | lia | lia]. }
  rewrite (minimax_columns_children _ sh _ rows (mover_disc ply) r Hvalid);
    [| | lia].
  2:{ intros i r1 Hi Hmake.
      destruct (Hrec i r1 Hi Hmake) as (v & Hv & _). eauto. }
  set (scores := children (deeper ID MAX_PLIES sh fuel ply) sh (mover ID ply) r (seq 0 (fst sh))).
  assert (Hall : forall v, In v scores -> in_range M v).
  { intros v Hin. apply in_children in Hin as (i & Hi & Hchild).
    apply child_Some in Hchild as (r1 & r' & Hmake & Hv).
    apply in_seq in Hi.
    destruct (Hrec i r1 ltac:(lia) Hmake) as (v' & Hv' & Hr). congruence. }
  assert (Hsome : exists v, In v scores).
  { apply rack_full_false in Hfull as (col & Hcol & Htop).
    destruct (make_move_open r col sh (mover ID ply) rows Htop)
      as (k & _ & _ & _ & Hmake).
    destruct (Hrec col _ Hcol Hmake) as (v & Hv & _).
    exists v. apply in_children. exists col. split; [apply in_seq; lia|].
    apply child_Some. eauto. }
  destruct Hsome as [v0 Hv0].
  destruct (negb (ID =? mover ID ply)); eexists; (split; [reflexivity|]);
    apply Hall.
  - apply (fold_lower_attained scores _ v0 Hv0).
    apply sentinel_high. by apply Hall.
  - apply (fold_raise_attained scores _ v0 Hv0).
    apply sentinel_low. by apply Hall.
Qed.

End Range.

End Search.

(** ** The root of the search *)

Section Choice.

Local Open Scope Q_scope.

Variable score : nat -> option Q.

Lemma scored_cons i cols :
  scored score (i :: cols)
  = match score i with
    | Some v => (i, v) :: scored score cols
    | None => scored score cols
    end.
Proof. unfold scored. simpl. by destruct (score i). Qed.

(** The column kept by the loop is the first one whose score is the
    greatest, unless no score exceeds the initial one. *)
Lemma fold_choose n :
  forall i b h b' h',
    fold_left choose (scored score (seq i n)) (b, h) = (b', h') ->
    h <= h'
    /\ (forall j s, (i <= j < i + n)%nat -> score j = Some s -> s <= h')
    /\ ((b' = b /\ h' = h)
        \/ ((i <= b' < i + n)%nat /\ score b' = Some h' /\ h < h'
            /\ forall j s, (i <= j < b')%nat -> score j = Some s -> s < h')).
Proof.
  induction n as [|n IH]; intros i b h b' h' Hfold.
  - simpl in Hfold. injection Hfold as <- <-.
    split; [apply Qle_refl|]. split; [intros j s Hj; lia | by left].
  - change (seq i (S n)) with (i :: seq (S i) n) in Hfold.
    rewrite scored_cons in Hfold.
    destruct (score i) as [v|] eqn:Hi.
    + simpl in Hfold. unfold choose at 2 in Hfold. simpl in Hfold.
      destruct (Qltb h v) eqn:Hlt.
      * apply Qltb_lt in Hlt.
        apply IH in Hfold as (Hle & Hall & Hcase).
        split; [eapply Qle_trans; [apply Qlt_le_weak, Hlt | exact Hle]|].
        split.
        { intros j s Hj Hs. destruct (Nat.eq_dec j i) as [-> | Hne].
          - rewrite Hi in Hs. injection Hs as <-. exact Hle.
          - apply (Hall j); [lia | done]. }
        right. destruct Hcase as [[-> ->] | (Hb & Hsb & Hvh & Hbefore)].
        { split; [lia|]. split; [done|]. split; [done|].
          intros j s Hj. lia. }
        split; [lia|]. split; [done|].
        split; [eapply Qlt_trans; [exact Hlt | exact Hvh]|].
        intros j s Hj Hs. destruct (Nat.eq_dec j i) as [-> | Hne].
        { rewrite Hi in Hs. by injection Hs as <-. }
        apply (Hbefore j); [lia | done].
      * apply Qltb_ge in Hlt.
        apply IH in Hfold as (Hle & Hall & Hcase).
        split; [done|]. split.
        { intros j s Hj Hs. destruct (Nat.eq_dec j i) as [-> | Hne].
          - rewrite Hi in Hs. injection Hs as <-.
            eapply Qle_trans; [exact Hlt | exact Hle].
          - apply (Hall j); [lia | done]. }
        destruct Hcase as [[-> ->] | (Hb & Hsb & Hvh & Hbefore)]; [by left|].
        right. split; [lia|]. split; [done|]. split; [done|].
        intros j s Hj Hs. destruct (Nat.eq_dec j i) as [-> | Hne].
        { rewrite Hi in Hs. injection Hs as <-.
          eapply Qle_lt_trans; [exact Hlt | exact Hvh]. }
        apply (Hbefore j); [lia | done].
    + apply IH in Hfold as (Hle & Hall & Hcase).
      split; [done|]. split.
      { intros j s Hj Hs. destruct (Nat.eq_dec j i) as [-> | Hne];
          [congruence | apply (Hall j); [lia | done]]. }
      destruct Hcase as [[-> ->] | (Hb & Hsb & Hvh & Hbefore)]; [by left|].
      right. split; [lia|]. split; [done|]. split; [done|].
      intros j s Hj Hs. destruct (Nat.eq_dec j i) as [-> | Hne];
        [congruence | apply (Hbefore j); [lia | done]].
Qed.

End Choice.

Section Root.

Variable ID : Z.
Variable MAX_PLIES : Z.
Variable sh : shape.

Hypothesis rows : (0 < snd sh)%nat.
Hypothesis engine : ID <> 0.

Lemma pick_move_columns_scored fuel r :
  valid sh r ->
  (forall i r1, (i < fst sh)%nat -> make_move r i sh ID = (true, r1) ->
                exists v, minimax ID MAX_PLIES fuel r1 sh 1 = Some (v, r1)) ->
  forall n i best high, (i + n <= fst sh)%nat ->
    pick_move_columns ID MAX_PLIES fuel sh i n r best high
    = Some (fst (fold_left choose (scored (root_score ID MAX_PLIES sh fuel r) (seq i n))
                           (best, high)), r).
Proof.
  intros Hvalid Hrec. induction n as [|n IH]; intros i best high Hn; [done|].
  change (seq i (S n)) with (i :: seq (S i) n). rewrite scored_cons.
  cbn [pick_move_columns]. unfold root_score at 1, child.
  destruct (make_move r i sh ID) as [[|] r1] eqn:Hmake.
  - destruct (Hrec i r1 ltac:(lia) Hmake) as [v Hv]. rewrite Hv.
    destruct (make_move_valid sh r i ID r1 Hvalid ltac:(lia) rows engine Hmake)
      as (_ & _ & -> & _).
    cbn [option_map fst snd fold_left]. unfold choose at 2. cbn [fst snd].
    destruct (Qltb high v); apply IH; lia.
  - apply (make_move_refused sh ID rows) in Hmake as [-> _].
    apply IH. lia.
Qed.

End Root.

(** ** [pick_move] on a valid rack *)

Section PickMove.

Variable ID : Z.
Variable MAX_PLIES : Z.
Variable sh : shape.

Hypothesis rows : (0 < snd sh)%nat.
Hypothesis engine : ID <> 0.

Local Open Scope Q_scope.

Lemma root_score_Some fuel r j s :
  root_score ID MAX_PLIES sh fuel r j = Some s ->
  valid sh r -> (j < fst sh)%nat ->
  cell r j (snd sh - 1) = 0%Z
  /\ exists r1, make_move r j sh ID = (true, r1) /\ valid sh r1
                /\ S (empties r1) = empties r
                /\ exists r', minimax ID MAX_PLIES fuel r1 sh 1 = Some (s, r').
Proof.
  intros Hs Hvalid Hj. apply (child_Some sh) in Hs as (r1 & r' & Hmake & Hv).
  destruct (make_move_valid sh r j ID r1 Hvalid Hj rows engine Hmake)
    as (Hvalid1 & Hless & _ & Htop & _).
  split; [done|]. exists r1. eauto 6.
Qed.

Lemma root_score_open fuel r j :
  valid sh r -> (j < fst sh)%nat -> (empties r <= fuel)%nat ->
  cell r j (snd sh - 1) = 0%Z ->
  exists s, root_score ID MAX_PLIES sh fuel r j = Some s.
Proof.
  intros Hvalid Hj Hfuel Htop.
  destruct (make_move_open r j sh ID rows Htop) as (k & _ & _ & _ & Hmake).
  destruct (make_move_valid sh r j ID _ Hvalid Hj rows engine Hmake)
    as (Hvalid1 & Hless & _).
  destruct (minimax_total ID MAX_PLIES sh rows engine fuel _ 1 Hvalid1)
    as [s Hs]; [lia|].
  exists s. apply (child_Some sh). eauto.
Qed.

(** The loop of [pick_move] applies [choose] to the scored columns from
    left to right and leaves the working array as it found it. *)
Lemma pick_move_on_fold fuel r :
  valid sh r -> (empties r <= fuel)%nat ->
  pick_move_on ID MAX_PLIES fuel r sh
  = if rack_full r sh then Some (None, r)
    else Some (Some (fst (fold_left choose
                            (scored (root_score ID MAX_PLIES sh fuel r)
                                    (seq 0 (fst sh)))
                            (0%nat, inject_Z (-10000000000)))), r).
Proof.
  intros Hvalid Hfuel. unfold pick_move_on.
  destruct (rack_full r sh); [done|].
  rewrite (pick_move_columns_scored ID MAX_PLIES sh rows engine fuel r Hvalid);
    [done | | lia].
  intros i r1 Hi Hmake.
  destruct (make_move_valid sh r i ID r1 Hvalid Hi rows engine Hmake)
    as (Hvalid1 & Hless & _).
  apply (minimax_total ID MAX_PLIES sh rows engine); [done | lia].
Qed.

(** On a board small enough for the sentinel to lie below every score,
    the column returned is the leftmost one with the greatest score. *)
Lemma pick_move_on_best fuel r :
  valid sh r -> (empties r <= fuel)%nat ->
  (score_bound sh < 10000000000)%Z ->
  rack_full r sh = false ->
  exists c s,
    pick_move_on ID MAX_PLIES fuel r sh = Some (Some c, r)
    /\ (c < fst sh)%nat
    /\ root_score ID MAX_PLIES sh fuel r c = Some s
    /\ (forall j s', (j < fst sh)%nat ->
          root_score ID MAX_PLIES sh fuel r j = Some s' -> s' <= s)
    /\ (forall j s', (j < c)%nat ->
          root_score ID MAX_PLIES sh fuel r j = Some s' -> s' < s).
Proof.
  intros Hvalid Hfuel Hsmall Hfull.
  rewrite (pick_move_on_fold fuel r Hvalid Hfuel), Hfull.
  destruct (fold_left choose _ _) as [c s] eqn:Hfold.
  apply fold_choose in Hfold as (_ & Hall & Hcase).
  destruct Hcase as [[-> ->] | (Hc & Hs & _ & Hbefore)].
  - exfalso.
    apply rack_full_false in Hfull as (col & Hcol & Htop).
    destruct (root_score_open fuel r col Hvalid Hcol Hfuel Htop) as [v Hv].
    pose proof (Hall col v ltac:(lia) Hv) as Hle.
    apply root_score_Some in Hv as (_ & r1 & _ & Hvalid1 & Hless & r' & Hv);
      [| done | done].
    destruct (minimax_sound ID MAX_PLIES sh rows engine
                (Z.max 1000000000 (score_bound sh)) 1
                ltac:(lia) ltac:(lia) ltac:(lia) fuel r1 1%positive Hvalid1
                ltac:(lia) ltac:(lia)) as (v' & Hv' & Hrange).
    rewrite Hv in Hv'. injection Hv' as <-.
    assert (Z.max 1000000000 (score_bound sh) < 10000000000)%Z as Hmax by lia.
    apply (Qlt_not_le _ _ (sentinel_low _ Hmax v Hrange) Hle).
  - exists c, s. simpl.
    split; [done|]. split; [lia|]. split; [done|].
    split; intros j s' Hj Hs'.
    + apply (Hall j); [lia | done].
    + apply (Hbefore j); [lia | done].
Qed.

End PickMove.

(** ** The store around [pick_move] *)

Section Store.

Variable ID : Z.
Variable MAX_PLIES : Z.

Lemma np_full_column (column : list Z) n :
  length column = n ->
  map (fun j => nth j column 0%Z) (seq 0 n) = column.
Proof.
  intros Hlen. apply (nth_ext _ _ 0%Z 0%Z).
  - by rewrite length_map, length_seq.
  - intros k Hk. rewrite length_map, length_seq in Hk.
    rewrite (nth_indep _ 0%Z (nth 0%nat column 0%Z))
      by (rewrite length_map, length_seq; lia).
    change (nth 0%nat column 0%Z) with ((fun j => nth j column 0%Z) 0%nat).
    rewrite map_nth, seq_nth by lia. reflexivity.
Qed.

(** The copy taken by [np.full] holds the cells of the rack. *)
Lemma np_full_rect sh (r : rack) : rect sh r -> np_full sh r = r.
Proof.
  intros [Hlen Hcols]. unfold np_full, cell.
  apply (nth_ext _ _ [] []).
  - by rewrite length_map, length_seq.
  - intros k Hk. rewrite length_map, length_seq in Hk.
    rewrite (nth_indep _ [] ((fun i => map (fun j => nth j (nth i r []) 0%Z)
                                          (seq 0 (snd sh))) 0%nat))
      by (rewrite length_map, length_seq; lia).
    rewrite (map_nth (fun i => map (fun j => nth j (nth i r []) 0%Z)
                                   (seq 0 (snd sh)))).
    rewrite seq_nth by lia. simpl.
    apply np_full_column.
    rewrite List.Forall_forall in Hcols. apply Hcols, nth_In. lia.
Qed.

Lemma rect_shape sh (r : rack) :
  rect sh r -> (0 < fst sh)%nat ->
  (length r, length (nth 0 r [])) = sh.
Proof.
  intros [Hlen Hcols] HC. destruct sh as [C R]. simpl in *. f_equal; [done|].
  rewrite List.Forall_forall in Hcols. apply Hcols, nth_In. lia.
Qed.

Lemma fresh_loc_other (st : gmap positive rack) ref (r : rack) :
  st !! ref = Some r -> fresh_loc st <> ref.
Proof.
  intros Href Heq. unfold fresh_loc in Heq.
  pose proof (is_fresh (dom st)) as Hfresh. rewrite Heq in Hfresh.
  apply Hfresh. apply elem_of_dom. eauto.
Qed.

(** [pick_move] runs [pick_move_on] on a copy held at a new address. *)
Lemma pick_move_store fuel (st : gmap positive rack) ref (r : rack) sh :
  st !! ref = Some r -> rect sh r -> (0 < fst sh)%nat ->
  pick_move ID MAX_PLIES fuel st ref
  = match pick_move_on ID MAX_PLIES fuel r sh with
    | None => None
    | Some (result, numpy_rack') =>
        Some (result, <[fresh_loc st := numpy_rack']> st)
    end.
Proof.
  intros Href Hrect HC. unfold pick_move. rewrite Href. simpl.
  rewrite (rect_shape sh r Hrect HC), lookup_insert_eq. simpl.
  rewrite (np_full_rect sh r Hrect).
  destruct (pick_move_on ID MAX_PLIES fuel r sh) as [[result r']|]; [|done].
  by rewrite insert_insert_eq.
Qed.

End Store.

(** ** The result of [pick_move] *)





(** C9.  [pick_move] works on an array of its own: whenever it returns, the
    caller's rack is, cell for cell, what it was before the call.  On a
    valid board it does return, and its working array is back in the state
    of the call's start as well. *)
Theorem pick_move_keeps_caller_rack
    (ID MAX_PLIES : Z) (st : gmap positive rack) (ref : positive) (r : rack) :
  st !! ref = Some r ->
  (forall fuel result st',
     pick_move ID MAX_PLIES fuel st ref = Some (result, st') ->
     st' !! ref = Some r)
  /\ (forall sh fuel,
        valid sh r -> (0 < fst sh)%nat -> (0 < snd sh)%nat -> ID <> 0 ->
        (empties r <= fuel)%nat ->
        exists result st',
          pick_move ID MAX_PLIES fuel st ref = Some (result, st')
          /\ st' !! ref = Some r
          /\ st' !! fresh_loc st = Some r).
Proof.
  intros Href.
  assert (Hframe : forall fuel result st',
            pick_move ID MAX_PLIES fuel st ref = Some (result, st') ->
            st' !! ref = Some r).
  { intros fuel result st'. unfold pick_move.
    destruct (pick_move_on _ _ _ _ _) as [[res r']|]; [|discriminate].
    intros [= _ <-].
    rewrite !lookup_insert_ne by (by apply (fresh_loc_other st ref r)).
    exact Href. }
  split; [exact Hframe|].
  intros sh fuel Hvalid HC HR HID Hfuel.
  pose proof (pick_move_store ID MAX_PLIES fuel st ref r sh Href (proj1 Hvalid) HC)
    as Hstore.
  rewrite (pick_move_on_fold ID MAX_PLIES sh HR HID fuel r Hvalid Hfuel) in Hstore.
  destruct (rack_full r sh); rewrite Hstore; eexists _, _;
    (split; [reflexivity|]);
    (split; [eapply Hframe; exact Hstore | apply lookup_insert_eq]).
Qed.

Lemma pick_move_keeps_caller_rack_witness :
  exists result st',
    pick_move 1 2 6 small_store 1 = Some (result, st')
    /\ st' !! 1%positive = Some small_rack
    /\ st' !! fresh_loc small_store = Some small_rack.
Proof.
  destruct (pick_move_keeps_caller_rack 1 2 small_store 1 small_rack)
    as [_ Hreturns].
  - reflexivity.
  - apply (Hreturns (4, 2)%nat 6%nat).
    + valid_by_evaluation.
    + simpl; lia.
    + simpl; lia.
    + discriminate.
    + vm_compute; lia.
Defined.

(** ** Interior nodes of the search *)

Section Interior.

Variable ID : Z.
Variable MAX_PLIES : Z.
Variable sh : shape.

Hypothesis rows : (0 < snd sh)%nat.
Hypothesis engine : ID <> 0.

Variable M : Z.
Variable p0 : positive.
Hypothesis heuristic_small : score_bound sh <= M.
Hypothesis win_small : 1000000000 <= M * Z.pos p0.
Hypothesis below_sentinel : M < 10000000000.

Local Open Scope Q_scope.


(** The children of a node on a valid rack: the loop returns their running
    maximum and minimum and the rack it started from; every child's score
    is within [M], so strictly between the two sentinels; an open column
    gives a child. *)
Lemma interior_children fuel r ply :
  valid sh r -> (empties r <= fuel)%nat -> (p0 <= ply + 1)%positive ->
  let scores :=
    children (deeper ID MAX_PLIES sh fuel ply) sh (mover ID ply) r
             (seq 0 (fst sh)) in
  minimax_columns (deeper ID MAX_PLIES sh fuel ply) sh (mover ID ply)
    0 (fst sh) r (inject_Z (-10000000000)) (inject_Z 10000000000)
  = Some (fold_left raise scores (inject_Z (-10000000000)),
          fold_left lower scores (inject_Z 10000000000), r)
  /\ (forall v, In v scores -> in_range M v)
  /\ (rack_full r sh = false -> exists v, In v scores).
Proof.
  intros Hvalid Hfuel Hply scores.
  assert (Hrec : forall i r1, (i < fst sh)%nat ->
            make_move r i sh (mover ID ply) = (true, r1) ->
            exists v, deeper ID MAX_PLIES sh fuel ply r1 = Some (v, r1)
                      /\ in_range M v).
  { intros i r1 Hi Hmake.
    destruct (make_move_valid sh r i _ r1 Hvalid Hi rows
                (mover_disc ID engine ply) Hmake) as (Hvalid1 & Hless & _).
    apply (minimax_sound ID MAX_PLIES sh rows engine M p0); auto. lia. }
  split; [| split].
  - apply (minimax_columns_children _ sh _ rows (mover_disc ID engine ply) r Hvalid);
      [| lia].
    intros i r1 Hi Hmake. destruct (Hrec i r1 Hi Hmake) as (v & Hv & _). eauto.
  - intros v Hin. apply in_children in Hin as (i & Hi & Hchild).
    apply (child_Some sh) in Hchild as (r1 & r' & Hmake & Hv).
    apply in_seq in Hi.
    destruct (Hrec i r1 ltac:(lia) Hmake) as (v' & Hv' & Hr). congruence.
  - intros Hfull. apply rack_full_false in Hfull as (col & Hcol & Htop).
    destruct (make_move_open r col sh (mover ID ply) rows Htop)
      as (k & _ & _ & _ & Hmake).
    destruct (Hrec col _ Hcol Hmake) as (v & Hv & _).
    exists v. apply in_children. exists col. split; [apply in_seq; lia|].
    apply (child_Some sh). eauto.
Qed.

End Interior.



(** ** Wins and the ply discount *)

Section Rounding.

Local Open Scope Q_scope.

Lemma round_half_even_cases x :
  let q := Qfloor x in
  (round_half_even x = q /\ x - inject_Z q <= 1 # 2)
  \/ (round_half_even x = (q + 1)%Z /\ 1 # 2 <= x - inject_Z q).
Proof.
  intros q. unfold round_half_even. fold q.
  destruct (Qcompare (x - inject_Z q) (1 # 2)) eqn:Hc.
  - apply Qeq_alt in Hc. destruct (Z.even q); [left | right]; split; auto; lra.
  - apply Qlt_alt in Hc. left. split; auto; lra.
  - apply Qgt_alt in Hc. right. split; auto; lra.
Qed.

Lemma round_half_even_near x :
  Qabs (inject_Z (round_half_even x) - x) <= 1 # 2.
Proof.
  pose proof (Qfloor_le x) as Hle. pose proof (Qlt_floor x) as Hlt.
  rewrite inject_Z_plus in Hlt. change (inject_Z 1) with 1 in Hlt.
  apply Qabs_Qle_condition.
  destruct (round_half_even_cases x) as [[-> H] | [-> H]];
    cbv zeta in H; rewrite ?inject_Z_plus; change (inject_Z 1) with 1;
    split; lra.
Qed.

Lemma round_half_even_Z k : round_half_even (inject_Z k) = k.
Proof.
  unfold round_half_even. rewrite Qfloor_Z.
  destruct (Qcompare (inject_Z k - inject_Z k) (1 # 2)) eqn:Hc; auto.
  - apply Qeq_alt in Hc. lra.
  - apply Qgt_alt in Hc. lra.
Qed.

Lemma round_half_even_comp x y : x == y -> round_half_even x = round_half_even y.
Proof.
  intros H. unfold round_half_even. rewrite (Qfloor_comp x y H).
  assert (Hc : Qcompare (x - inject_Z (Qfloor y)) (1 # 2)
               = Qcompare (y - inject_Z (Qfloor y)) (1 # 2)).
  { apply Qcompare_comp; [by rewrite H | reflexivity]. }
  by rewrite Hc.
Qed.

Lemma pow2_pos k : 0 < 2 ^ k.
Proof. by apply Qpower_0_lt. Qed.

Lemma pow2_plus j k : 2 ^ (j + k) == 2 ^ j * 2 ^ k.
Proof. by apply Qpower_plus. Qed.

Lemma pow2_succ k : 2 ^ (k + 1) == 2 * 2 ^ k.
Proof. rewrite pow2_plus. change (2 ^ 1) with 2. ring. Qed.

Lemma pow2_pred k : 2 * 2 ^ (k - 1) == 2 ^ k.
Proof. rewrite <- pow2_succ. by replace (k - 1 + 1)%Z with k by lia. Qed.

Lemma pow2_le j k : (j <= k)%Z -> 2 ^ j <= 2 ^ k.
Proof. intros H. by apply Qpower_le_compat_l. Qed.

Lemma pow2_lt j k : (j < k)%Z -> 2 ^ j < 2 ^ k.
Proof. intros H. by apply Qpower_lt_compat_l. Qed.

Lemma log2_bounds a :
  (0 < a)%Z -> 2 ^ Z.log2 a <= inject_Z a /\ inject_Z a < 2 * 2 ^ Z.log2 a.
Proof.
  intros Ha. destruct (Z.log2_spec a Ha) as [Hlo Hhi].
  pose proof (Z.log2_nonneg a) as Hnn.
  rewrite <- pow2_succ.
  rewrite <- !(Zpower_Qpower 2) by lia.
  split; [by rewrite <- Zle_Qle | by rewrite <- Zlt_Qlt].
Qed.

Lemma Qabs_make n d : Qabs (n # d) == inject_Z (Z.abs n) / inject_Z (Z.pos d).
Proof. unfold Qabs. by rewrite Qmake_Qdiv. Qed.

Lemma magnitude_rough x :
  ~ x == 0 ->
  let l := (Z.log2 (Z.abs (Qnum x)) - Z.log2 (Z.pos (Qden x)))%Z in
  2 ^ (l - 1) < Qabs x /\ Qabs x < 2 ^ (l + 1).
Proof.
  destruct x as [n d]. intros Hx l. simpl in l.
  assert (Hn : (0 < Z.abs n)%Z).
  { destruct n; [exfalso; apply Hx; reflexivity | lia | lia]. }
  destruct (log2_bounds _ Hn) as [Hal Hah].
  destruct (log2_bounds (Z.pos d) ltac:(lia)) as [Hdl Hdh].
  pose proof (pow2_pos (Z.log2 (Z.abs n))) as HPA.
  pose proof (pow2_pos (Z.log2 (Z.pos d))) as HPD.
  assert (HD : 0 < inject_Z (Z.pos d)) by (by rewrite <- (Zlt_Qlt 0)).
  rewrite Qabs_make.
  assert (Hl : 2 ^ l == 2 ^ Z.log2 (Z.abs n) / 2 ^ Z.log2 (Z.pos d)).
  { unfold l. by apply Qpower_minus. }
  set (A := inject_Z (Z.abs n)) in *. set (D := inject_Z (Z.pos d)) in *.
  set (PA := 2 ^ Z.log2 (Z.abs n)) in *. set (PD := 2 ^ Z.log2 (Z.pos d)) in *.
  split.
  - apply Qlt_shift_div_l; [done|].
    apply (Qmult_lt_l _ _ 2); [lra|].
    rewrite Qmult_assoc, pow2_pred, Hl.
    apply (Qmult_lt_r _ _ PD); [done|].
    assert (E : PA / PD * D * PD == PA * D) by (field; lra).
    rewrite E. nra.
  - apply Qlt_shift_div_r; [done|].
    rewrite pow2_succ, Hl.
    apply (Qmult_lt_r _ _ PD); [done|].
    assert (E : 2 * (PA / PD) * D * PD == 2 * PA * D) by (field; lra).
    rewrite E. nra.
Qed.

Lemma magnitude_spec x :
  ~ x == 0 -> 2 ^ magnitude x <= Qabs x /\ Qabs x < 2 ^ (magnitude x + 1).
Proof.
  intros Hx. destruct (magnitude_rough x Hx) as [Hlo Hhi]. cbv zeta in *.
  unfold magnitude.
  set (l := (Z.log2 (Z.abs (Qnum x)) - Z.log2 (Z.pos (Qden x)))%Z) in *.
  destruct (Qle_bool (2 ^ l) (Qabs x)) eqn:Hb.
  - apply Qle_bool_iff in Hb. by split.
  - assert (Hlt : Qabs x < 2 ^ l).
    { apply Qnot_le_lt. intros H. apply Qle_bool_iff in H. congruence. }
    split; [by apply Qlt_le_weak|].
    by replace (l - 1 + 1)%Z with l by lia.
Qed.

Lemma magnitude_unique x k :
  2 ^ k <= Qabs x -> Qabs x < 2 ^ (k + 1) -> magnitude x = k.
Proof.
  intros Hlo Hhi.
  assert (Hx : ~ x == 0).
  { intros H. rewrite H in Hlo. change (Qabs 0) with 0 in Hlo.
    pose proof (pow2_pos k). lra. }
  destruct (magnitude_spec x Hx) as [Hlo' Hhi'].
  assert (H1 : (magnitude x < k + 1)%Z).
  { apply (Qpower_lt_compat_l_inv 2); [|reflexivity].
    eapply Qle_lt_trans; eauto. }
  assert (H2 : (k < magnitude x + 1)%Z).
  { apply (Qpower_lt_compat_l_inv 2); [|reflexivity].
    eapply Qle_lt_trans; eauto. }
  lia.
Qed.

Lemma magnitude_ge x :
  (Z.log2 (Z.abs (Qnum x)) - Z.log2 (Z.pos (Qden x)) - 1 <= magnitude x)%Z.
Proof. unfold magnitude. destruct (Qle_bool _ _); lia. Qed.

Lemma binary64_near x : Qabs (binary64 x - x) <= (1 # 2) * 2 ^ exponent x.
Proof.
  unfold binary64. set (e := exponent x).
  pose proof (pow2_pos e) as He.
  assert (E : inject_Z (round_half_even (x / 2 ^ e)) * 2 ^ e - x
              == (inject_Z (round_half_even (x / 2 ^ e)) - x / 2 ^ e) * 2 ^ e)
    by (field; lra).
  rewrite E, Qabs_Qmult, (Qabs_pos (2 ^ e)) by lra.
  apply Qmult_le_compat_r; [apply round_half_even_near | lra].
Qed.

Lemma binary64_relative x :
  ~ x == 0 -> (-1022 <= magnitude x)%Z ->
  Qabs (binary64 x - x) <= Qabs x * (1 # 2 ^ 53).
Proof.
  intros Hx Hm. eapply Qle_trans; [apply binary64_near|].
  unfold exponent. rewrite Z.max_l by lia.
  destruct (magnitude_spec x Hx) as [Hlo _].
  assert (E : 2 ^ (magnitude x - 52) == 2 ^ magnitude x * (1 # 2 ^ 52)).
  { replace (magnitude x - 52)%Z with (magnitude x + -52)%Z by lia.
    rewrite pow2_plus. apply Qmult_comp; reflexivity. }
  rewrite E.
  assert (E' : (1 # 2) * (2 ^ magnitude x * (1 # 2 ^ 52))
              == 2 ^ magnitude x * (1 # 2 ^ 53)).
  { assert (Ec : 1 # 2 ^ 53 == (1 # 2) * (1 # 2 ^ 52)) by reflexivity.
    rewrite Ec. ring. }
  rewrite E'. apply Qmult_le_compat_r; [done | discriminate].
Qed.

Lemma quotient_gap (s : Z) (p q : positive) :
  s <> 0%Z -> (p < q)%positive -> (Z.pos q <= 2 ^ 52)%Z ->
  Qabs (s # q) * (1 + (1 # 2 ^ 53)) < Qabs (s # p) * (1 - (1 # 2 ^ 53)).
Proof.
  intros Hs Hpq Hq. rewrite !Qabs_make.
  assert (HS : 0 < inject_Z (Z.abs s)) by (rewrite <- (Zlt_Qlt 0); lia).
  assert (HP : 1 <= inject_Z (Z.pos p)) by (rewrite <- (Zle_Qle 1); lia).
  assert (HPQ : inject_Z (Z.pos p) + 1 <= inject_Z (Z.pos q)).
  { rewrite <- (inject_Z_plus _ 1), <- Zle_Qle. lia. }
  assert (HQ : inject_Z (Z.pos q) <= inject_Z (2 ^ 52)) by (rewrite <- Zle_Qle; lia).
  change (inject_Z (2 ^ 52)) with (4503599627370496 # 1) in HQ.
  change (1 # 2 ^ 53) with (1 # 9007199254740992).
  set (S := inject_Z (Z.abs s)) in *. set (P := inject_Z (Z.pos p)) in *.
  set (Q' := inject_Z (Z.pos q)) in *. clearbody S P Q'.
  apply (Qmult_lt_r _ _ (P * Q')); [nra|].
  assert (E1 : S / Q' * (1 + (1 # 9007199254740992)) * (P * Q')
               == S * (P * (1 + (1 # 9007199254740992)))) by (field; lra).
  assert (E2 : S / P * (1 - (1 # 9007199254740992)) * (P * Q')
               == S * (Q' * (1 - (1 # 9007199254740992)))) by (field; lra).
  rewrite E1, E2. apply Qmult_lt_l; [done | lra].
Qed.

Lemma quotient_normal (s : Z) (p : positive) :
  s <> 0%Z -> (Z.pos p <= 2 ^ 52)%Z ->
  ~ s # p == 0 /\ (-1022 <= magnitude (s # p))%Z.
Proof.
  intros Hs Hp. split.
  - unfold Qeq. simpl. lia.
  - pose proof (magnitude_ge (s # p)) as H. cbn [Qnum Qden] in H.
    pose proof (Z.log2_nonneg (Z.abs s)).
    assert (Z.log2 (Z.pos p) <= Z.log2 (2 ^ 52))%Z by (apply Z.log2_le_mono; lia).
    change (Z.log2 (2 ^ 52)) with 52%Z in *. lia.
Qed.

Lemma binary64_quotient_win (s : Z) (p q : positive) :
  (0 < s)%Z -> (p < q)%positive -> (Z.pos q <= 2 ^ 52)%Z ->
  binary64 (s # q) < binary64 (s # p).
Proof.
  intros Hs Hpq Hq.
  destruct (quotient_normal s p) as [Hp0 Hpm]; [lia | lia |].
  destruct (quotient_normal s q) as [Hq0 Hqm]; [lia | lia |].
  pose proof (binary64_relative _ Hp0 Hpm) as Ep.
  pose proof (binary64_relative _ Hq0 Hqm) as Eq.
  pose proof (quotient_gap s p q ltac:(lia) Hpq Hq) as Hgap.
  apply Qabs_Qle_condition in Ep, Eq.
  assert (Hp : Qabs (s # p) == s # p) by (apply Qabs_pos; unfold Qle; simpl; lia).
  assert (Hq' : Qabs (s # q) == s # q) by (apply Qabs_pos; unfold Qle; simpl; lia).
  rewrite Hp in *. rewrite Hq' in *. lra.
Qed.

Lemma binary64_quotient_loss (s : Z) (p q : positive) :
  (s < 0)%Z -> (p < q)%positive -> (Z.pos q <= 2 ^ 52)%Z ->
  binary64 (s # p) < binary64 (s # q).
Proof.
  intros Hs Hpq Hq.
  destruct (quotient_normal s p) as [Hp0 Hpm]; [lia | lia |].
  destruct (quotient_normal s q) as [Hq0 Hqm]; [lia | lia |].
  pose proof (binary64_relative _ Hp0 Hpm) as Ep.
  pose proof (binary64_relative _ Hq0 Hqm) as Eq.
  pose proof (quotient_gap s p q ltac:(lia) Hpq Hq) as Hgap.
  apply Qabs_Qle_condition in Ep, Eq.
  assert (Hp : Qabs (s # p) == - (s # p)) by (apply Qabs_neg; unfold Qle; simpl; lia).
  assert (Hq' : Qabs (s # q) == - (s # q)) by (apply Qabs_neg; unfold Qle; simpl; lia).
  rewrite Hp in *. rewrite Hq' in *. lra.
Qed.

Lemma minimax_binary64_step ID MAX_PLIES fuel r sh ply :
  minimax_binary64 ID MAX_PLIES (S fuel) r sh ply =
  let score := board_state_score ID r sh in
  if snd score then Some (true_divide (fst score) ply, r)
  else if rack_full r sh then Some (0%Q, r)
  else if Z.pos ply =? MAX_PLIES then
    let score := board_state_score ID r sh in
    if snd score then Some (true_divide (fst score) ply, r)
    else Some (inject_Z (fst score), r)
  else
    match
      minimax_columns
        (fun r' => minimax_binary64 ID MAX_PLIES fuel r' sh (ply + 1)%positive)
        sh (mover ID ply) 0 (fst sh) r
        (inject_Z (-10000000000)) (inject_Z 10000000000)
    with
    | None => None
    | Some (high_score, low_score, r') =>
        if negb (ID =? mover ID ply) then Some (low_score, r')
        else Some (high_score, r')
    end.
Proof. reflexivity. Qed.

End Rounding.

(** C5.  When [_board_state_score] reports a win, its score [s] is plus or
    minus 1e9 and [_minimax] returns the binary64 quotient [s / ply].  Of
    two engine wins at plies up to 2^52 the one at the smaller ply has the
    strictly greater value, and of two opponent wins at plies up to 2^52
    the one at the smaller ply has the strictly smaller value. *)
Theorem minimax_win_discount_bounded (ID MAX_PLIES : Z) (sh : shape) :
  (forall fuel r ply,
     snd (board_state_score ID r sh) = true ->
     (fst (board_state_score ID r sh) = 1000000000
      \/ fst (board_state_score ID r sh) = -1000000000)
     /\ minimax_binary64 ID MAX_PLIES (S fuel) r sh ply
        = Some (true_divide (fst (board_state_score ID r sh)) ply, r))
  /\ (forall fuel fuel' r r' p q,
        (p < q)%positive -> Z.pos q <= 2 ^ 52 ->
        board_state_score ID r sh = (1000000000, true) ->
        board_state_score ID r' sh = (1000000000, true) ->
        exists v v',
          minimax_binary64 ID MAX_PLIES (S fuel) r sh p = Some (v, r)
          /\ minimax_binary64 ID MAX_PLIES (S fuel') r' sh q = Some (v', r')
          /\ (v' < v)%Q)
  /\ (forall fuel fuel' r r' p q,
        (p < q)%positive -> Z.pos q <= 2 ^ 52 ->
        board_state_score ID r sh = (-1000000000, true) ->
        board_state_score ID r' sh = (-1000000000, true) ->
        exists v v',
          minimax_binary64 ID MAX_PLIES (S fuel) r sh p = Some (v, r)
          /\ minimax_binary64 ID MAX_PLIES (S fuel') r' sh q = Some (v', r')
          /\ (v < v')%Q).
Proof.
  split; [| split].
  - intros fuel r ply Hwin. split; [by apply board_state_score_win|].
    rewrite minimax_binary64_step. cbv zeta. by rewrite Hwin.
  - intros fuel fuel' r r' p q Hpq Hq Hr Hr'.
    eexists _, _. rewrite !minimax_binary64_step. cbv zeta.
    rewrite Hr, Hr'. cbn [fst snd].
    split; [reflexivity|]. split; [reflexivity|].
    by apply binary64_quotient_win.
  - intros fuel fuel' r r' p q Hpq Hq Hr Hr'.
    eexists _, _. rewrite !minimax_binary64_step. cbv zeta.
    rewrite Hr, Hr'. cbn [fst snd].
    split; [reflexivity|]. split; [reflexivity|].
    by apply binary64_quotient_loss.
Qed.

Lemma minimax_win_discount_bounded_witness :
  minimax_binary64 1 5 (S 0) [[1]; [1]; [1]; [1]] (4, 1)%nat 3
  = Some (true_divide 1000000000 3, [[1]; [1]; [1]; [1]])
  /\ exists v v',
       minimax_binary64 2 5 (S 0) [[1]; [1]; [1]; [1]] (4, 1)%nat 1
       = Some (v, [[1]; [1]; [1]; [1]])
       /\ minimax_binary64 2 5 (S 0) [[1]; [1]; [1]; [1]] (4, 1)%nat 3
          = Some (v', [[1]; [1]; [1]; [1]])
       /\ (v < v')%Q.
Proof.
  split.
  - destruct (minimax_win_discount_bounded 1 5 (4, 1)%nat) as (Hwin & _ & _).
    apply (Hwin 0%nat [[1]; [1]; [1]; [1]] 3%positive). reflexivity.
  - destruct (minimax_win_discount_bounded 2 5 (4, 1)%nat) as (_ & _ & Hloss).
    apply (Hloss 0%nat 0%nat); [reflexivity | vm_compute; discriminate
                               | reflexivity | reflexivity].
Defined.

(** C5, as stated for every ply, fails: 2^54 and 2^54 + 1 are two plies at
    which the quotients of 1e9, and of -1e9, round to the same binary64
    value, so the win at the smaller ply is not worth strictly more and
    the loss at the smaller ply is not worth strictly less. *)
Lemma minimax_win_discount_not_strict :
  (18014398509481984 < 18014398509481985)%positive
  /\ (board_state_score 1 [[1]; [1]; [1]; [1]] (4, 1)%nat
      = (1000000000, true)
      /\ exists v,
           minimax_binary64 1 5 1 [[1]; [1]; [1]; [1]] (4, 1)%nat
             18014398509481984 = Some (v, [[1]; [1]; [1]; [1]])
           /\ minimax_binary64 1 5 1 [[1]; [1]; [1]; [1]] (4, 1)%nat
                18014398509481985 = Some (v, [[1]; [1]; [1]; [1]]))
  /\ (board_state_score 2 [[1]; [1]; [1]; [1]] (4, 1)%nat
      = (-1000000000, true)
      /\ exists v,
           minimax_binary64 2 5 1 [[1]; [1]; [1]; [1]] (4, 1)%nat
             18014398509481984 = Some (v, [[1]; [1]; [1]; [1]])
           /\ minimax_binary64 2 5 1 [[1]; [1]; [1]; [1]] (4, 1)%nat
                18014398509481985 = Some (v, [[1]; [1]; [1]; [1]])).
Proof.
  split; [reflexivity|]. split.
  - split; [reflexivity|]. eexists. split; vm_compute; reflexivity.
  - split; [reflexivity|]. eexists. split; vm_compute; reflexivity.
Qed.

(** ** The check repeated at the ply budget *)

Lemma minimax_columns_ext (rec rec' : rack -> option (Q * rack)) sh player :
  (forall r, rec r = rec' r) ->
  forall n i r high low,
    minimax_columns rec sh player i n r high low
    = minimax_columns rec' sh player i n r high low.
Proof.
  intros Hext. induction n as [|n IH]; intros i r high low; [done|].
  simpl. destruct (make_move r i sh player) as [[|] r1]; [|apply IH].
  rewrite Hext. destruct (rec' r1) as [[score r2]|]; [apply IH | done].
Qed.

(** C8.  At the ply budget, on a board that is neither a win nor full,
    [_minimax] returns the aggregate score, and divides it by the ply only
    if the board's win flag is set at that point; the win check at the head
    of the call has already returned for every such board, so [_minimax]
    agrees everywhere with the search that returns the aggregate score at
    the budget without the second check. *)
Theorem minimax_cutoff_recheck_dead (ID MAX_PLIES : Z) (sh : shape) :
  (forall fuel r ply,
     snd (board_state_score ID r sh) = false -> rack_full r sh = false ->
     Z.pos ply = MAX_PLIES ->
     minimax ID MAX_PLIES (S fuel) r sh ply
     = Some (inject_Z (fst (board_state_score ID r sh)), r))
  /\ (forall fuel r ply,
        minimax ID MAX_PLIES fuel r sh ply
        = minimax_raw_cutoff ID MAX_PLIES fuel r sh ply).
Proof.
  split.
  - intros fuel r ply Hwin Hfull Hply.
    rewrite minimax_step. cbv zeta. rewrite Hwin, Hfull.
    by destruct (Z.eqb_spec (Z.pos ply) MAX_PLIES).
  - induction fuel as [|fuel IH]; intros r ply; [done|].
    rewrite minimax_step. cbn [minimax_raw_cutoff]. cbv zeta.
    destruct (snd (board_state_score ID r sh)) eqn:Hwin; [done|].
    destruct (rack_full r sh); [done|].
    destruct (Z.pos ply =? MAX_PLIES); [done|].
    unfold deeper.
    by rewrite (minimax_columns_ext _
                  (fun r' => minimax_raw_cutoff ID MAX_PLIES fuel r' sh (ply + 1))).
Qed.

Lemma minimax_cutoff_recheck_dead_witness :
  minimax 1 1 (S 0) small_rack (4, 2)%nat 1 = Some (inject_Z 0, small_rack).
Proof.
  destruct (minimax_cutoff_recheck_dead 1 1 (4, 2)%nat) as [Hcut _].
  apply (Hcut 0%nat small_rack 1%positive); reflexivity.
Defined.

(** ** Moves that win at once *)

Section ImmediateWin.

Variable ID : Z.
Variable MAX_PLIES : Z.
Variable sh : shape.

Hypothesis rows : (0 < snd sh)%nat.
Hypothesis engine : ID <> 0.
Hypothesis heuristic_small : score_bound sh <= 500000000.

Local Open Scope Q_scope.

Lemma quartet_at_off r col k v q :
  ~ on_quartet (col, k) q ->
  quartet_at ID (set_cell r col k v) q = quartet_at ID r q.
Proof using Type.
  intros Hoff. unfold quartet_at, on_quartet in *.
  destruct q as [[c1 k1] [c2 k2] [c3 k3] [c4 k4]]. simpl in *.
  rewrite !cell_set_cell_ne; [done | | | |]; intros Heq; apply Hoff; auto.
Qed.

(** On a board without a line of four, a line of four present after the
    engine's disc is placed is the engine's. *)
Lemma placed_win_is_engines r col k :
  rect sh r -> (col < fst sh)%nat -> (k < snd sh)%nat ->
  snd (board_state_score ID r sh) = false ->
  snd (board_state_score ID (set_cell r col k ID) sh) = true ->
  board_state_score ID (set_cell r col k ID) sh = (1000000000%Z, true).
Proof using engine.
  intros Hrect Hc Hk Hno Hwin.
  rewrite board_state_score_evaluate in *.
  apply evaluate_no_win in Hno.
  apply evaluate_win in Hwin as (t & Hin & Ht & ->).
  apply in_map_iff in Hin as (q & <- & Hq).
  assert (Hon : on_quartet (col, k) q).
  { unfold on_quartet.
    destruct (decide ((col, k) = q1 q)); [tauto|].
    destruct (decide ((col, k) = q2 q)); [tauto|].
    destruct (decide ((col, k) = q3 q)); [tauto|].
    destruct (decide ((col, k) = q4 q)); [tauto|].
    exfalso. rewrite quartet_at_off in Ht by (unfold on_quartet; tauto).
    rewrite List.Forall_forall in Hno.
    specialize (Hno (quartet_at ID r q) (in_map _ _ _ Hq)). congruence. }
  unfold quartet_at in *.
  rewrite (quartet_score_win_value ID _ _ _ _ Ht).
  apply quartet_score_win in Ht as (_ & H12 & H23 & H34).
  pose proof (cell_set_cell_eq r col k ID sh Hrect Hc Hk) as Hnew.
  assert (cell (set_cell r col k ID) (q1 q).1 (q1 q).2 = ID) as ->.
  { destruct Hon as [Heq | [Heq | [Heq | Heq]]];
      rewrite <- Heq in *; simpl in *; congruence. }
  by rewrite Z.eqb_refl.
Qed.

Lemma immediate_win_true r j :
  valid sh r -> (j < fst sh)%nat ->
  immediate_win ID sh r j = true ->
  cell r j (snd sh - 1) = 0%Z
  /\ exists r1, make_move r j sh ID = (true, r1) /\ valid sh r1
                /\ S (empties r1) = empties r
                /\ board_state_score ID r1 sh = (1000000000%Z, true).
Proof using rows engine.
  intros Hvalid Hj. unfold immediate_win.
  destruct (make_move r j sh ID) as [[|] r1] eqn:Hmake; [|discriminate].
  rewrite !andb_true_iff, Z.eqb_eq. intros [[_ Hwin] Hscore].
  destruct (make_move_valid sh r j ID r1 Hvalid Hj rows engine Hmake)
    as (Hvalid1 & Hless & _ & Htop & _).
  split; [done|]. exists r1. repeat split; try done; try apply Hvalid1.
  destruct (board_state_score ID r1 sh) as [s w]. simpl in *. congruence.
Qed.

(** The score of a column that wins at once is 1e9. *)
Lemma root_score_win fuel r j :
  valid sh r -> (j < fst sh)%nat -> (empties r <= fuel)%nat ->
  immediate_win ID sh r j = true ->
  root_score ID MAX_PLIES sh fuel r j = Some (1000000000 # 1).
Proof using rows engine.
  intros Hvalid Hj Hfuel Hwin.
  apply (immediate_win_true r j Hvalid Hj) in Hwin
    as (_ & r1 & Hmake & _ & Hless & Hscore).
  unfold root_score, child. rewrite Hmake.
  destruct fuel as [|fuel]; [lia|].
  rewrite minimax_step. cbv zeta. by rewrite Hscore.
Qed.

(** No score exceeds 1e9. *)
Lemma root_score_le_win fuel r j s :
  valid sh r -> (j < fst sh)%nat -> (empties r <= fuel)%nat ->
  root_score ID MAX_PLIES sh fuel r j = Some s ->
  s <= 1000000000 # 1.
Proof using rows engine heuristic_small.
  intros Hvalid Hj Hfuel Hs.
  apply (root_score_Some ID MAX_PLIES sh rows engine) in Hs
    as (_ & r1 & _ & Hvalid1 & Hless & r' & Hv); [| done | done].
  destruct (minimax_sound ID MAX_PLIES sh rows engine 1000000000 1
              ltac:(lia) ltac:(lia) ltac:(lia) fuel r1 1%positive Hvalid1
              ltac:(lia) ltac:(lia)) as (v & Hv' & _ & Hhi).
  rewrite Hv in Hv'. injection Hv' as -> _. exact Hhi.
Qed.

(** On a board without a line of four, a column that does not win at once
    scores at most 5e8. *)
Lemma root_score_no_win fuel r j s :
  valid sh r -> (j < fst sh)%nat -> (empties r <= fuel)%nat ->
  snd (board_state_score ID r sh) = false ->
  immediate_win ID sh r j = false ->
  root_score ID MAX_PLIES sh fuel r j = Some s ->
  s <= 500000000 # 1.
Proof using rows engine heuristic_small.
  intros Hvalid Hj Hfuel Hno Hlose Hs.
  apply (root_score_Some ID MAX_PLIES sh rows engine) in Hs
    as (_ & r1 & Hmake & Hvalid1 & Hless & r' & Hv); [| done | done].
  assert (Hno1 : snd (board_state_score ID r1 sh) = false).
  { destruct (snd (board_state_score ID r1 sh)) eqn:Hwin1; [|done].
    exfalso.
    destruct (make_move_valid sh r j ID r1 Hvalid Hj rows engine Hmake)
      as (_ & _ & _ & _ & k & Hk & _ & _ & ->).
    pose proof (placed_win_is_engines r j k (proj1 Hvalid) Hj Hk Hno Hwin1)
      as Hscore.
    unfold immediate_win in Hlose. by rewrite Hmake, Hscore in Hlose. }
  destruct fuel as [|fuel]; [lia|].
  rewrite minimax_step in Hv. cbv zeta in Hv. rewrite Hno1 in Hv.
  destruct (rack_full r1 sh) eqn:Hfull.
  { injection Hv as <- _. unfold Qle. simpl. lia. }
  destruct (Z.pos 1 =? MAX_PLIES).
  { injection Hv as <- _.
    pose proof (board_state_score_bound ID r1 sh Hno1) as Hb.
    unfold score_bound in heuristic_small.
    unfold Qle. simpl. lia. }
  destruct (interior_children ID MAX_PLIES sh rows engine 500000000 2
              ltac:(lia) ltac:(lia) ltac:(lia) fuel r1 1%positive Hvalid1
              ltac:(lia) ltac:(lia)) as (Hloop & Hrange & Hsome).
  rewrite Hloop in Hv.
  rewrite (mover_role ID engine) in Hv. simpl in Hv. injection Hv as <- _.
  destruct (Hsome Hfull) as [v0 Hv0].
  eapply Qle_trans; [apply (fold_lower_lower _ _ v0 Hv0)|].
  apply (Hrange v0 Hv0).
Qed.

(** [pick_move] returns the leftmost column that wins at once, when there
    is one and the board has no line of four yet. *)
Lemma pick_move_on_immediate_win fuel r w :
  valid sh r -> (empties r <= fuel)%nat ->
  snd (board_state_score ID r sh) = false ->
  (w < fst sh)%nat -> immediate_win ID sh r w = true ->
  exists c,
    pick_move_on ID MAX_PLIES fuel r sh = Some (Some c, r)
    /\ (c <= w)%nat
    /\ immediate_win ID sh r c = true
    /\ forall j, (j < c)%nat -> immediate_win ID sh r j = false.
Proof using rows engine heuristic_small.
  intros Hvalid Hfuel Hno Hw Hwin.
  pose proof (root_score_win fuel r w Hvalid Hw Hfuel Hwin) as Hsw.
  assert (Hfull : rack_full r sh = false).
  { apply rack_full_false. exists w. split; [done|].
    by apply (immediate_win_true r w Hvalid Hw). }
  destruct (pick_move_on_best ID MAX_PLIES sh rows engine fuel r Hvalid Hfuel
              ltac:(lia) Hfull) as (c & s & Hpick & Hc & Hs & Hbest & Hleft).
  assert (Hge : 1000000000 # 1 <= s) by (by apply (Hbest w)).
  assert (Hcw : (c <= w)%nat).
  { destruct (Nat.le_gt_cases c w) as [|Hlt]; [done|]. exfalso.
    pose proof (Hleft w _ Hlt Hsw) as Hlts.
    pose proof (root_score_le_win fuel r c s Hvalid Hc Hfuel Hs) as Hle.
    exact (Qlt_not_le _ _ Hlts Hle). }
  exists c. split; [done|]. split; [done|]. split.
  - destruct (immediate_win ID sh r c) eqn:Hwc; [done|]. exfalso.
    pose proof (root_score_no_win fuel r c s Hvalid Hc Hfuel Hno Hwc Hs) as Hle.
    assert (1000000000 # 1 <= 500000000 # 1) as Habs
      by (eapply Qle_trans; [exact Hge | exact Hle]).
    unfold Qle in Habs. simpl in Habs. lia.
  - intros j Hj.
    destruct (immediate_win ID sh r j) eqn:Hwj; [|done]. exfalso.
    pose proof (root_score_win fuel r j Hvalid ltac:(lia) Hfuel Hwj) as Hsj.
    pose proof (Hleft j _ Hj Hsj) as Hlts.
    pose proof (root_score_le_win fuel r c s Hvalid Hc Hfuel Hs) as Hle.
    exact (Qlt_not_le _ _ Hlts Hle).
Qed.

End ImmediateWin.

(** ** Three in a row at the bottom left of the 7 by 6 board *)

(** C10, as stated, fails: with three in a row at the bottom of columns 0
    to 2 and column 3 empty, [pick_move] returns column 0 when a disc in
    column 0 wins as well (both moves score 1e9 and the leftmost is kept),
    and also when the board already holds a line of four of the opponent
    (every move then scores -1e9). *)
Lemma pick_move_not_always_column_3 :
  (rect (7, 6)%nat two_wins_rack /\ gravity two_wins_rack = true
   /\ bottom_left_three two_wins_rack
   /\ option_map fst (pick_move 1 1 42 {[ 1%positive := two_wins_rack ]} 1)
      = Some (Some 0%nat)
   /\ option_map fst (pick_move 1 2 42 {[ 1%positive := two_wins_rack ]} 1)
      = Some (Some 0%nat))
  /\ (rect (7, 6)%nat decided_rack /\ gravity decided_rack = true
      /\ bottom_left_three decided_rack
      /\ option_map fst (pick_move 1 1 42 {[ 1%positive := decided_rack ]} 1)
         = Some (Some 0%nat)).
Proof.
  split.
  - split; [split; [reflexivity|] | split; [reflexivity|]].
    + repeat (apply List.Forall_cons; [reflexivity|]). apply List.Forall_nil.
    + split; [repeat split|]. split; vm_compute; reflexivity.
  - split; [split; [reflexivity|] | split; [reflexivity|]].
    + repeat (apply List.Forall_cons; [reflexivity|]). apply List.Forall_nil.
    + split; [repeat split|]. vm_compute; reflexivity.
Qed.

Lemma score_bound_7_6 : score_bound (7, 6)%nat = 6900.
Proof. reflexivity. Qed.

(** C10, amended.  On a valid 7 by 6 board without a line of four, where
    the engine (id 1) holds the bottom cells of columns 0, 1 and 2 and the
    bottom cell of column 3 is empty, [pick_move] returns, for every ply
    budget, the leftmost column in which the engine's disc completes a line
    of four; that column is at most 3, and it is 3 when no disc in column
    0, 1 or 2 completes a line of four. *)
Theorem pick_move_takes_leftmost_win
    (MAX_PLIES : Z) (fuel : nat) (st : gmap positive rack) (ref : positive)
    (r : rack) :
  st !! ref = Some r -> valid (7, 6)%nat r -> bottom_left_three r ->
  snd (board_state_score 1 r (7, 6)%nat) = false ->
  (empties r <= fuel)%nat ->
  exists c st',
    pick_move 1 MAX_PLIES fuel st ref = Some (Some c, st')
    /\ (c <= 3)%nat
    /\ immediate_win 1 (7, 6)%nat r c = true
    /\ (forall j, (j < c)%nat -> immediate_win 1 (7, 6)%nat r j = false)
    /\ ((forall j, (j < 3)%nat -> immediate_win 1 (7, 6)%nat r j = false) ->
        c = 3%nat).
Proof.
  intros Href Hvalid (H0 & H1 & H2 & H3) Hno Hfuel.
  set (sh := (7, 6)%nat) in *.
  assert (HR : (0 < snd sh)%nat) by (simpl; lia).
  assert (HID : 1 <> 0) by discriminate.
  assert (Hsmall : score_bound sh <= 500000000)
    by (unfold sh; rewrite score_bound_7_6; lia).
  assert (Hwin3 : immediate_win 1 sh r 3 = true).
  { pose proof (proj1 (gravity_spec r) (proj2 Hvalid) 3%nat) as Hg.
    assert (Htop : cell r 3 (snd sh - 1) = 0) by (apply (Hg 0%nat); [simpl; lia | done]).
    destruct (make_move_open r 3 sh 1 HR Htop) as (k & Hk & _ & Hlow & Hmake).
    assert (k = 0%nat) as ->.
    { destruct k as [|k]; [done|]. exfalso. apply (Hlow 0%nat); [lia | done]. }
    unfold immediate_win. rewrite Hmake.
    assert (Hwin : snd (board_state_score 1 (set_cell r 3 0 1) sh) = true).
    { destruct (snd (board_state_score 1 (set_cell r 3 0 1) sh)) eqn:Hw; [done|].
      exfalso. rewrite board_state_score_evaluate in Hw.
      apply evaluate_no_win in Hw. rewrite List.Forall_forall in Hw.
      assert (Hin : In (quartet_at 1 (set_cell r 3 0 1) (horizontal_at 0 0))
                       (map (quartet_at 1 (set_cell r 3 0 1)) (quartets sh))).
      { apply in_map, in_quartets. right. left.
        exists 0%nat, 0%nat. simpl. repeat split; lia. }
      apply Hw in Hin. unfold quartet_at, horizontal_at in Hin.
      cbn [q1 q2 q3 q4 fst snd Nat.add] in Hin.
      rewrite (cell_set_cell_eq r 3 0 1 sh) in Hin
        by (try apply Hvalid; simpl; lia).
      rewrite !cell_set_cell_ne in Hin by discriminate.
      rewrite H0, H1, H2 in Hin. discriminate Hin. }
    rewrite (placed_win_is_engines 1 sh HID r 3 0 (proj1 Hvalid)
               ltac:(simpl; lia) ltac:(simpl; lia) Hno Hwin).
    reflexivity. }
  destruct (pick_move_on_immediate_win 1 MAX_PLIES sh HR HID Hsmall fuel r 3
              Hvalid Hfuel Hno ltac:(simpl; lia) Hwin3)
    as (c & Hpick & Hc & Hwc & Hleft).
  rewrite (pick_move_store 1 MAX_PLIES fuel st ref r sh Href (proj1 Hvalid)
             ltac:(simpl; lia)), Hpick.
  exists c. eexists. split; [reflexivity|]. repeat split; try done.
  intros Hnone.
  destruct (Nat.eq_dec c 3%nat) as [|Hne]; [done|]. exfalso.
  rewrite Hnone in Hwc by lia. discriminate.
Qed.

Lemma pick_move_takes_leftmost_win_witness :
  exists c st',
    pick_move 1 2 38 {[ 1%positive := three_rack ]} 1 = Some (Some c, st')
    /\ (c <= 3)%nat
    /\ immediate_win 1 (7, 6)%nat three_rack c = true
    /\ (forall j, (j < c)%nat -> immediate_win 1 (7, 6)%nat three_rack j = false)
    /\ ((forall j, (j < 3)%nat -> immediate_win 1 (7, 6)%nat three_rack j = false)
        -> c = 3%nat).
Proof.
  apply (pick_move_takes_leftmost_win 2 38 {[ 1%positive := three_rack ]} 1
           three_rack).
  - reflexivity.
  - valid_by_evaluation.
  - repeat split.
  - reflexivity.
  - vm_compute; lia.
Defined.

(** * Further properties of the move simulator *)

Section MoveEffects.

Implicit Types (r : rack) (col row : nat) (sh : shape) (player : Z).

(** In a column with a disc below row [n] there is a highest one. *)
Lemma highest_disc r col n :
  (exists j, (j < n)%nat /\ cell r col j <> 0) ->
  exists k, (k < n)%nat /\ cell r col k <> 0 /\
            forall j, (k < j < n)%nat -> cell r col j = 0.
Proof.
  induction n as [|n IH]; intros (j & Hj & Hnz); [lia|].
  destruct (Z.eq_dec (cell r col n) 0) as [Hz | Hn].
  - destruct IH as (k & Hk & Hknz & Habove).
    + exists j. split; [|done].
      destruct (Nat.eq_dec j n) as [-> | Hne]; [contradiction | lia].
    + exists k. split; [lia|]. split; [done|].
      intros i Hi. destruct (Nat.eq_dec i n) as [-> | Hne]; [done|].
      apply Habove. lia.
  - exists n. split; [lia|]. split; [done|]. intros i Hi. lia.
Qed.

Lemma unmake_move_scan_empty r col n :
  (forall j, (j < n)%nat -> cell r col j = 0) ->
  unmake_move_scan r col n = (false, r).
Proof.
  induction n as [|n IH]; intros Hall; [done|]. simpl.
  rewrite (Hall n) by lia. simpl. apply IH. intros j Hj. apply Hall. lia.
Qed.

Lemma unmake_move_top r col sh k :
  (k < snd sh)%nat -> cell r col k <> 0 ->
  (forall j, (k < j < snd sh)%nat -> cell r col j = 0) ->
  unmake_move r col sh = (true, set_cell r col k 0).
Proof. intros Hk Hnz Habove. by apply unmake_move_scan_finds. Qed.

Lemma discs_of_clear (column : list Z) k d :
  column !! k = Some d -> d <> 0 ->
  discs_of 0 (<[k := 0]> column) = S (discs_of 0 column).
Proof.
  revert k. induction column as [|d' column IH]; intros k Hk Hd; [done|].
  destruct k as [|k]; simpl in *.
  - injection Hk as ->. rewrite !discs_of_cons.
    destruct (Z.eqb_spec d 0); [contradiction | reflexivity].
  - rewrite !discs_of_cons, (IH k Hk Hd). lia.
Qed.

Lemma empties_clear r col k d :
  (r !! col ≫= fun column => column !! k) = Some d -> d <> 0 ->
  empties (set_cell r col k 0) = S (empties r).
Proof.
  unfold set_cell. revert col.
  induction r as [|column r IH]; intros col Hk Hd; [done|].
  destruct col as [|col]; simpl in Hk.
  - change (alter _ 0%nat (column :: r)) with (<[k := 0]> column :: r).
    rewrite !empties_cons, (discs_of_clear column k d Hk Hd). lia.
  - change (alter ?f (S col) (column :: r)) with (column :: alter f col r).
    rewrite !empties_cons, (IH col Hk Hd). lia.
Qed.

Lemma gravity_at_cleared r col sh k col' :
  rect sh r -> (col < fst sh)%nat -> (k < snd sh)%nat ->
  (forall j, (k < j)%nat -> cell r col j = 0) ->
  gravity_at r col' -> gravity_at (set_cell r col k 0) col'.
Proof.
  intros Hrect Hc Hk Habove Hg i j Hij.
  destruct (decide (col = col')) as [<- | Hcol].
  - destruct (Nat.eq_dec j k) as [-> | Hjk].
    + intros _. by apply (cell_set_cell_eq r col k 0 sh).
    + rewrite (cell_set_cell_ne r col k 0 col j) by (intros [=]; lia).
      destruct (Nat.eq_dec i k) as [-> | Hik].
      * intros _. apply Habove. lia.
      * rewrite cell_set_cell_ne by (intros [=]; lia). by apply Hg.
  - rewrite !cell_set_cell_ne; [| intros [=]; lia | intros [=]; lia].
    by apply Hg.
Qed.

End MoveEffects.

(** X1.  What [_make_move] does to a rack of the recorded shape: a column
    whose top cell is taken is refused and the rack is left as it is;
    otherwise the disc goes into the lowest empty cell of the column, every
    other cell keeps its value and the shape is kept. *)
Theorem make_move_lowest_empty_cell
    (r : rack) (sh : shape) (col : nat) (player : Z) :
  rect sh r -> (col < fst sh)%nat -> (0 < snd sh)%nat ->
  (cell r col (snd sh - 1) <> 0 /\ make_move r col sh player = (false, r))
  \/ (cell r col (snd sh - 1) = 0 /\
      exists k r1,
        make_move r col sh player = (true, r1)
        /\ (k < snd sh)%nat /\ cell r col k = 0
        /\ (forall j, (j < k)%nat -> cell r col j <> 0)
        /\ cell r1 col k = player
        /\ (forall c j, (c, j) <> (col, k) -> cell r1 c j = cell r c j)
        /\ rect sh r1).
Proof.
  intros Hrect Hc HR.
  destruct (Z.eq_dec (cell r col (snd sh - 1)) 0) as [Htop | Htop].
  - right. split; [done|].
    destruct (make_move_open r col sh player HR Htop)
      as (k & Hk & Hz & Hlow & Hmake).
    exists k, (set_cell r col k player). repeat split; try done.
    + by apply (cell_set_cell_eq r col k player sh).
    + intros c j Hne. apply cell_set_cell_ne. congruence.
    + by apply rect_set_cell.
    + by apply rect_set_cell.
  - left. split; [done|]. by apply make_move_closed.
Qed.

Lemma make_move_lowest_empty_cell_witness :
  (cell [[1; 2; 0]; [0; 0; 0]] 0 2 <> 0
   /\ make_move [[1; 2; 0]; [0; 0; 0]] 0 (2, 3)%nat 2
      = (false, [[1; 2; 0]; [0; 0; 0]]))
  \/ (cell [[1; 2; 0]; [0; 0; 0]] 0 2 = 0 /\
      exists k r1,
        make_move [[1; 2; 0]; [0; 0; 0]] 0 (2, 3)%nat 2 = (true, r1)
        /\ (k < 3)%nat /\ cell [[1; 2; 0]; [0; 0; 0]] 0 k = 0
        /\ (forall j, (j < k)%nat -> cell [[1; 2; 0]; [0; 0; 0]] 0 j <> 0)
        /\ cell r1 0 k = 2
        /\ (forall c j, (c, j) <> (0%nat, k) ->
              cell r1 c j = cell [[1; 2; 0]; [0; 0; 0]] c j)
        /\ rect (2, 3)%nat r1).
Proof.
  apply (make_move_lowest_empty_cell [[1; 2; 0]; [0; 0; 0]] (2, 3)%nat 0 2).
  - split; [reflexivity|].
    repeat (apply List.Forall_cons; [reflexivity|]). apply List.Forall_nil.
  - simpl; lia.
  - simpl; lia.
Defined.

(** X2.  What [_unmake_move] does to a rack of the recorded shape: on a
    column without a disc it returns false and leaves the rack as it is;
    otherwise it empties the highest occupied cell of the column, every
    other cell keeps its value and the shape is kept. *)
Theorem unmake_move_highest_disc (r : rack) (sh : shape) (col : nat) :
  rect sh r -> (col < fst sh)%nat ->
  ((forall j, (j < snd sh)%nat -> cell r col j = 0)
   /\ unmake_move r col sh = (false, r))
  \/ (exists k r1,
        unmake_move r col sh = (true, r1)
        /\ (k < snd sh)%nat /\ cell r col k <> 0
        /\ (forall j, (k < j < snd sh)%nat -> cell r col j = 0)
        /\ cell r1 col k = 0
        /\ (forall c j, (c, j) <> (col, k) -> cell r1 c j = cell r c j)
        /\ rect sh r1).
Proof.
  intros Hrect Hc.
  assert (Hcases : (forall j, (j < snd sh)%nat -> cell r col j = 0)
                   \/ exists j, (j < snd sh)%nat /\ cell r col j <> 0).
  { generalize (snd sh). induction n as [|n [Hall | (j & Hj & Hnz)]].
    - left. intros j Hj. lia.
    - destruct (Z.eq_dec (cell r col n) 0) as [Hz | Hn].
      + left. intros j Hj.
        destruct (Nat.eq_dec j n) as [-> | Hne]; [done | apply Hall; lia].
      + right. exists n. split; [lia | done].
    - right. exists j. split; [lia | done]. }
  destruct Hcases as [Hall | Hsome].
  - left. split; [done|]. by apply unmake_move_scan_empty.
  - right. destruct (highest_disc r col (snd sh) Hsome) as (k & Hk & Hnz & Habove).
    exists k, (set_cell r col k 0). repeat split; try done.
    + by apply unmake_move_top.
    + by apply (cell_set_cell_eq r col k 0 sh).
    + intros c j Hne. apply cell_set_cell_ne. congruence.
    + by apply rect_set_cell.
    + by apply rect_set_cell.
Qed.

Lemma unmake_move_highest_disc_witness :
  ((forall j, (j < 3)%nat -> cell [[1; 2; 0]; [0; 0; 0]] 1 j = 0)
   /\ unmake_move [[1; 2; 0]; [0; 0; 0]] 1 (2, 3)%nat
      = (false, [[1; 2; 0]; [0; 0; 0]]))
  \/ (exists k r1,
        unmake_move [[1; 2; 0]; [0; 0; 0]] 1 (2, 3)%nat = (true, r1)
        /\ (k < 3)%nat /\ cell [[1; 2; 0]; [0; 0; 0]] 1 k <> 0
        /\ (forall j, (k < j < 3)%nat -> cell [[1; 2; 0]; [0; 0; 0]] 1 j = 0)
        /\ cell r1 1 k = 0
        /\ (forall c j, (c, j) <> (1%nat, k) ->
              cell r1 c j = cell [[1; 2; 0]; [0; 0; 0]] c j)
        /\ rect (2, 3)%nat r1).
Proof.
  apply (unmake_move_highest_disc [[1; 2; 0]; [0; 0; 0]] (2, 3)%nat 1).
  - split; [reflexivity|].
    repeat (apply List.Forall_cons; [reflexivity|]). apply List.Forall_nil.
  - simpl; lia.
Defined.

Section MoveInvariants.

Implicit Types (r : rack) (col row : nat) (sh : shape) (player : Z).

Lemma unmake_move_cases r sh col :
  ((forall j, (j < snd sh)%nat -> cell r col j = 0)
   /\ unmake_move r col sh = (false, r))
  \/ (exists k, (k < snd sh)%nat /\ cell r col k <> 0
                /\ (forall j, (k < j < snd sh)%nat -> cell r col j = 0)
                /\ unmake_move r col sh = (true, set_cell r col k 0)).
Proof.
  assert (Hcases : (forall j, (j < snd sh)%nat -> cell r col j = 0)
                   \/ exists j, (j < snd sh)%nat /\ cell r col j <> 0).
  { generalize (snd sh). induction n as [|n [Hall | (j & Hj & Hnz)]].
    - left. intros j Hj. lia.
    - destruct (Z.eq_dec (cell r col n) 0) as [Hz | Hn].
      + left. intros j Hj.
        destruct (Nat.eq_dec j n) as [-> | Hne]; [done | apply Hall; lia].
      + right. exists n. split; [lia | done].
    - right. exists j. split; [lia | done]. }
  destruct Hcases as [Hall | Hsome].
  - left. split; [done|]. by apply unmake_move_scan_empty.
  - right. destruct (highest_disc r col (snd sh) Hsome) as (k & Hk & Hnz & Habove).
    exists k. repeat split; try done. by apply unmake_move_top.
Qed.

(** On a valid rack the cells above the highest disc of a column are all
    empty, also beyond the top row. *)
Lemma above_highest_empty r sh col k :
  gravity_at r col -> (k < snd sh)%nat ->
  (forall j, (k < j < snd sh)%nat -> cell r col j = 0) ->
  rect sh r ->
  forall j, (k < j)%nat -> cell r col j = 0.
Proof.
  intros Hg Hk Habove Hrect j Hj.
  destruct (Nat.lt_ge_cases j (snd sh)) as [Hlt | Hge]; [apply Habove; lia|].
  unfold cell. apply nth_overflow.
  destruct (nth_in_or_default col r []) as [Hin | ->]; [|simpl; lia].
  destruct Hrect as [_ Hcols]. rewrite List.Forall_forall in Hcols.
  rewrite (Hcols _ Hin). lia.
Qed.

Lemma unmake_move_valid sh r col r1 :
  valid sh r -> (col < fst sh)%nat ->
  unmake_move r col sh = (true, r1) ->
  exists k, (k < snd sh)%nat /\ cell r col k <> 0
            /\ (forall j, (k < j)%nat -> cell r col j = 0)
            /\ (forall j, (j < k)%nat -> cell r col j <> 0)
            /\ r1 = set_cell r col k 0
            /\ valid sh r1 /\ empties r1 = S (empties r).
Proof.
  intros [Hrect Hgrav] Hc Hun.
  pose proof (proj1 (gravity_spec r) Hgrav) as Hg.
  destruct (unmake_move_cases r sh col) as [[_ Hf] | (k & Hk & Hnz & Habove & Ht)];
    [congruence|].
  rewrite Ht in Hun. injection Hun as <-.
  pose proof (above_highest_empty r sh col k (Hg col) Hk Habove Hrect) as Hall.
  exists k. split; [done|]. split; [done|]. split; [done|]. split.
  { intros j Hj Hz. apply Hnz. by apply (Hg col j k). }
  split; [done|]. split; [split|].
  - by apply rect_set_cell.
  - apply gravity_spec. intros col'.
    by apply (gravity_at_cleared r col sh k col').
  - apply (empties_clear r col k (cell r col k)); [|done].
    by apply (cell_lookup_Some sh).
Qed.

Lemma discs_of_zero (column : list Z) :
  discs_of 0 column = 0%nat <-> Forall (fun d => d <> 0) column.
Proof.
  induction column as [|d column IH].
  - split; [intros _; apply List.Forall_nil | done].
  - rewrite discs_of_cons, List.Forall_cons_iff, <- IH.
    destruct (Z.eqb_spec d 0) as [Hd | Hd].
    + split; [lia | intros [Hne _]; contradiction].
    + split; [intros Hsum; split; [done | lia] | intros [_ Hsum]; lia].
Qed.

Lemma empties_zero r :
  empties r = 0%nat <-> Forall (Forall (fun d => d <> 0)) r.
Proof.
  induction r as [|column r IH].
  - split; [intros _; apply List.Forall_nil | done].
  - rewrite empties_cons, List.Forall_cons_iff, <- IH, <- discs_of_zero. lia.
Qed.

Lemma empties_zero_cells sh r :
  rect sh r ->
  empties r = 0%nat <->
  forall col j, (col < fst sh)%nat -> (j < snd sh)%nat -> cell r col j <> 0.
Proof.
  intros Hrect. rewrite empties_zero. split.
  - intros Hall col j Hc Hj.
    pose proof (cell_lookup_Some sh r col j Hrect Hc Hj) as Hcell.
    destruct (r !! col) as [column|] eqn:Hcol; [|done]. simpl in Hcell.
    rewrite Forall_lookup in Hall. specialize (Hall col column Hcol).
    rewrite Forall_lookup in Hall. exact (Hall j _ Hcell).
  - intros Hall. apply Forall_lookup. intros col column Hcol.
    apply Forall_lookup. intros j d Hd.
    pose proof (lookup_lt_Some _ _ _ Hcol) as Hc.
    pose proof (lookup_lt_Some _ _ _ Hd) as Hj.
    rewrite (rect_column sh r col column Hrect Hcol) in Hj.
    destruct Hrect as [Hlen Hcols]. rewrite Hlen in Hc.
    specialize (Hall col j Hc Hj).
    rewrite cell_lookup, Hcol in Hall. simpl in Hall. by rewrite Hd in Hall.
Qed.

End MoveInvariants.

(** X3.  [_make_move] keeps the board well formed: after a successful move
    of a disc on a board of the recorded shape that obeys gravity, the
    board still has that shape and obeys gravity, and it has exactly one
    empty cell less. *)
Theorem make_move_keeps_valid
    (r r1 : rack) (sh : shape) (col : nat) (player : Z) :
  valid sh r -> (col < fst sh)%nat -> (0 < snd sh)%nat -> player <> 0 ->
  make_move r col sh player = (true, r1) ->
  valid sh r1 /\ S (empties r1) = empties r.
Proof.
  intros Hvalid Hc HR Hp Hmake.
  destruct (make_move_valid sh r col player r1 Hvalid Hc HR Hp Hmake)
    as (Hvalid1 & Hless & _).
  by split.
Qed.

Lemma make_move_keeps_valid_witness :
  valid (4, 2)%nat [[1; 0]; [2; 1]; [0; 0]; [0; 0]]
  /\ S (empties [[1; 0]; [2; 1]; [0; 0]; [0; 0]]) = empties small_rack.
Proof.
  apply (make_move_keeps_valid small_rack _ (4, 2)%nat 1 1).
  - valid_by_evaluation.
  - simpl; lia.
  - simpl; lia.
  - discriminate.
  - reflexivity.
Defined.

(** X4.  [_unmake_move] keeps the board well formed: after a successful
    revert on a board of the recorded shape that obeys gravity, the board
    still has that shape and obeys gravity, and it has exactly one empty
    cell more. *)
Theorem unmake_move_keeps_valid (r r1 : rack) (sh : shape) (col : nat) :
  valid sh r -> (col < fst sh)%nat ->
  unmake_move r col sh = (true, r1) ->
  valid sh r1 /\ empties r1 = S (empties r).
Proof.
  intros Hvalid Hc Hun.
  destruct (unmake_move_valid sh r col r1 Hvalid Hc Hun)
    as (k & _ & _ & _ & _ & _ & Hvalid1 & Hmore).
  by split.
Qed.

Lemma unmake_move_keeps_valid_witness :
  valid (4, 2)%nat [[1; 0]; [0; 0]; [0; 0]; [0; 0]]
  /\ empties [[1; 0]; [0; 0]; [0; 0]; [0; 0]] = S (empties small_rack).
Proof.
  apply (unmake_move_keeps_valid small_rack _ (4, 2)%nat 1).
  - valid_by_evaluation.
  - simpl; lia.
  - reflexivity.
Defined.

(** X5.  The round trip in the other order: on a valid board, after
    [_unmake_move] has removed the highest disc of a column, [_make_move]
    of that disc on the same column succeeds and gives back the board from
    before the revert. *)
Theorem unmake_then_make_restores (r r1 : rack) (sh : shape) (col : nat) :
  valid sh r -> (col < fst sh)%nat ->
  unmake_move r col sh = (true, r1) ->
  exists k, (k < snd sh)%nat /\ cell r col k <> 0
            /\ (forall j, (k < j < snd sh)%nat -> cell r col j = 0)
            /\ make_move r1 col sh (cell r col k) = (true, r).
Proof.
  intros Hvalid Hc Hun.
  destruct (unmake_move_valid sh r col r1 Hvalid Hc Hun)
    as (k & Hk & Hnz & Habove & Hbelow & -> & _ & _).
  exists k. split; [done|]. split; [done|].
  split; [intros j Hj; apply Habove; lia|].
  destruct Hvalid as [Hrect _].
  unfold make_move.
  assert (Htop : cell (set_cell r col k 0) col (snd sh - 1) = 0).
  { destruct (Nat.eq_dec (snd sh - 1)%nat k) as [-> | Hne].
    - by apply (cell_set_cell_eq r col k 0 sh).
    - rewrite cell_set_cell_ne by (intros [=]; lia). apply Habove. lia. }
  rewrite Htop. simpl.
  rewrite (make_move_scan_finds _ col _ k).
  - rewrite set_cell_set_cell. by rewrite (set_cell_same r col k sh).
  - lia.
  - by apply (cell_set_cell_eq r col k 0 sh).
  - intros j Hj. rewrite cell_set_cell_ne by (intros [=]; lia).
    apply Hbelow. lia.
Qed.

Lemma unmake_then_make_restores_witness :
  exists k, (k < 2)%nat /\ cell small_rack 1 k <> 0
            /\ (forall j, (k < j < 2)%nat -> cell small_rack 1 j = 0)
            /\ make_move [[1; 0]; [0; 0]; [0; 0]; [0; 0]] 1 (4, 2)%nat
                 (cell small_rack 1 k)
               = (true, small_rack).
Proof.
  apply (unmake_then_make_restores small_rack _ (4, 2)%nat 1).
  - valid_by_evaluation.
  - simpl; lia.
  - reflexivity.
Defined.

(** X6.  Moves in different columns commute: on a rack of the recorded
    shape with two open columns, dropping a disc in the one and then a disc
    in the other gives the same rack as dropping them in the other
    order. *)
Theorem make_move_columns_commute
    (r : rack) (sh : shape) (a b : nat) (p q : Z) :
  rect sh r -> a <> b -> (a < fst sh)%nat -> (b < fst sh)%nat ->
  (0 < snd sh)%nat ->
  cell r a (snd sh - 1) = 0 -> cell r b (snd sh - 1) = 0 ->
  exists ra rb rab,
    make_move r a sh p = (true, ra) /\ make_move r b sh q = (true, rb)
    /\ make_move ra b sh q = (true, rab)
    /\ make_move rb a sh p = (true, rab).
Proof.
  intros Hrect Hab Ha Hb HR Htopa Htopb.
  destruct (make_move_open r a sh p HR Htopa) as (ka & Hka & Hza & Hlowa & Hma).
  destruct (make_move_open r b sh q HR Htopb) as (kb & Hkb & Hzb & Hlowb & Hmb).
  exists (set_cell r a ka p), (set_cell r b kb q),
         (set_cell (set_cell r a ka p) b kb q).
  split; [done|]. split; [done|]. split.
  - unfold make_move.
    rewrite cell_set_cell_ne by (intros [=]; lia). rewrite Htopb. simpl.
    apply make_move_scan_finds; [lia | |].
    + by rewrite cell_set_cell_ne by (intros [=]; lia).
    + intros j Hj. rewrite cell_set_cell_ne by (intros [=]; lia).
      apply Hlowb. lia.
  - assert (set_cell (set_cell r a ka p) b kb q
            = set_cell (set_cell r b kb q) a ka p) as ->.
    { unfold set_cell. by apply list_alter_alter_ne. }
    unfold make_move.
    rewrite cell_set_cell_ne by (intros [=]; lia). rewrite Htopa. simpl.
    apply make_move_scan_finds; [lia | |].
    + by rewrite cell_set_cell_ne by (intros [=]; lia).
    + intros j Hj. rewrite cell_set_cell_ne by (intros [=]; lia).
      apply Hlowa. lia.
Qed.

Lemma make_move_columns_commute_witness :
  exists ra rb rab,
    make_move small_rack 0 (4, 2)%nat 1 = (true, ra)
    /\ make_move small_rack 2 (4, 2)%nat 2 = (true, rb)
    /\ make_move ra 2 (4, 2)%nat 2 = (true, rab)
    /\ make_move rb 0 (4, 2)%nat 1 = (true, rab).
Proof.
  apply (make_move_columns_commute small_rack (4, 2)%nat 0 2 1 2).
  - split; [reflexivity|].
    repeat (apply List.Forall_cons; [reflexivity|]). apply List.Forall_nil.
  - discriminate.
  - simpl; lia.
  - simpl; lia.
  - simpl; lia.
  - reflexivity.
  - reflexivity.
Defined.

(** X7.  On a valid board [_rack_full], which only looks at the top row,
    answers true exactly when the board has no empty cell at all. *)
Theorem rack_full_iff_no_empty_cell (r : rack) (sh : shape) :
  valid sh r -> (0 < snd sh)%nat ->
  (rack_full r sh = true <-> empties r = 0%nat)
  /\ (rack_full r sh = true <->
      forall col j, (col < fst sh)%nat -> (j < snd sh)%nat ->
                    cell r col j <> 0).
Proof.
  intros [Hrect Hgrav] HR.
  pose proof (proj1 (gravity_spec r) Hgrav) as Hg.
  assert (Hcells : rack_full r sh = true <->
            forall col j, (col < fst sh)%nat -> (j < snd sh)%nat ->
                          cell r col j <> 0).
  { rewrite rack_full_true. split.
    - intros Htop col j Hc Hj Hz. apply (Htop col Hc).
      destruct (Nat.eq_dec j (snd sh - 1)%nat) as [<- | Hne]; [done|].
      apply (Hg col j); [lia | done].
    - intros Hall col Hc. apply Hall; [done | lia]. }
  split; [|done]. by rewrite Hcells, (empties_zero_cells sh r Hrect).
Qed.

Lemma rack_full_iff_no_empty_cell_witness :
  (rack_full [[1; 2]; [2; 1]] (2, 2)%nat = true
   <-> empties [[1; 2]; [2; 1]] = 0%nat)
  /\ (rack_full [[1; 2]; [2; 1]] (2, 2)%nat = true <->
      forall col j, (col < 2)%nat -> (j < 2)%nat ->
                    cell [[1; 2]; [2; 1]] col j <> 0).
Proof.
  apply (rack_full_iff_no_empty_cell [[1; 2]; [2; 1]] (2, 2)%nat).
  - valid_by_evaluation.
  - simpl; lia.
Defined.

(** * Further properties of the static evaluator *)

Section EvaluatorFacts.

Variable ID : Z.

Lemma quartet_at_win r q :
  snd (quartet_at ID r q) = true <-> four_in_line r q.
Proof. unfold quartet_at, four_in_line. apply quartet_score_win. Qed.

Lemma quartet_at_win_value r q :
  snd (quartet_at ID r q) = true ->
  quartet_at ID r q
  = (if cell r (q1 q).1 (q1 q).2 =? ID then 1000000000 else -1000000000, true).
Proof. unfold quartet_at. apply quartet_score_win_value. Qed.

Lemma board_state_score_win_line r sh :
  snd (board_state_score ID r sh) = true ->
  exists q, In q (quartets sh) /\ four_in_line r q
            /\ board_state_score ID r sh
               = (if cell r (q1 q).1 (q1 q).2 =? ID
                  then 1000000000 else -1000000000, true).
Proof.
  rewrite board_state_score_evaluate. intros Hwin.
  apply evaluate_win in Hwin as (t & Hin & Ht & ->).
  apply in_map_iff in Hin as (q & <- & Hq).
  exists q. split; [done|]. split; [by apply quartet_at_win|].
  by apply quartet_at_win_value.
Qed.

Lemma board_state_score_line_win r sh q :
  In q (quartets sh) -> four_in_line r q ->
  snd (board_state_score ID r sh) = true.
Proof.
  intros Hq Hline. rewrite board_state_score_evaluate.
  destruct (snd (evaluate _)) eqn:Hno; [done|].
  apply evaluate_no_win in Hno. rewrite List.Forall_forall in Hno.
  rewrite <- (Hno (quartet_at ID r q)) by (by apply in_map).
  by apply quartet_at_win.
Qed.

Lemma quartets_on_board sh q :
  In q (quartets sh) ->
  on_board sh (q1 q) /\ on_board sh (q2 q)
  /\ on_board sh (q3 q) /\ on_board sh (q4 q).
Proof.
  intros Hq. apply in_quartets in Hq.
  unfold on_board.
  destruct Hq as [(i & j & -> & Hi & Hj) | [(i & j & -> & Hi & Hj)
    | [(i & j & -> & Hi & Hj) | (i & j & -> & Hi & Hj)]]]; simpl; lia.
Qed.

Lemma quartet_at_agree r r' sh q :
  (forall c j, (c < fst sh)%nat -> (j < snd sh)%nat ->
               cell r c j = cell r' c j) ->
  In q (quartets sh) -> quartet_at ID r q = quartet_at ID r' q.
Proof.
  intros Hagree Hq.
  destruct (quartets_on_board sh q Hq) as ([? ?] & [? ?] & [? ?] & [? ?]).
  unfold quartet_at. by rewrite !Hagree.
Qed.

End EvaluatorFacts.

(** X8.  [_board_state_score] reports a win exactly when some line of four
    cells on the board holds four equal discs; the result is then 1e9 or
    -1e9, 1e9 only if some such line is the engine's and -1e9 only if some
    such line is not. *)
Theorem board_state_score_win_iff_line (ID : Z) (r : rack) (sh : shape) :
  (snd (board_state_score ID r sh) = true <->
   exists q, In q (quartets sh) /\ four_in_line r q)
  /\ (forall s, board_state_score ID r sh = (s, true) ->
        s = 1000000000 \/ s = -1000000000)
  /\ (board_state_score ID r sh = (1000000000, true) ->
      exists q, In q (quartets sh) /\ four_in_line r q
                /\ cell r (q1 q).1 (q1 q).2 = ID)
  /\ (board_state_score ID r sh = (-1000000000, true) ->
      exists q, In q (quartets sh) /\ four_in_line r q
                /\ cell r (q1 q).1 (q1 q).2 <> ID).
Proof.
  split; [| split; [| split]].
  - split.
    + intros Hwin.
      destruct (board_state_score_win_line ID r sh Hwin) as (q & Hq & Hl & _).
      eauto.
    + intros (q & Hq & Hl). by apply (board_state_score_line_win ID r sh q).
  - intros s Hs.
    destruct (board_state_score_win ID r sh) as [H | H];
      rewrite Hs in *; simpl in *; auto.
  - intros Hs.
    destruct (board_state_score_win_line ID r sh) as (q & Hq & Hl & Hv);
      [by rewrite Hs|].
    exists q. split; [done|]. split; [done|].
    rewrite Hs in Hv.
    destruct (Z.eqb_spec (cell r (q1 q).1 (q1 q).2) ID); [done | discriminate].
  - intros Hs.
    destruct (board_state_score_win_line ID r sh) as (q & Hq & Hl & Hv);
      [by rewrite Hs|].
    exists q. split; [done|]. split; [done|].
    rewrite Hs in Hv.
    destruct (Z.eqb_spec (cell r (q1 q).1 (q1 q).2) ID); [discriminate | done].
Qed.

(** X9.  [_board_state_score] reads only cells of the board: every cell of
    every line it scores has its column below [shape[0]] and its row below
    [shape[1]], and two racks that agree on these cells get the same
    result. *)
Theorem board_state_score_reads_board_only (ID : Z) (sh : shape) :
  (forall r, board_state_score ID r sh
             = evaluate (map (quartet_at ID r) (quartets sh)))
  /\ (forall q, In q (quartets sh) ->
        on_board sh (q1 q) /\ on_board sh (q2 q)
        /\ on_board sh (q3 q) /\ on_board sh (q4 q))
  /\ (forall r r',
        (forall c j, (c < fst sh)%nat -> (j < snd sh)%nat ->
                     cell r c j = cell r' c j) ->
        board_state_score ID r sh = board_state_score ID r' sh).
Proof.
  split; [| split].
  - intros r. apply board_state_score_evaluate.
  - apply quartets_on_board.
  - intros r r' Hagree. rewrite !board_state_score_evaluate. f_equal.
    apply map_ext_in. intros q Hq. by apply (quartet_at_agree ID r r' sh).
Qed.

Section ZeroSum.

Lemma quartet_score_mirrored d1 d2 d3 d4 :
  (d1 = 0 \/ d1 = 1 \/ d1 = 2) -> (d2 = 0 \/ d2 = 1 \/ d2 = 2) ->
  (d3 = 0 \/ d3 = 1 \/ d3 = 2) -> (d4 = 0 \/ d4 = 1 \/ d4 = 2) ->
  quartet_score 2 d1 d2 d3 d4 = mirrored (quartet_score 1 d1 d2 d3 d4).
Proof.
  intros [-> | [-> | ->]] [-> | [-> | ->]] [-> | [-> | ->]] [-> | [-> | ->]];
    reflexivity.
Qed.

Lemma discs_only_cell r c j :
  discs_only r = true -> cell r c j = 0 \/ cell r c j = 1 \/ cell r c j = 2.
Proof.
  intros Hall. unfold discs_only in Hall. rewrite forallb_forall in Hall.
  unfold cell.
  destruct (nth_in_or_default c r []) as [Hin | ->]; [|by left; destruct j].
  specialize (Hall _ Hin). rewrite forallb_forall in Hall.
  destruct (nth_in_or_default j (nth c r []) 0) as [Hin' | ->]; [|by left].
  specialize (Hall _ Hin').
  rewrite !orb_true_iff, !Z.eqb_eq in Hall. tauto.
Qed.

Lemma find_mirrored (l : list (Z * bool)) :
  find snd (map mirrored l) = option_map mirrored (find snd l).
Proof.
  induction l as [|[s w] l IH]; [done|]. simpl. by destruct w.
Qed.

Lemma total_mirrored (l : list (Z * bool)) :
  total (map mirrored l) = - total l.
Proof.
  unfold total. induction l as [|[s w] l IH]; [done|]. simpl in *. lia.
Qed.

Lemma evaluate_mirrored (l : list (Z * bool)) :
  evaluate (map mirrored l) = mirrored (evaluate l).
Proof.
  unfold evaluate. rewrite find_mirrored.
  destruct (find snd l); simpl; [done|].
  by rewrite total_mirrored.
Qed.

Lemma total_all_zero (l : list (Z * bool)) :
  Forall (fun t => t = (0, false)) l -> evaluate l = (0, false).
Proof.
  intros Hall. rewrite evaluate_total.
  - f_equal. unfold total.
    induction Hall as [|t l -> _ IH]; [done|]. simpl. by rewrite IH.
  - eapply List.Forall_impl; [|exact Hall]. by intros t ->.
Qed.

Lemma cell_empty_rack sh c j : cell (empty_rack sh) c j = 0.
Proof.
  rewrite cell_lookup. unfold empty_rack.
  destruct (replicate (fst sh) (replicate (snd sh) 0) !! c) as [column|] eqn:Hc;
    [|done].
  apply lookup_replicate in Hc as [-> _]. simpl.
  destruct (replicate (snd sh) 0 !! j) as [d|] eqn:Hj; [|done].
  by apply lookup_replicate in Hj as [-> _].
Qed.

End ZeroSum.

(** X10.  The evaluation is zero-sum in the engine's identity: on a board
    whose cells are 0, 1 or 2, the result for the engine with id 2 is the
    result for the engine with id 1 with the score negated and the same win
    flag. *)
Theorem board_state_score_zero_sum (r : rack) (sh : shape) :
  discs_only r = true ->
  board_state_score 2 r sh
  = (- fst (board_state_score 1 r sh), snd (board_state_score 1 r sh)).
Proof.
  intros Hdiscs. rewrite !board_state_score_evaluate.
  change (- fst ?t, snd ?t) with (mirrored t).
  rewrite <- evaluate_mirrored, map_map. f_equal.
  apply map_ext. intros q. unfold quartet_at.
  apply quartet_score_mirrored; by apply discs_only_cell.
Qed.

Lemma board_state_score_zero_sum_witness :
  board_state_score 2 three_rack (7, 6)%nat
  = (- fst (board_state_score 1 three_rack (7, 6)%nat),
     snd (board_state_score 1 three_rack (7, 6)%nat)).
Proof.
  apply (board_state_score_zero_sum three_rack (7, 6)%nat). reflexivity.
Defined.

(** X11.  A board without a disc scores 0 and is no win, whatever its shape
    and the engine's id; this holds for [empty_rack] and for every rack all
    of whose cells read 0. *)
Theorem board_state_score_no_disc (ID : Z) (sh : shape) :
  board_state_score ID (empty_rack sh) sh = (0, false)
  /\ (forall r, (forall c j, cell r c j = 0) ->
        board_state_score ID r sh = (0, false)).
Proof.
  assert (Hzero : forall r, (forall c j, cell r c j = 0) ->
                    board_state_score ID r sh = (0, false)).
  { intros r Hall. rewrite board_state_score_evaluate.
    apply total_all_zero. apply List.Forall_forall. intros t Hin.
    apply in_map_iff in Hin as (q & <- & _).
    unfold quartet_at. by rewrite !Hall. }
  split; [|exact Hzero].
  apply Hzero. intros c j. apply cell_empty_rack.
Qed.

(** X12.  The values [_quartet_score] can return, for arbitrary integers in
    the cells: the win flag is set exactly when the four cells hold the
    same non-zero value, the score is then 1e9 if that value is the
    engine's id and -1e9 otherwise, and without a win the score is one of
    0, 1, -1, 10, -10, 100 and -100. *)
Theorem quartet_score_values (ID d1 d2 d3 d4 : Z) :
  (snd (quartet_score ID d1 d2 d3 d4) = true <->
   d1 <> 0 /\ d1 = d2 /\ d2 = d3 /\ d3 = d4)
  /\ (snd (quartet_score ID d1 d2 d3 d4) = true ->
      fst (quartet_score ID d1 d2 d3 d4)
      = if d1 =? ID then 1000000000 else -1000000000)
  /\ (snd (quartet_score ID d1 d2 d3 d4) = false ->
      In (fst (quartet_score ID d1 d2 d3 d4)) [0; 1; -1; 10; -10; 100; -100]).
Proof.
  split; [apply quartet_score_win | split].
  - intros Hwin. by rewrite (quartet_score_win_value ID d1 d2 d3 d4 Hwin).
  - unfold quartet_score.
    destruct ((d1 =? d2) && (d2 =? d3) && (d3 =? d4)).
    + split_ifs; intros; try discriminate; auto.
    + destruct (_ && _); simpl; [auto|].
      destruct (d1 =? 0), (d2 =? 0), (d3 =? 0), (d4 =? 0); simpl;
        split_ifs; intros _; tauto.
Qed.

Section QuartetSymmetry.

Variable ID : Z.

(** [_quartet_score] with the count of empty cells written as a sum. *)
Lemma quartet_score_normal d1 d2 d3 d4 :
  quartet_score ID d1 d2 d3 d4 =
  if (d1 =? d2) && (d2 =? d3) && (d3 =? d4) then
    if d1 =? 0 then (0, false)
    else if d1 =? ID then (1000000000, true) else (-1000000000, true)
  else if ((d1 =? 1) || (d2 =? 1) || (d3 =? 1) || (d4 =? 1))
          && ((d1 =? 2) || (d2 =? 2) || (d3 =? 2) || (d4 =? 2))
  then (0, false)
  else
    let pid :=
      if (d1 =? 1) || (d2 =? 1) || (d3 =? 1) || (d4 =? 1) then 1 else 2 in
    let zeros := list_sum (map (fun d => if d =? 0 then 1%nat else 0%nat)
                               [d1; d2; d3; d4]) in
    if (zeros =? 3)%nat then if pid =? ID then (1, false) else (-1, false)
    else if (zeros =? 2)%nat then
      if pid =? ID then (10, false) else (-10, false)
    else if pid =? ID then (100, false) else (-100, false).
Proof.
  unfold quartet_score.
  destruct ((d1 =? d2) && (d2 =? d3) && (d3 =? d4)); [done|].
  destruct (_ && _); [done|].
  cbv zeta. cbv [list_sum map fold_right]. cbv beta.
  destruct (d1 =? 0), (d2 =? 0), (d3 =? 0), (d4 =? 0); reflexivity.
Qed.

Lemma all_same_in (d1 d2 d3 d4 : Z) :
  (d1 = d2 /\ d2 = d3 /\ d3 = d4) <->
  forall x y, In x [d1; d2; d3; d4] -> In y [d1; d2; d3; d4] -> x = y.
Proof.
  split.
  - intros (<- & <- & <-) x y Hx Hy. simpl in *. intuition congruence.
  - intros Hall. repeat split; apply Hall; simpl; auto.
Qed.

Lemma list_sum_permutation (l l' : list nat) :
  Permutation l l' -> list_sum l = list_sum l'.
Proof.
  induction 1 as [| x l l' _ IH | x y l | l l' l'' _ IH1 _ IH2]; simpl; lia.
Qed.

End QuartetSymmetry.

(** X13.  [_quartet_score] depends only on which discs the quartet holds,
    not on their order: two quartets that are rearrangements of each other
    get the same result; in particular a line read in the opposite
    direction scores the same. *)
Theorem quartet_score_order_free (ID d1 d2 d3 d4 e1 e2 e3 e4 : Z) :
  Permutation [d1; d2; d3; d4] [e1; e2; e3; e4] ->
  quartet_score ID d1 d2 d3 d4 = quartet_score ID e1 e2 e3 e4.
Proof.
  intros Hperm.
  assert (Hin : forall x, In x [d1; d2; d3; d4] <-> In x [e1; e2; e3; e4]).
  { intros x. split; apply Permutation_in; [done | by symmetry]. }
  assert (Hany : forall x,
            (d1 =? x) || (d2 =? x) || (d3 =? x) || (d4 =? x)
            = (e1 =? x) || (e2 =? x) || (e3 =? x) || (e4 =? x)).
  { intros x. apply eq_iff_eq_true. by rewrite !any_disc_spec. }
  assert (Hsame : (d1 =? d2) && (d2 =? d3) && (d3 =? d4)
                  = (e1 =? e2) && (e2 =? e3) && (e3 =? e4)).
  { apply eq_iff_eq_true. rewrite !all_same_spec, !all_same_in.
    split; intros Hall x y Hx Hy; apply Hall; by apply Hin. }
  rewrite !quartet_score_normal, <- Hsame, <- !Hany.
  rewrite <- (list_sum_permutation _ _
                (Permutation_map (fun d => if d =? 0 then 1%nat else 0%nat)
                                 Hperm)).
  destruct ((d1 =? d2) && (d2 =? d3) && (d3 =? d4)) eqn:Hd; [|done].
  apply all_same_spec in Hd. pose proof (proj1 (all_same_in _ _ _ _) Hd) as Hall.
  assert (e1 = d1) as -> by (apply Hall; [apply Hin|]; simpl; auto).
  done.
Qed.

Lemma quartet_score_order_free_witness :
  quartet_score 1 0 2 2 0 = quartet_score 1 2 0 0 2.
Proof.
  apply (quartet_score_order_free 1 0 2 2 0 2 0 0 2).
  apply (Permutation_trans (l' := [2; 0; 2; 0])).
  - apply perm_swap.
  - apply perm_skip, perm_skip, perm_swap.
Defined.

Section Enumeration.

Lemma length_grid cols rows line :
  length (grid cols rows line) = (length cols * length rows)%nat.
Proof.
  unfold grid. induction cols as [|i cols IH]; [done|].
  simpl. rewrite length_app, length_map, IH. lia.
Qed.

Lemma NoDup_map_injective {A B} (f : A -> B) (l : list A) :
  (forall x y, f x = f y -> x = y) -> List.NoDup l -> List.NoDup (map f l).
Proof.
  intros Hinj. induction 1 as [|x l Hx Hl IH]; simpl; constructor; [|done].
  rewrite in_map_iff. intros (y & Heq & Hy).
  apply Hinj in Heq as ->. by apply Hx.
Qed.

Lemma NoDup_grid cols rows line :
  List.NoDup cols -> List.NoDup rows ->
  (forall i j i' j', line i j = line i' j' -> i = i' /\ j = j') ->
  List.NoDup (grid cols rows line).
Proof.
  intros Hcols Hrows Hinj. unfold grid.
  induction Hcols as [|i cols Hi Hcols IH]; simpl; [constructor|].
  apply List.NoDup_app; [| exact IH |].
  - apply NoDup_map_injective; [|done].
    intros j j' Heq. by apply Hinj in Heq as [_ ->].
  - intros q Hq Hq'. apply in_map_iff in Hq as (j & <- & Hj).
    apply in_flat_map in Hq' as (i' & Hi' & Hq').
    apply in_map_iff in Hq' as (j' & Heq & Hj').
    apply Hinj in Heq as [-> _]. by apply Hi.
Qed.

Lemma NoDup_vertical_lines sh : List.NoDup (vertical_lines sh).
Proof.
  unfold vertical_lines. destruct (3 <? snd sh)%nat; [|constructor].
  apply NoDup_grid; try apply seq_NoDup.
  intros i j i' j' [= -> ->]. done.
Qed.

Lemma NoDup_horizontal_lines sh : List.NoDup (horizontal_lines sh).
Proof.
  unfold horizontal_lines. destruct (3 <? fst sh)%nat; [|constructor].
  apply NoDup_grid; try apply seq_NoDup.
  intros i j i' j' [= -> ->]. done.
Qed.

Lemma NoDup_diagonal_lines sh : List.NoDup (diagonal_lines sh).
Proof.
  unfold diagonal_lines.
  destruct ((3 <? fst sh)%nat && (3 <? snd sh)%nat); [|constructor].
  apply List.NoDup_app.
  - apply NoDup_grid; try apply seq_NoDup.
    intros i j i' j' [= -> ->]. done.
  - apply NoDup_grid; try apply seq_NoDup.
    intros i j i' j' [= -> ->]. done.
  - intros q Hq Hq'.
    apply in_grid in Hq as (i & j & _ & _ & ->).
    apply in_grid in Hq' as (i' & j' & _ & _ & Heq).
    injection Heq as -> -> Heq _. lia.
Qed.

Lemma NoDup_quartets sh : List.NoDup (quartets sh).
Proof.
  unfold quartets.
  apply List.NoDup_app; [apply NoDup_vertical_lines | |].
  - apply List.NoDup_app;
      [apply NoDup_horizontal_lines | apply NoDup_diagonal_lines |].
    intros q Hq Hq'.
    apply in_horizontal_lines in Hq as (i & j & -> & _ & _).
    apply in_diagonal_lines in Hq'
      as [(i' & j' & Heq & _ & _) | (i' & j' & Heq & _ & _)];
      injection Heq as -> -> _ Heq; lia.
  - intros q Hq Hq'.
    apply in_vertical_lines in Hq as (i & j & -> & _ & _).
    apply in_app_iff in Hq' as [Hq' | Hq'].
    + apply in_horizontal_lines in Hq' as (i' & j' & Heq & _ & _).
      injection Heq as -> -> Heq _. lia.
    + apply in_diagonal_lines in Hq'
        as [(i' & j' & Heq & _ & _) | (i' & j' & Heq & Hi' & _)];
        injection Heq as -> -> Heq _; lia.
Qed.

Lemma length_quartets sh :
  length (quartets sh)
  = (fst sh * (snd sh - 3) + (fst sh - 3) * snd sh
     + 2 * ((fst sh - 3) * (snd sh - 3)))%nat.
Proof.
  unfold quartets, vertical_lines, horizontal_lines, diagonal_lines.
  rewrite !length_app.
  destruct (Nat.ltb_spec 3 (fst sh)) as [HC | HC],
           (Nat.ltb_spec 3 (snd sh)) as [HR | HR]; simpl;
    rewrite ?length_app, ?length_grid, ?length_seq; simpl; nia.
Qed.

End Enumeration.

(** X14.  [_board_state_score] scores every line of four cells of the
    board once: the quartets it tallies are pairwise different, and on a
    board of [C] columns and [R] rows there are
    [C*(R-3) + (C-3)*R + 2*(C-3)*(R-3)] of them (each difference is 0 when
    the board is too small), 69 on the 7 by 6 board. *)
Theorem board_state_score_counts_each_line_once (ID : Z) (sh : shape) :
  (forall r, board_state_score ID r sh
             = evaluate (map (quartet_at ID r) (quartets sh)))
  /\ List.NoDup (quartets sh)
  /\ length (quartets sh)
     = (fst sh * (snd sh - 3) + (fst sh - 3) * snd sh
        + 2 * ((fst sh - 3) * (snd sh - 3)))%nat
  /\ length (quartets (7, 6)%nat) = 69%nat.
Proof.
  split; [intros r; apply board_state_score_evaluate|].
  split; [apply NoDup_quartets|].
  split; [apply length_quartets | reflexivity].
Qed.

(** X15.  Without a win the aggregate score of [_board_state_score] is at
    most 100 per line of four in magnitude; on the 7 by 6 board it stays
    within 6900, far below the 1e9 of a win. *)
Theorem board_state_score_aggregate_bound (ID : Z) (r : rack) (sh : shape) :
  snd (board_state_score ID r sh) = false ->
  - (100 * Z.of_nat (fst sh * (snd sh - 3) + (fst sh - 3) * snd sh
                     + 2 * ((fst sh - 3) * (snd sh - 3))))
  <= fst (board_state_score ID r sh)
  <= 100 * Z.of_nat (fst sh * (snd sh - 3) + (fst sh - 3) * snd sh
                     + 2 * ((fst sh - 3) * (snd sh - 3))).
Proof.
  intros Hno. rewrite <- length_quartets.
  by apply board_state_score_bound.
Qed.

Lemma board_state_score_aggregate_bound_witness :
  -6900 <= fst (board_state_score 1 three_rack (7, 6)%nat) <= 6900.
Proof.
  apply (board_state_score_aggregate_bound 1 three_rack (7, 6)%nat).
  reflexivity.
Defined.

(** * Further properties of the search *)

Section Budget.

Variable ID : Z.
Variable MAX_PLIES : Z.

Lemma minimax_columns_mono (rec rec' : rack -> option (Q * rack)) sh player :
  (forall r x, rec r = Some x -> rec' r = Some x) ->
  forall n i r high low y,
    minimax_columns rec sh player i n r high low = Some y ->
    minimax_columns rec' sh player i n r high low = Some y.
Proof.
  intros Hmono. induction n as [|n IH]; intros i r high low y; [done|].
  simpl. destruct (make_move r i sh player) as [[|] r1]; [|apply IH].
  destruct (rec r1) as [[score r2]|] eqn:Hrec; [|discriminate].
  rewrite (Hmono _ _ Hrec). apply IH.
Qed.

(** A larger recursion budget does not change a result. *)
Lemma minimax_more_fuel sh fuel :
  forall r ply x,
    minimax ID MAX_PLIES fuel r sh ply = Some x ->
    minimax ID MAX_PLIES (S fuel) r sh ply = Some x.
Proof.
  induction fuel as [|fuel IH]; intros r ply x; [discriminate|].
  rewrite !minimax_step. cbv zeta.
  destruct (snd (board_state_score ID r sh)); [done|].
  destruct (rack_full r sh); [done|].
  destruct (Z.pos ply =? MAX_PLIES); [done|].
  destruct (minimax_columns (deeper ID MAX_PLIES sh fuel ply) _ _ _ _ _ _ _)
    as [y|] eqn:Hloop; [|discriminate].
  apply (minimax_columns_mono _ (deeper ID MAX_PLIES sh (S fuel) ply)) in Hloop.
  - by rewrite Hloop.
  - intros r' x'. apply IH.
Qed.

Lemma minimax_fuel_le sh fuel fuel' r ply x :
  (fuel <= fuel')%nat ->
  minimax ID MAX_PLIES fuel r sh ply = Some x ->
  minimax ID MAX_PLIES fuel' r sh ply = Some x.
Proof.
  induction 1 as [|fuel' _ IH]; [done|].
  intros Hx. by apply minimax_more_fuel, IH.
Qed.

End Budget.

(** X16.  [_minimax] leaves the working board as it found it: on a valid
    board, for an engine whose id is a disc, the search returns a value
    together with the very rack it was called on, whatever the ply and the
    ply budget; the value is the same for every recursion budget of the
    model above the number of empty cells. *)
Theorem minimax_restores_rack
    (ID MAX_PLIES : Z) (sh : shape) (r : rack) (ply : positive) :
  valid sh r -> (0 < snd sh)%nat -> ID <> 0 ->
  exists v, forall fuel, (empties r < fuel)%nat ->
              minimax ID MAX_PLIES fuel r sh ply = Some (v, r).
Proof.
  intros Hvalid HR HID.
  destruct (minimax_total ID MAX_PLIES sh HR HID (S (empties r)) r ply Hvalid)
    as [v Hv]; [lia|].
  exists v. intros fuel Hfuel.
  apply (minimax_fuel_le ID MAX_PLIES sh (S (empties r))); [lia | done].
Qed.

Lemma minimax_restores_rack_witness :
  exists v, forall fuel, (empties small_rack < fuel)%nat ->
              minimax 1 3 fuel small_rack (4, 2)%nat 1 = Some (v, small_rack).
Proof.
  apply (minimax_restores_rack 1 3 (4, 2)%nat small_rack 1).
  - valid_by_evaluation.
  - simpl; lia.
  - discriminate.
Defined.

(** X17.  The values of [_minimax] stay away from the two sentinels: on a
    valid board whose aggregate scores are at most [M] in magnitude, with
    [1e9 / p0 <= M < 1e10], every value returned at a ply from [p0] on lies
    between [-M] and [M]; so no value exceeds 1e9 in magnitude on a board
    with at most 10^7 lines, and from ply 2 on none exceeds 5e8. *)
Theorem minimax_value_range
    (ID MAX_PLIES : Z) (sh : shape) (M : Z) (p0 : positive)
    (fuel : nat) (r : rack) (ply : positive) :
  valid sh r -> (0 < snd sh)%nat -> ID <> 0 ->
  score_bound sh <= M -> 1000000000 <= M * Z.pos p0 -> M < 10000000000 ->
  (empties r < fuel)%nat -> (p0 <= ply)%positive ->
  exists v, minimax ID MAX_PLIES fuel r sh ply = Some (v, r)
            /\ (inject_Z (- M) <= v <= inject_Z M)%Q
            /\ (inject_Z (-10000000000) < v < inject_Z 10000000000)%Q.
Proof.
  intros Hvalid HR HID Hheur Hwin Hsent Hfuel Hply.
  destruct (minimax_sound ID MAX_PLIES sh HR HID M p0 Hheur Hwin Hsent
              fuel r ply Hvalid Hfuel Hply) as (v & Hv & Hrange).
  exists v. split; [done|]. split; [exact Hrange|]. split.
  - exact (sentinel_low M Hsent v Hrange).
  - exact (sentinel_high M Hsent v Hrange).
Qed.

Lemma minimax_value_range_witness :
  exists v, minimax 1 3 7 small_rack (4, 2)%nat 2 = Some (v, small_rack)
            /\ (inject_Z (- 500000000) <= v <= inject_Z 500000000)%Q
            /\ (inject_Z (-10000000000) < v < inject_Z 10000000000)%Q.
Proof.
  apply (minimax_value_range 1 3 (4, 2)%nat 500000000 2 7 small_rack 2).
  - valid_by_evaluation.
  - simpl; lia.
  - discriminate.
  - vm_compute; discriminate.
  - lia.
  - lia.
  - vm_compute; lia.
  - lia.
Defined.

Section PastBudget.

Variable ID : Z.
Variable MAX_PLIES : Z.
Variable sh : shape.

Hypothesis rows : (0 < snd sh)%nat.
Hypothesis engine : ID <> 0.

Local Open Scope Q_scope.

Lemma decided_value_later ply v :
  decided_value (ply + 1) v -> decided_value ply v.
Proof.
  intros [-> | (q & Hq & Hv)]; [by left|].
  right. exists q. split; [lia | done].
Qed.

Lemma decided_value_between ply v :
  decided_value ply v ->
  inject_Z (-10000000000) < v < inject_Z 10000000000.
Proof.
  intros [-> | (q & _ & [-> | ->])]; unfold Qlt; simpl; lia.
Qed.

(** Past the ply budget the search never stops at a heuristic value. *)
Lemma minimax_past_budget fuel :
  forall r ply, valid sh r -> (empties r < fuel)%nat ->
    (MAX_PLIES < Z.pos ply)%Z ->
    exists v, minimax ID MAX_PLIES fuel r sh ply = Some (v, r)
              /\ decided_value ply v.
Proof.
  induction fuel as [|fuel IH]; intros r ply Hvalid Hfuel Hply; [lia|].
  rewrite minimax_step. cbv zeta.
  destruct (snd (board_state_score ID r sh)) eqn:Hwin.
  { eexists. split; [reflexivity|]. right. exists ply. split; [lia|].
    destruct (board_state_score_win ID r sh Hwin) as [-> | ->]; auto. }
  destruct (rack_full r sh) eqn:Hfull.
  { eexists. split; [reflexivity|]. by left. }
  destruct (Z.eqb_spec (Z.pos ply) MAX_PLIES) as [Heq | _]; [lia|].
  assert (Hrec : forall i r1, (i < fst sh)%nat ->
            make_move r i sh (mover ID ply) = (true, r1) ->
            exists v, deeper ID MAX_PLIES sh fuel ply r1 = Some (v, r1)
                      /\ decided_value (ply + 1) v).
  { intros i r1 Hi Hmake.
    destruct (make_move_valid sh r i _ r1 Hvalid Hi rows
                (mover_disc ID engine ply) Hmake) as (Hvalid1 & Hless & _).
    apply IH; [done | lia | lia]. }
  rewrite (minimax_columns_children _ sh _ rows (mover_disc ID engine ply)
             r Hvalid); [| | lia].
  2:{ intros i r1 Hi Hmake.
      destruct (Hrec i r1 Hi Hmake) as (v & Hv & _). eauto. }
  set (scores := children (deeper ID MAX_PLIES sh fuel ply) sh (mover ID ply)
                          r (seq 0 (fst sh))).
  assert (Hall : forall v, In v scores -> decided_value (ply + 1) v).
  { intros v Hin. apply in_children in Hin as (i & Hi & Hchild).
    apply (child_Some sh) in Hchild as (r1 & r' & Hmake & Hv).
    apply in_seq in Hi.
    destruct (Hrec i r1 ltac:(lia) Hmake) as (v' & Hv' & Hd). congruence. }
  assert (Hsome : exists v, In v scores).
  { apply rack_full_false in Hfull as (col & Hcol & Htop).
    destruct (make_move_open r col sh (mover ID ply) rows Htop)
      as (k & _ & _ & _ & Hmake).
    destruct (Hrec col _ Hcol Hmake) as (v & Hv & _).
    exists v. apply in_children. exists col. split; [apply in_seq; lia|].
    apply (child_Some sh). eauto. }
  destruct Hsome as [v0 Hv0].
  destruct (negb (ID =? mover ID ply)); eexists; (split; [reflexivity|]);
    apply decided_value_later, Hall.
  - apply (fold_lower_attained scores _ v0 Hv0).
    by apply (decided_value_between (ply + 1)), Hall.
  - apply (fold_raise_attained scores _ v0 Hv0).
    by apply (decided_value_between (ply + 1)), Hall.
Qed.

End PastBudget.

(** X18.  A search that is already past its ply budget (in particular any
    search of an engine built with a budget of 0 or less) never cuts off:
    on a valid board its value is never a heuristic total but 0 for a draw
    or plus or minus 1e9 divided by the ply, at or after the current one,
    at which a line of four is found. *)
Theorem minimax_past_budget_plays_to_the_end
    (ID MAX_PLIES : Z) (sh : shape) (fuel : nat) (r : rack) (ply : positive) :
  valid sh r -> (0 < snd sh)%nat -> ID <> 0 ->
  MAX_PLIES < Z.pos ply -> (empties r < fuel)%nat ->
  exists v, minimax ID MAX_PLIES fuel r sh ply = Some (v, r)
            /\ decided_value ply v.
Proof.
  intros Hvalid HR HID Hply Hfuel.
  by apply (minimax_past_budget ID MAX_PLIES sh HR HID).
Qed.

Lemma minimax_past_budget_plays_to_the_end_witness :
  exists v, minimax 1 0 7 small_rack (4, 2)%nat 1 = Some (v, small_rack)
            /\ decided_value 1 v.
Proof.
  apply (minimax_past_budget_plays_to_the_end 1 0 (4, 2)%nat 7 small_rack 1).
  - valid_by_evaluation.
  - simpl; lia.
  - discriminate.
  - lia.
  - vm_compute; lia.
Defined.

(** X19.  Whatever the size of the board, [pick_move] on a valid board
    returns [None] exactly when [_rack_full] holds, and otherwise a column
    index below the number of columns. *)
Theorem pick_move_column_in_range
    (ID MAX_PLIES : Z) (sh : shape) (fuel : nat)
    (st : gmap positive rack) (ref : positive) (r : rack) :
  st !! ref = Some r -> valid sh r ->
  (0 < fst sh)%nat -> (0 < snd sh)%nat -> ID <> 0 ->
  (empties r <= fuel)%nat ->
  exists result st',
    pick_move ID MAX_PLIES fuel st ref = Some (result, st')
    /\ (result = None <-> rack_full r sh = true)
    /\ (forall c, result = Some c -> (c < fst sh)%nat).
Proof.
  intros Href Hvalid HC HR HID Hfuel.
  rewrite (pick_move_store ID MAX_PLIES fuel st ref r sh Href (proj1 Hvalid) HC).
  rewrite (pick_move_on_fold ID MAX_PLIES sh HR HID fuel r Hvalid Hfuel).
  destruct (rack_full r sh).
  - eexists _, _. split; [reflexivity|]. split; [done | discriminate].
  - destruct (fold_left choose _ _) as [c s] eqn:Hfold.
    eexists _, _. split; [reflexivity|]. split; [split; discriminate|].
    intros c' [= <-]. simpl.
    apply fold_choose in Hfold as (_ & _ & [[-> _] | (Hc & _)]); lia.
Qed.

Lemma pick_move_column_in_range_witness :
  exists result st',
    pick_move 1 2 6 small_store 1 = Some (result, st')
    /\ (result = None <-> rack_full small_rack (4, 2)%nat = true)
    /\ (forall c, result = Some c -> (c < 4)%nat).
Proof.
  apply (pick_move_column_in_range 1 2 (4, 2)%nat 6 small_store 1 small_rack).
  - reflexivity.
  - valid_by_evaluation.
  - simpl; lia.
  - simpl; lia.
  - discriminate.
  - vm_compute; lia.
Defined.

(** X20.  [pick_move] takes a win when there is one, on any board and for
    any ply budget: on a valid board without a line of four whose aggregate
    scores stay within 5e8, if the engine's disc in some column completes a
    line of four, [pick_move] returns the leftmost such column. *)
Theorem pick_move_takes_immediate_win
    (ID MAX_PLIES : Z) (sh : shape) (fuel : nat)
    (st : gmap positive rack) (ref : positive) (r : rack) (w : nat) :
  st !! ref = Some r -> valid sh r ->
  (0 < fst sh)%nat -> (0 < snd sh)%nat -> ID <> 0 ->
  score_bound sh <= 500000000 -> (empties r <= fuel)%nat ->
  snd (board_state_score ID r sh) = false ->
  (w < fst sh)%nat -> immediate_win ID sh r w = true ->
  exists c st',
    pick_move ID MAX_PLIES fuel st ref = Some (Some c, st')
    /\ (c <= w)%nat
    /\ immediate_win ID sh r c = true
    /\ (forall j, (j < c)%nat -> immediate_win ID sh r j = false).
Proof.
  intros Href Hvalid HC HR HID Hsmall Hfuel Hno Hw Hwin.
  destruct (pick_move_on_immediate_win ID MAX_PLIES sh HR HID Hsmall fuel r w
              Hvalid Hfuel Hno Hw Hwin) as (c & Hpick & Hc & Hwc & Hleft).
  rewrite (pick_move_store ID MAX_PLIES fuel st ref r sh Href (proj1 Hvalid) HC),
    Hpick.
  exists c. eexists. split; [reflexivity|]. auto.
Qed.

Lemma pick_move_takes_immediate_win_witness :
  exists c st',
    pick_move 2 3 6 {[ 1%positive := [[2; 0]; [2; 0]; [2; 1]; [0; 0]; [1; 1]] ]} 1
    = Some (Some c, st')
    /\ (c <= 3)%nat
    /\ immediate_win 2 (5, 2)%nat [[2; 0]; [2; 0]; [2; 1]; [0; 0]; [1; 1]] c
       = true
    /\ (forall j, (j < c)%nat ->
          immediate_win 2 (5, 2)%nat [[2; 0]; [2; 0]; [2; 1]; [0; 0]; [1; 1]] j
          = false).
Proof.
  apply (pick_move_takes_immediate_win 2 3 (5, 2)%nat 6
           {[ 1%positive := [[2; 0]; [2; 0]; [2; 1]; [0; 0]; [1; 1]] ]} 1
           [[2; 0]; [2; 0]; [2; 1]; [0; 0]; [1; 1]] 3).
  - reflexivity.
  - valid_by_evaluation.
  - simpl; lia.
  - simpl; lia.
  - discriminate.
  - vm_compute; discriminate.
  - vm_compute; lia.
  - reflexivity.
  - simpl; lia.
  - reflexivity.
Defined.

(** * Blocking a threat *)

Section Threat.

Variable ID : Z.
Variable MAX_PLIES : Z.
Variable sh : shape.

Hypothesis rows : (0 < snd sh)%nat.
Hypothesis engine : ID = 1 \/ ID = 2.

Local Open Scope Q_scope.

Lemma engine_disc : ID <> 0%Z.
Proof. lia. Qed.

Lemma opponent_disc : opponent ID <> 0%Z.
Proof. unfold opponent. by destruct (ID =? 1)%Z. Qed.

Lemma opponent_other : opponent ID <> ID.
Proof.
  unfold opponent. destruct engine as [-> | ->]; simpl; lia.
Qed.

Lemma mover_first : mover ID 1 = opponent ID.
Proof. reflexivity. Qed.

(** The win flag does not depend on the engine's id. *)
Lemma win_flag_any_id ID1 ID2 r :
  snd (board_state_score ID1 r sh) = snd (board_state_score ID2 r sh).
Proof.
  apply eq_iff_eq_true. split; intros Hwin.
  - destruct (board_state_score_win_line _ r sh Hwin) as (q & Hq & Hl & _).
    by apply (board_state_score_line_win ID2 r sh q).
  - destruct (board_state_score_win_line _ r sh Hwin) as (q & Hq & Hl & _).
    by apply (board_state_score_line_win ID1 r sh q).
Qed.

(** On a board without a line of four, a line of four present after a disc
    is placed belongs to that disc. *)
Lemma placed_win_value ID1 r col k d :
  rect sh r -> (col < fst sh)%nat -> (k < snd sh)%nat ->
  snd (board_state_score ID1 r sh) = false ->
  snd (board_state_score ID1 (set_cell r col k d) sh) = true ->
  board_state_score ID1 (set_cell r col k d) sh
  = (if (d =? ID1)%Z then 1000000000%Z else (-1000000000)%Z, true).
Proof.
  intros Hrect Hc Hk Hno Hwin.
  destruct (board_state_score_win_line ID1 _ sh Hwin) as (q & Hq & Hl & ->).
  assert (Hon : on_quartet (col, k) q).
  { unfold on_quartet.
    destruct (decide ((col, k) = q1 q)); [tauto|].
    destruct (decide ((col, k) = q2 q)); [tauto|].
    destruct (decide ((col, k) = q3 q)); [tauto|].
    destruct (decide ((col, k) = q4 q)); [tauto|].
    exfalso. apply (quartet_at_win ID1) in Hl.
    rewrite quartet_at_off in Hl by (unfold on_quartet; tauto).
    rewrite board_state_score_evaluate in Hno.
    apply evaluate_no_win in Hno. rewrite List.Forall_forall in Hno.
    specialize (Hno (quartet_at ID1 r q) (in_map _ _ _ Hq)). congruence. }
  destruct Hl as (_ & H12 & H23 & H34).
  pose proof (cell_set_cell_eq r col k d sh Hrect Hc Hk) as Hnew.
  assert (cell (set_cell r col k d) (q1 q).1 (q1 q).2 = d) as ->; [|done].
  destruct Hon as [Heq | [Heq | [Heq | Heq]]];
    rewrite <- Heq in *; simpl in *; congruence.
Qed.

(** A move that does not win at once leaves a board without a line of
    four. *)
Lemma no_win_after_move ID1 r j r1 :
  ID1 <> 0%Z -> valid sh r -> (j < fst sh)%nat ->
  snd (board_state_score ID r sh) = false ->
  immediate_win ID1 sh r j = false ->
  make_move r j sh ID1 = (true, r1) ->
  snd (board_state_score ID r1 sh) = false.
Proof.
  intros Hd Hvalid Hj Hno Hlose Hmake.
  destruct (snd (board_state_score ID r1 sh)) eqn:Hwin1; [|done].
  exfalso.
  destruct (make_move_valid sh r j ID1 r1 Hvalid Hj rows Hd Hmake)
    as (_ & _ & _ & _ & k & Hk & _ & _ & ->).
  rewrite (win_flag_any_id ID ID1) in Hno, Hwin1.
  pose proof (placed_win_value ID1 r j k ID1 (proj1 Hvalid) Hj Hk Hno Hwin1)
    as Hscore.
  rewrite Z.eqb_refl in Hscore.
  unfold immediate_win in Hlose. by rewrite Hmake, Hscore in Hlose.
Qed.

Hypothesis small : (score_bound sh <= 333333333)%Z.
Hypothesis budget : MAX_PLIES <> 1%Z.

(** The value of a node at ply 2 on a board without a line of four is at
    least -333333334: a draw, a heuristic total, or the greatest of values
    found from ply 3 on. *)
Lemma reply_floor fuel x v x' :
  valid sh x -> snd (board_state_score ID x sh) = false ->
  (empties x < fuel)%nat ->
  minimax ID MAX_PLIES fuel x sh 2 = Some (v, x') ->
  inject_Z (-333333334) <= v.
Proof.
  intros Hvalid Hno Hfuel Hv.
  destruct fuel as [|fuel]; [lia|].
  rewrite minimax_step in Hv. cbv zeta in Hv. rewrite Hno in Hv.
  destruct (rack_full x sh) eqn:Hfull.
  { injection Hv as <- _. unfold Qle. simpl. lia. }
  destruct (Z.pos 2 =? MAX_PLIES)%Z.
  { injection Hv as <- _.
    pose proof (board_state_score_bound ID x sh Hno) as Hb.
    unfold score_bound in small. rewrite <- Zle_Qle. lia. }
  destruct (interior_children ID MAX_PLIES sh rows engine_disc 333333334 3
              ltac:(lia) ltac:(lia) ltac:(lia) fuel x 2%positive Hvalid
              ltac:(lia) ltac:(lia)) as (Hloop & Hrange & Hsome).
  rewrite Hloop in Hv.
  rewrite (mover_role ID engine_disc) in Hv. simpl in Hv. injection Hv as <- _.
  destruct (Hsome Hfull) as [v0 Hv0].
  eapply Qle_trans; [|apply (fold_raise_upper _ _ v0 Hv0)].
  apply (Hrange v0 Hv0).
Qed.

(** After a move that leaves the opponent no winning reply, the value at
    ply 1 is at least -333333334. *)
Lemma blocked_value fuel rb s r' :
  valid sh rb -> snd (board_state_score ID rb sh) = false ->
  (empties rb < fuel)%nat ->
  (forall c, (c < fst sh)%nat -> immediate_win (opponent ID) sh rb c = false) ->
  minimax ID MAX_PLIES fuel rb sh 1 = Some (s, r') ->
  inject_Z (-333333334) <= s.
Proof.
  intros Hvalid Hno Hfuel Hsafe Hv.
  destruct fuel as [|fuel]; [lia|].
  rewrite minimax_step in Hv. cbv zeta in Hv. rewrite Hno in Hv.
  destruct (rack_full rb sh) eqn:Hfull.
  { injection Hv as <- _. unfold Qle. simpl. lia. }
  destruct (Z.eqb_spec (Z.pos 1) MAX_PLIES) as [Heq | _]; [by symmetry in Heq|].
  destruct (interior_children ID MAX_PLIES sh rows engine_disc 1000000000 1
              ltac:(lia) ltac:(lia) ltac:(lia) fuel rb 1%positive Hvalid
              ltac:(lia) ltac:(lia)) as (Hloop & Hrange & Hsome).
  rewrite Hloop in Hv.
  rewrite (mover_role ID engine_disc) in Hv. simpl in Hv. injection Hv as <- _.
  destruct (Hsome Hfull) as [v0 Hv0].
  assert (Hin : In (fold_left lower
                      (children (deeper ID MAX_PLIES sh fuel 1) sh (mover ID 1)
                                rb (seq 0 (fst sh)))
                      (inject_Z 10000000000))
                   (children (deeper ID MAX_PLIES sh fuel 1) sh (mover ID 1)
                             rb (seq 0 (fst sh)))).
  { apply (fold_lower_attained _ _ v0 Hv0).
    apply (sentinel_high 1000000000); [lia | by apply Hrange]. }
  apply in_children in Hin as (c & Hc & Hchild).
  apply in_seq in Hc.
  apply (child_Some sh) in Hchild as (rbc & r'' & Hmake & Hv).
  rewrite mover_first in Hmake.
  destruct (make_move_valid sh rb c _ rbc Hvalid ltac:(lia) rows opponent_disc
              Hmake) as (Hvalid1 & Hless & _).
  apply (reply_floor fuel rbc _ r''); [done | | lia | exact Hv].
  apply (no_win_after_move (opponent ID) rb c rbc opponent_disc Hvalid
           ltac:(lia) Hno); [|done].
  apply Hsafe. lia.
Qed.

(** If the opponent's reply in some column completes a line of four, the
    value at ply 1 is at most -1e9 / 2. *)
Lemma unblocked_value fuel r1 b r1b s r' :
  valid sh r1 -> snd (board_state_score ID r1 sh) = false ->
  (empties r1 < fuel)%nat -> (b < fst sh)%nat ->
  make_move r1 b sh (opponent ID) = (true, r1b) ->
  snd (board_state_score ID r1b sh) = true ->
  minimax ID MAX_PLIES fuel r1 sh 1 = Some (s, r') ->
  s <= -1000000000 # 2.
Proof.
  intros Hvalid Hno Hfuel Hb Hmake Hwin Hv.
  destruct (make_move_valid sh r1 b _ r1b Hvalid Hb rows opponent_disc Hmake)
    as (Hvalid1 & Hless & _ & Htop & k & Hk & _ & _ & Hr1b).
  assert (Hscore : board_state_score ID r1b sh = ((-1000000000)%Z, true)).
  { rewrite Hr1b in *.
    rewrite (placed_win_value ID r1 b k (opponent ID) (proj1 Hvalid) Hb Hk
               Hno Hwin).
    destruct (Z.eqb_spec (opponent ID) ID) as [Heq | _]; [|done].
    by apply opponent_other in Heq. }
  destruct fuel as [|fuel]; [lia|].
  rewrite minimax_step in Hv. cbv zeta in Hv. rewrite Hno in Hv.
  assert (Hfull : rack_full r1 sh = false).
  { apply rack_full_false. eauto. }
  rewrite Hfull in Hv.
  destruct (Z.eqb_spec (Z.pos 1) MAX_PLIES) as [Heq | _]; [by symmetry in Heq|].
  destruct (interior_children ID MAX_PLIES sh rows engine_disc 1000000000 1
              ltac:(lia) ltac:(lia) ltac:(lia) fuel r1 1%positive Hvalid
              ltac:(lia) ltac:(lia)) as (Hloop & _ & _).
  rewrite Hloop in Hv.
  rewrite (mover_role ID engine_disc) in Hv. simpl in Hv. injection Hv as <- _.
  apply fold_lower_lower. apply in_children.
  exists b. split; [apply in_seq; lia|].
  apply (child_Some sh). exists r1b, r1b. rewrite mover_first.
  split; [done|]. unfold deeper.
  destruct fuel as [|fuel]; [lia|].
  rewrite minimax_step. cbv zeta. by rewrite Hscore.
Qed.

(** A threat in column [b] is still there after the engine has played in
    another column. *)
Lemma threat_persists r j k b :
  valid sh r -> (j < fst sh)%nat -> (b < fst sh)%nat -> j <> b ->
  (k < snd sh)%nat -> cell r j k = 0%Z ->
  immediate_win (opponent ID) sh r b = true ->
  exists r1b,
    make_move (set_cell r j k ID) b sh (opponent ID) = (true, r1b)
    /\ snd (board_state_score ID r1b sh) = true.
Proof.
  intros Hvalid Hj Hb Hjb Hk Hz Hthreat.
  pose proof (proj1 Hvalid) as Hrect.
  destruct (immediate_win_true (opponent ID) sh rows opponent_disc r b Hvalid
              Hb Hthreat) as (Htop & rbw & Hmake & _ & _ & Hscore).
  destruct (make_move_valid sh r b _ rbw Hvalid Hb rows opponent_disc Hmake)
    as (_ & _ & _ & _ & kb & Hkb & Hzb & Hlowb & ->).
  exists (set_cell (set_cell r j k ID) b kb (opponent ID)). split.
  - unfold make_move.
    rewrite cell_set_cell_ne by (intros [=]; lia). rewrite Htop. simpl.
    apply make_move_scan_finds; [lia | |].
    + by rewrite cell_set_cell_ne by (intros [=]; lia).
    + intros i Hi. rewrite cell_set_cell_ne by (intros [=]; lia).
      apply Hlowb. lia.
  - destruct (board_state_score_win_line (opponent ID)
                (set_cell r b kb (opponent ID)) sh) as (q & Hq & Hl & _);
      [by rewrite Hscore|].
    apply (board_state_score_line_win ID _ sh q Hq).
    assert (Hsame : forall c x,
              cell (set_cell r b kb (opponent ID)) c x <> 0%Z ->
              cell (set_cell (set_cell r j k ID) b kb (opponent ID)) c x
              = cell (set_cell r b kb (opponent ID)) c x).
    { intros c x Hnz.
      destruct (decide ((b, kb) = (c, x))) as [[= <- <-] | Hne].
      - rewrite (cell_set_cell_eq r b kb _ sh) by done.
        apply (cell_set_cell_eq _ b kb _ sh); [by apply rect_set_cell | done..].
      - rewrite cell_set_cell_ne in Hnz by done.
        rewrite !(cell_set_cell_ne _ b kb) by done.
        apply cell_set_cell_ne. intros [= <- <-]. by rewrite Hz in Hnz. }
    destruct Hl as (Hnz & H12 & H23 & H34).
    unfold four_in_line.
    rewrite !Hsame by congruence. auto.
Qed.

(** With a threat in column [b] that the engine's disc in [b] removes, and
    no win of its own, the engine moves in [b]. *)
Lemma pick_move_on_blocks fuel r b :
  valid sh r -> (empties r <= fuel)%nat ->
  snd (board_state_score ID r sh) = false ->
  (forall j, (j < fst sh)%nat -> immediate_win ID sh r j = false) ->
  (b < fst sh)%nat -> immediate_win (opponent ID) sh r b = true ->
  (forall c, (c < fst sh)%nat ->
     immediate_win (opponent ID) sh (snd (make_move r b sh ID)) c = false) ->
  pick_move_on ID MAX_PLIES fuel r sh = Some (Some b, r).
Proof.
  intros Hvalid Hfuel Hno Hnowin Hb Hthreat Hsafe.
  destruct (immediate_win_true (opponent ID) sh rows opponent_disc r b Hvalid
              Hb Hthreat) as (Htop & _).
  assert (Hfull : rack_full r sh = false) by (apply rack_full_false; eauto).
  destruct (pick_move_on_best ID MAX_PLIES sh rows engine_disc fuel r Hvalid
              Hfuel ltac:(lia) Hfull) as (c & s & Hpick & Hc & Hs & Hbest & _).
  destruct (Nat.eq_dec c b) as [-> | Hcb]; [done|]. exfalso.
  destruct (root_score_open ID MAX_PLIES sh rows engine_disc fuel r b Hvalid Hb
              Hfuel Htop) as [sb Hsb].
  pose proof (Hbest b sb Hb Hsb) as Hle.
  apply (root_score_Some ID MAX_PLIES sh rows engine_disc) in Hsb
    as (_ & rb & Hmakeb & Hvalidb & Hlessb & rb' & Hvb); [| done | done].
  rewrite Hmakeb in Hsafe. simpl in Hsafe.
  pose proof (no_win_after_move ID r b rb engine_disc Hvalid Hb Hno
                (Hnowin b Hb) Hmakeb) as Hnob.
  pose proof (blocked_value fuel rb sb rb' Hvalidb Hnob ltac:(lia) Hsafe Hvb)
    as Hfloor.
  apply (root_score_Some ID MAX_PLIES sh rows engine_disc) in Hs
    as (_ & r1 & Hmake1 & Hvalid1 & Hless1 & r1' & Hv1); [| done | done].
  pose proof (no_win_after_move ID r c r1 engine_disc Hvalid Hc Hno
                (Hnowin c Hc) Hmake1) as Hno1.
  destruct (make_move_valid sh r c ID r1 Hvalid Hc rows engine_disc Hmake1)
    as (_ & _ & _ & _ & k & Hk & Hz & _ & Hr1).
  destruct (threat_persists r c k b Hvalid Hc Hb Hcb Hk Hz Hthreat)
    as (r1b & Hmake1b & Hwin1b).
  rewrite <- Hr1 in Hmake1b.
  pose proof (unblocked_value fuel r1 b r1b s r1' Hvalid1 Hno1 ltac:(lia) Hb
                Hmake1b Hwin1b Hv1) as Hceil.
  assert (inject_Z (-333333334) <= -1000000000 # 2) as Habs.
  { eapply Qle_trans; [exact Hfloor|]. eapply Qle_trans; [exact Hle | exact Hceil]. }
  unfold Qle in Habs. simpl in Habs. lia.
Qed.

End Threat.

(** X21.  [pick_move] blocks a threat: on a valid board without a line of
    four whose aggregate scores stay within 333333333, for a ply budget
    other than 1, if no disc of the engine wins at once, a disc of the
    opponent in column [b] would complete a line of four, and after the
    engine's disc in [b] no disc of the opponent wins at once, then
    [pick_move] returns [b]. *)
Theorem pick_move_blocks_threat
    (ID MAX_PLIES : Z) (sh : shape) (fuel : nat)
    (st : gmap positive rack) (ref : positive) (r : rack) (b : nat) :
  st !! ref = Some r -> valid sh r ->
  (0 < fst sh)%nat -> (0 < snd sh)%nat -> ID = 1 \/ ID = 2 ->
  score_bound sh <= 333333333 -> MAX_PLIES <> 1 ->
  (empties r <= fuel)%nat ->
  snd (board_state_score ID r sh) = false ->
  (forall j, (j < fst sh)%nat -> immediate_win ID sh r j = false) ->
  (b < fst sh)%nat -> immediate_win (opponent ID) sh r b = true ->
  (forall c, (c < fst sh)%nat ->
     immediate_win (opponent ID) sh (snd (make_move r b sh ID)) c = false) ->
  exists st', pick_move ID MAX_PLIES fuel st ref = Some (Some b, st').
Proof.
  intros Href Hvalid HC HR HID Hsmall Hbudget Hfuel Hno Hnowin Hb Hthreat Hsafe.
  rewrite (pick_move_store ID MAX_PLIES fuel st ref r sh Href (proj1 Hvalid) HC).
  rewrite (pick_move_on_blocks ID MAX_PLIES sh HR HID Hsmall Hbudget fuel r b
             Hvalid Hfuel Hno Hnowin Hb Hthreat Hsafe).
  eauto.
Qed.

Lemma pick_move_blocks_threat_witness :
  exists st',
    pick_move 1 2 4 {[ 1%positive := [[2; 1]; [2; 1]; [2; 0]; [0; 0]; [1; 0]] ]} 1
    = Some (Some 3%nat, st').
Proof.
  apply (pick_move_blocks_threat 1 2 (5, 2)%nat 4
           {[ 1%positive := [[2; 1]; [2; 1]; [2; 0]; [0; 0]; [1; 0]] ]} 1
           [[2; 1]; [2; 1]; [2; 0]; [0; 0]; [1; 0]] 3).
  - reflexivity.
  - valid_by_evaluation.
  - simpl; lia.
  - simpl; lia.
  - left; reflexivity.
  - vm_compute; discriminate.
  - discriminate.
  - vm_compute; lia.
  - reflexivity.
  - intros j Hj. simpl in Hj.
    do 5 (destruct j as [|j]; [reflexivity|]). lia.
  - simpl; lia.
  - reflexivity.
  - intros c Hc. simpl in Hc.
    do 5 (destruct c as [|c]; [reflexivity|]). lia.
Defined.

(** ** The search on binary64 quotients and the search on exact quotients *)

Section RoundingOrder.

Local Open Scope Q_scope.

Lemma Qfloor_unique x k :
  inject_Z k <= x -> x < inject_Z (k + 1) -> Qfloor x = k.
Proof.
  intros Hlo Hhi.
  pose proof (Qfloor_resp_le _ _ Hlo) as H1. rewrite Qfloor_Z in H1.
  assert (H2 : (Qfloor x < k + 1)%Z).
  { rewrite Zlt_Qlt. eapply Qle_lt_trans; [apply Qfloor_le | done]. }
  lia.
Qed.

Lemma round_half_even_spec x :
  let q := Qfloor x in
  let f := x - inject_Z q in
  0 <= f /\ f < 1
  /\ (f < 1 # 2 -> round_half_even x = q)
  /\ (1 # 2 < f -> round_half_even x = (q + 1)%Z)
  /\ (f == 1 # 2 ->
      round_half_even x = if Z.even q then q else (q + 1)%Z).
Proof.
  intros q f. unfold round_half_even. fold q. fold f.
  pose proof (Qfloor_le x) as Hle. pose proof (Qlt_floor x) as Hlt.
  rewrite inject_Z_plus in Hlt. change (inject_Z 1) with 1 in Hlt.
  fold q in Hle, Hlt.
  split; [unfold f; lra|]. split; [unfold f; lra|].
  destruct (Qcompare f (1 # 2)) eqn:Hc.
  - apply Qeq_alt in Hc. repeat split; intros; try done; lra.
  - apply Qlt_alt in Hc. repeat split; intros; try done; lra.
  - apply Qgt_alt in Hc. repeat split; intros; try done; lra.
Qed.

Lemma round_half_even_mono x y :
  x <= y -> (round_half_even x <= round_half_even y)%Z.
Proof.
  intros Hxy. pose proof (Qfloor_resp_le _ _ Hxy) as Hq.
  destruct (round_half_even_spec x) as (Hx0 & Hx1 & Hxl & Hxg & Hxe).
  destruct (round_half_even_spec y) as (Hy0 & Hy1 & Hyl & Hyg & Hye).
  cbv zeta in *.
  destruct (round_half_even_cases x) as [[Ex _] | [Ex _]];
    destruct (round_half_even_cases y) as [[Ey _] | [Ey _]];
    cbv zeta in *; try lia.
  (* x rounds up, y rounds down *)
  destruct (Z.eq_dec (Qfloor x) (Qfloor y)) as [E | NE]; [|lia].
  exfalso. rewrite E in *.
  destruct (Qlt_le_dec (y - inject_Z (Qfloor y)) (1 # 2)) as [Hl | Hg].
  - destruct (Qlt_le_dec (x - inject_Z (Qfloor y)) (1 # 2)) as [Hl' | Hg'].
    + rewrite (Hxl Hl') in Ex. lia.
    + lra.
  - destruct (Qlt_le_dec (1 # 2) (y - inject_Z (Qfloor y))) as [Hg' | Hl'].
    + rewrite (Hyg Hg') in Ey. lia.
    + assert (Ey' : y - inject_Z (Qfloor y) == 1 # 2) by lra.
      assert (Ex' : x - inject_Z (Qfloor y) == 1 # 2).
      { destruct (Qlt_le_dec (x - inject_Z (Qfloor y)) (1 # 2)) as [Hl'' | Hg''].
        - rewrite (Hxl Hl'') in Ex. lia.
        - lra. }
      rewrite (Hxe Ex') in Ex. rewrite (Hye Ey') in Ey.
      destruct (Z.even (Qfloor y)); lia.
Qed.

Lemma round_half_even_opp x : round_half_even (- x) = (- round_half_even x)%Z.
Proof.
  destruct (round_half_even_spec x) as (Hx0 & Hx1 & Hxl & Hxg & Hxe).
  cbv zeta in *. set (q := Qfloor x) in *.
  destruct (Qeq_dec (x - inject_Z q) 0) as [Hz | Hnz].
  - assert (E : x == inject_Z q) by lra.
    rewrite (round_half_even_comp x _ E), round_half_even_Z.
    assert (E' : - x == inject_Z (- q)) by (rewrite inject_Z_opp; lra).
    by rewrite (round_half_even_comp _ _ E'), round_half_even_Z.
  - assert (Hf : Qfloor (- x) = (- q - 1)%Z).
    { apply Qfloor_unique.
      - unfold Z.sub. rewrite inject_Z_plus, !inject_Z_opp.
        change (inject_Z 1) with 1. lra.
      - replace (- q - 1 + 1)%Z with (- q)%Z by lia. rewrite inject_Z_opp. lra. }
    destruct (round_half_even_spec (- x)) as (_ & _ & Hnl & Hng & Hne).
    cbv zeta in *. rewrite Hf in *.
    assert (Ef : - x - inject_Z (- q - 1) == 1 - (x - inject_Z q)).
    { unfold Z.sub. rewrite inject_Z_plus, !inject_Z_opp.
      change (inject_Z 1) with 1. ring. }
    destruct (Qlt_le_dec (x - inject_Z q) (1 # 2)) as [Hl | Hg].
    + rewrite (Hxl Hl). rewrite Hng by lra. lia.
    + destruct (Qlt_le_dec (1 # 2) (x - inject_Z q)) as [Hg' | Hl'].
      * rewrite (Hxg Hg'). rewrite Hnl by lra. lia.
      * assert (Eh : x - inject_Z q == 1 # 2) by lra.
        rewrite (Hxe Eh). rewrite Hne by lra.
        replace (- q - 1)%Z with (- (q + 1))%Z by lia.
        rewrite Z.even_opp, Z.even_add. change (Z.even 1) with false.
        destruct (Z.even q); simpl; lia.
Qed.

Lemma magnitude_comp x y : ~ x == 0 -> x == y -> magnitude x = magnitude y.
Proof.
  intros Hx E. destruct (magnitude_spec x Hx) as [Hlo Hhi].
  symmetry. apply magnitude_unique; by rewrite <- E.
Qed.

Lemma binary64_zero x : x == 0 -> binary64 x == 0.
Proof.
  intros E. unfold binary64. generalize (exponent x). intros e.
  assert (E' : x / 2 ^ e == inject_Z 0).
  { rewrite E. unfold Qdiv. change (inject_Z 0) with 0. ring. }
  rewrite (round_half_even_comp _ _ E'), round_half_even_Z.
  change (inject_Z 0) with 0. ring.
Qed.

Lemma binary64_comp x y : x == y -> binary64 x == binary64 y.
Proof.
  intros E. destruct (Qeq_dec x 0) as [Hz | Hnz].
  - rewrite (binary64_zero x Hz), (binary64_zero y); [reflexivity|].
    by rewrite <- E.
  - unfold binary64, exponent. rewrite <- (magnitude_comp x y Hnz E).
    set (e := Z.max (magnitude x - 52) (-1074)).
    assert (E' : x / 2 ^ e == y / 2 ^ e) by (by rewrite E).
    by rewrite (round_half_even_comp _ _ E').
Qed.

Lemma magnitude_opp x : magnitude (- x) = magnitude x.
Proof.
  destruct x as [n d]. unfold magnitude, Qabs, Qopp. cbn [Qnum Qden].
  by rewrite Z.abs_opp.
Qed.

Lemma binary64_opp x : binary64 (- x) == - binary64 x.
Proof.
  unfold binary64, exponent. rewrite magnitude_opp.
  set (e := Z.max (magnitude x - 52) (-1074)).
  assert (E : - x / 2 ^ e == - (x / 2 ^ e)).
  { unfold Qdiv. ring. }
  rewrite (round_half_even_comp _ _ E), round_half_even_opp, inject_Z_opp.
  ring.
Qed.

(** Rounding does not cross a value of the grid it rounds to. *)
Lemma binary64_le_grid x k :
  x <= inject_Z k * 2 ^ exponent x ->
  binary64 x <= inject_Z k * 2 ^ exponent x.
Proof.
  intros H. unfold binary64. set (e := exponent x) in *.
  pose proof (pow2_pos e) as He.
  apply Qmult_le_compat_r; [|lra].
  rewrite <- Zle_Qle.
  assert (H' : x / 2 ^ e <= inject_Z k) by (by apply Qle_shift_div_r).
  apply round_half_even_mono in H'. by rewrite round_half_even_Z in H'.
Qed.

Lemma binary64_ge_grid x k :
  inject_Z k * 2 ^ exponent x <= x ->
  inject_Z k * 2 ^ exponent x <= binary64 x.
Proof.
  intros H. unfold binary64. set (e := exponent x) in *.
  pose proof (pow2_pos e) as He.
  apply Qmult_le_compat_r; [|lra].
  rewrite <- Zle_Qle.
  assert (H' : inject_Z k <= x / 2 ^ e) by (by apply Qle_shift_div_l).
  apply round_half_even_mono in H'. by rewrite round_half_even_Z in H'.
Qed.

Lemma pow2_grid K e : (e <= K)%Z -> 2 ^ K == inject_Z (2 ^ (K - e)) * 2 ^ e.
Proof.
  intros H. rewrite Zpower_Qpower by lia. change (inject_Z 2) with 2.
  rewrite <- pow2_plus. by replace (K - e + e)%Z with K by lia.
Qed.

Lemma binary64_le_pow x K :
  x <= 2 ^ K -> (exponent x <= K)%Z -> binary64 x <= 2 ^ K.
Proof.
  intros Hx He. rewrite (pow2_grid K _ He) in *. by apply binary64_le_grid.
Qed.

Lemma binary64_ge_pow x K :
  2 ^ K <= x -> (exponent x <= K)%Z -> 2 ^ K <= binary64 x.
Proof.
  intros Hx He. rewrite (pow2_grid K _ He) in *. by apply binary64_ge_grid.
Qed.

Lemma binary64_nonneg x : 0 <= x -> 0 <= binary64 x.
Proof.
  intros H.
  assert (E : 0 == inject_Z 0 * 2 ^ exponent x) by (change (inject_Z 0) with 0; ring).
  rewrite E. apply binary64_ge_grid. by rewrite <- E.
Qed.

Lemma binary64_nonpos x : x <= 0 -> binary64 x <= 0.
Proof.
  intros H.
  assert (E : 0 == inject_Z 0 * 2 ^ exponent x) by (change (inject_Z 0) with 0; ring).
  rewrite E. apply binary64_le_grid. by rewrite <- E.
Qed.

Lemma binary64_mono_pos x y : 0 < x -> x <= y -> binary64 x <= binary64 y.
Proof.
  intros Hx Hxy.
  assert (Hx0 : ~ x == 0) by lra. assert (Hy0 : ~ y == 0) by lra.
  destruct (magnitude_spec x Hx0) as [Hxl Hxh].
  destruct (magnitude_spec y Hy0) as [Hyl Hyh].
  rewrite (Qabs_pos x) in Hxl, Hxh by lra.
  rewrite (Qabs_pos y) in Hyl, Hyh by lra.
  assert (Hm : (magnitude x <= magnitude y)%Z).
  { assert (magnitude x < magnitude y + 1)%Z; [|lia].
    apply (Qpower_lt_compat_l_inv 2); [|reflexivity]. lra. }
  destruct (Z.eq_dec (exponent x) (exponent y)) as [Ee | Ne].
  - unfold binary64. rewrite Ee. set (e := exponent y).
    pose proof (pow2_pos e) as He.
    apply Qmult_le_compat_r; [|lra].
    rewrite <- Zle_Qle. apply round_half_even_mono.
    apply Qmult_le_compat_r; [done|]. apply Qinv_le_0_compat. lra.
  - assert (Hlt : (exponent x < exponent y)%Z) by (unfold exponent in *; lia).
    assert (Hey : exponent y = (magnitude y - 52)%Z) by (unfold exponent in *; lia).
    set (K := Z.max (magnitude x + 1) (exponent x)).
    assert (HK : (K <= magnitude y)%Z) by (unfold K, exponent in *; lia).
    apply (Qle_trans _ (2 ^ K)).
    + apply binary64_le_pow; [|unfold K; lia].
      apply Qlt_le_weak. eapply Qlt_le_trans; [exact Hxh|].
      apply pow2_le. unfold K. lia.
    + apply (Qle_trans _ (2 ^ magnitude y)); [by apply pow2_le|].
      apply binary64_ge_pow; [done | lia].
Qed.

Lemma binary64_mono x y : x <= y -> binary64 x <= binary64 y.
Proof.
  intros Hxy. destruct (Qlt_le_dec 0 x) as [Hx | Hx].
  - by apply binary64_mono_pos.
  - destruct (Qlt_le_dec y 0) as [Hy | Hy].
    + assert (H : binary64 (- y) <= binary64 (- x)).
      { apply binary64_mono_pos; lra. }
      rewrite !binary64_opp in H. lra.
    + apply (Qle_trans _ 0); [by apply binary64_nonpos | by apply binary64_nonneg].
Qed.

Lemma binary64_Z z : (Z.abs z < 2 ^ 53)%Z -> binary64 (inject_Z z) == inject_Z z.
Proof.
  intros Hz. destruct (Z.eq_dec z 0%Z) as [-> | Hnz]; [by apply binary64_zero|].
  assert (Hx : ~ inject_Z z == 0).
  { change 0 with (inject_Z 0). rewrite inject_Z_injective. done. }
  destruct (magnitude_spec _ Hx) as [Hlo _].
  assert (Habs : Qabs (inject_Z z) < 2 ^ 53).
  { change (Qabs (inject_Z z)) with (inject_Z (Z.abs z)).
    change (2 ^ 53) with (inject_Z (2 ^ 53)). by rewrite <- Zlt_Qlt. }
  assert (Hm : (magnitude (inject_Z z) < 53)%Z).
  { apply (Qpower_lt_compat_l_inv 2); [|reflexivity]. lra. }
  assert (He : (exponent (inject_Z z) <= 0)%Z) by (unfold exponent; lia).
  assert (E : inject_Z z
              == inject_Z (z * 2 ^ (- exponent (inject_Z z)))
                 * 2 ^ exponent (inject_Z z)).
  { rewrite inject_Z_mult, Zpower_Qpower by lia. change (inject_Z 2) with 2.
    rewrite <- Qmult_assoc, <- pow2_plus.
    replace (- exponent (inject_Z z) + exponent (inject_Z z))%Z with 0%Z by lia.
    change (2 ^ 0) with 1. ring. }
  apply Qle_antisym.
  - eapply Qle_trans; [apply binary64_le_grid | rewrite <- E; apply Qle_refl].
    rewrite <- E. apply Qle_refl.
  - eapply Qle_trans; [rewrite E; apply Qle_refl | apply binary64_ge_grid].
    rewrite <- E. apply Qle_refl.
Qed.

(** The sentinels of the search are binary64 values. *)
Lemma sentinel_exact z :
  (Z.abs z <= 10000000000)%Z -> inject_Z z == binary64 (inject_Z z).
Proof. intros H. symmetry. apply binary64_Z. lia. Qed.

End RoundingOrder.

Section Binary64Search.

Variable ID : Z.
Variable MAX_PLIES : Z.
Variable sh : shape.
Hypothesis rows : (0 < snd sh)%nat.
Hypothesis engine : ID <> 0.
Hypothesis exact_scores : score_bound sh < 2 ^ 53.

Local Open Scope Q_scope.

Lemma raise_rounds hf h sf s :
  hf == binary64 h -> sf == binary64 s ->
  raise hf sf == binary64 (raise h s).
Proof.
  intros Hh Hs.
  destruct (raise_cases h s) as [[Hlt ->] | [Hle ->]];
    destruct (raise_cases hf sf) as [[Hlt' ->] | [Hle' ->]]; try done.
  - apply Qlt_le_weak, binary64_mono in Hlt. rewrite <- Hh, <- Hs in Hlt.
    rewrite <- Hs. by apply Qle_antisym.
  - apply binary64_mono in Hle. rewrite <- Hh, <- Hs in Hle.
    exfalso. exact (Qlt_not_le _ _ Hlt' Hle).
Qed.

Lemma lower_rounds lf l sf s :
  lf == binary64 l -> sf == binary64 s ->
  lower lf sf == binary64 (lower l s).
Proof.
  intros Hl Hs.
  destruct (lower_cases l s) as [[Hlt ->] | [Hle ->]];
    destruct (lower_cases lf sf) as [[Hlt' ->] | [Hle' ->]]; try done.
  - apply Qlt_le_weak, binary64_mono in Hlt. rewrite <- Hl, <- Hs in Hlt.
    rewrite <- Hs. by apply Qle_antisym.
  - apply binary64_mono in Hle. rewrite <- Hl, <- Hs in Hle.
    exfalso. exact (Qlt_not_le _ _ Hlt' Hle).
Qed.

Lemma fold_raise_rounds fs es :
  Forall2 (fun vf v => vf == binary64 v) fs es ->
  forall hf h, hf == binary64 h ->
    fold_left raise fs hf == binary64 (fold_left raise es h).
Proof.
  induction 1 as [|vf v fs es Hv _ IH]; intros hf h Hh; [done|].
  cbn [fold_left]. apply IH. by apply raise_rounds.
Qed.

Lemma fold_lower_rounds fs es :
  Forall2 (fun vf v => vf == binary64 v) fs es ->
  forall lf l, lf == binary64 l ->
    fold_left lower fs lf == binary64 (fold_left lower es l).
Proof.
  induction 1 as [|vf v fs es Hv _ IH]; intros lf l Hl; [done|].
  cbn [fold_left]. apply IH. by apply lower_rounds.
Qed.

(** Children that agree up to rounding, column by column. *)
Lemma children_rounds (rec_f rec : rack -> option (Q * rack)) player r :
  (forall i r1, (i < fst sh)%nat -> make_move r i sh player = (true, r1) ->
     exists v vf, rec r1 = Some (v, r1) /\ rec_f r1 = Some (vf, r1)
                  /\ vf == binary64 v) ->
  forall cols, List.Forall (fun i => (i < fst sh)%nat) cols ->
    Forall2 (fun vf v => vf == binary64 v)
      (children rec_f sh player r cols) (children rec sh player r cols).
Proof.
  intros Hrec cols. induction cols as [|i cols IH]; intros Hcols; [constructor|].
  apply List.Forall_cons_iff in Hcols as [Hi Hcols].
  rewrite !children_cons. unfold child.
  destruct (make_move r i sh player) as [[|] r1] eqn:Hmake; [|by apply IH].
  destruct (Hrec i r1 Hi Hmake) as (v & vf & -> & -> & Hv).
  cbn [option_map fst]. constructor; [done | by apply IH].
Qed.

(** On a valid rack both searches return, both leave the rack as they
    found it, and the value on binary64 quotients is the rounding of the
    value on exact quotients. *)
Lemma minimax_binary64_rounds fuel :
  forall r ply, valid sh r -> (empties r < fuel)%nat ->
    exists v vf,
      minimax ID MAX_PLIES fuel r sh ply = Some (v, r)
      /\ minimax_binary64 ID MAX_PLIES fuel r sh ply = Some (vf, r)
      /\ vf == binary64 v.
Proof.
  induction fuel as [|fuel IH]; intros r ply Hvalid Hfuel; [lia|].
  rewrite minimax_step, minimax_binary64_step. cbv zeta.
  destruct (snd (board_state_score ID r sh)) eqn:Hwin.
  { eexists _, _. split; [reflexivity|]. split; [reflexivity|]. reflexivity. }
  destruct (rack_full r sh).
  { eexists _, _. split; [reflexivity|]. split; [reflexivity|].
    symmetry. by apply binary64_zero. }
  destruct (Z.pos ply =? MAX_PLIES).
  { eexists _, _. split; [reflexivity|]. split; [reflexivity|].
    symmetry. apply binary64_Z.
    pose proof (board_state_score_bound ID r sh Hwin) as Hb.
    unfold score_bound in exact_scores. lia. }
  assert (Hchild : forall i r1, (i < fst sh)%nat ->
            make_move r i sh (mover ID ply) = (true, r1) ->
            exists v vf,
              deeper ID MAX_PLIES sh fuel ply r1 = Some (v, r1)
              /\ minimax_binary64 ID MAX_PLIES fuel r1 sh (ply + 1) = Some (vf, r1)
              /\ vf == binary64 v).
  { intros i r1 Hi Hmake.
    destruct (make_move_valid sh r i _ r1 Hvalid Hi rows
                (mover_disc ID engine ply) Hmake) as (Hvalid1 & Hless & _).
    apply IH; [done | lia]. }
  rewrite (minimax_columns_children _ sh _ rows (mover_disc ID engine ply) r
             Hvalid); [| | lia].
  2:{ intros i r1 Hi Hmake.
      destruct (Hchild i r1 Hi Hmake) as (v & _ & Hv & _). eauto. }
  rewrite (minimax_columns_children _ sh _ rows (mover_disc ID engine ply) r
             Hvalid); [| | lia].
  2:{ intros i r1 Hi Hmake.
      destruct (Hchild i r1 Hi Hmake) as (_ & vf & _ & Hvf & _). eauto. }
  pose proof (children_rounds _ _ (mover ID ply) r Hchild (seq 0 (fst sh)))
    as Hkids.
  assert (Hcols : List.Forall (fun i => (i < fst sh)%nat) (seq 0 (fst sh))).
  { apply List.Forall_forall. intros i Hi. apply in_seq in Hi. lia. }
  specialize (Hkids Hcols).
  destruct (negb (ID =? mover ID ply)%Z);
    eexists _, _; (split; [reflexivity|]); (split; [reflexivity|]).
  - apply fold_lower_rounds; [done|]. apply sentinel_exact. lia.
  - apply fold_raise_rounds; [done|]. apply sentinel_exact. lia.
Qed.

End Binary64Search.

(** X22.  On a valid rack of a board whose aggregate scores stay below
    2^53, [_minimax] with binary64 quotients returns as soon as the budget
    exceeds the number of empty cells, leaves the rack as it found it, and
    its value is the binary64 rounding of the value that the search on
    exact quotients returns. *)
Theorem minimax_binary64_rounds_exact
    (ID MAX_PLIES : Z) (sh : shape) (fuel : nat) (r : rack) (ply : positive) :
  (0 < snd sh)%nat -> ID <> 0 -> score_bound sh < 2 ^ 53 ->
  valid sh r -> (empties r < fuel)%nat ->
  exists v vf,
    minimax ID MAX_PLIES fuel r sh ply = Some (v, r)
    /\ minimax_binary64 ID MAX_PLIES fuel r sh ply = Some (vf, r)
    /\ (vf == binary64 v)%Q.
Proof.
  intros Hrows HID Hsmall Hvalid Hfuel.
  exact (minimax_binary64_rounds ID MAX_PLIES sh Hrows HID Hsmall fuel r ply
           Hvalid Hfuel).
Qed.

Lemma minimax_binary64_rounds_exact_witness :
  exists v vf,
    minimax 1 3 7 small_rack (4, 2)%nat 1 = Some (v, small_rack)
    /\ minimax_binary64 1 3 7 small_rack (4, 2)%nat 1 = Some (vf, small_rack)
    /\ (vf == binary64 v)%Q.
Proof.
  apply (minimax_binary64_rounds_exact 1 3 (4, 2)%nat 7 small_rack 1).
  - simpl; lia.
  - discriminate.
  - vm_compute; reflexivity.
  - valid_by_evaluation.
  - vm_compute; lia.
Defined.
